(** * Glow graph IR: Module, Function, node builders, clone and verify

    A shallow embedding of [lib/Graph/Graph.cpp]: the type-uniquing pool, the
    name counter, the node builders, [eraseNode], [clone] and [verify], with
    the properties of the construction and verification engine proved over
    them.

    Conventions of the embedding.
    - A [Node*] is an address into a store of node objects ([heap_]); a
      freed object leaves an empty slot, and addresses are never reused.
    - A [Function*] is the position of the Function in [functions_]
      (Functions are only ever appended to that list).
    - A failed [assert], an [llvm_unreachable], an access through a dangling
      pointer or an index out of range aborts the operation: the embedded
      function returns [None] (or an error value for [verify]).  So does a
      step the language leaves undefined: dereferencing [end()], or erasing
      from a list through an iterator of another list.
    - [size_t] quantities are naturals ([N]); the sum [createConcat]
      accumulates in a [size_t] has the wrap-around of the 64-bit word
      written out. *)

From Stdlib Require Import NArith ZArith Ascii String.
From Stdlib Require Import Decimal DecimalString DecimalN.
From stdpp Require Import base option numbers list gmap strings.

Local Open Scope string_scope.
Local Open Scope N_scope.

(** ** Types and the type pool *)

(** The element kinds this file of the source names. *)
Inductive ElemKind := FloatTy | Int8QTy | IndexTy.

#[global] Instance ElemKind_eq_dec : EqDecision ElemKind.
Proof. solve_decision. Defined.

(** A [float] attribute is carried as an opaque value; no arithmetic is done
    on it in the modelled code. *)
Definition float := Z.

(** [glow::Type]: element kind, dimensions, quantization parameters. *)
Record Ty := mkTy {
  elementType_ : ElemKind;
  sizes_ : list N;
  scale_ : float;
  offset_ : Z;
}.

#[global] Instance Ty_eq_dec : EqDecision Ty.
Proof. solve_decision. Defined.

(** The constructors [Type(elemTy, dims)] and
    [Type(elemTy, dims, scale, offset)]. *)
Definition Type_plain (elemTy : ElemKind) (dims : list N) : Ty :=
  mkTy elemTy dims 0%Z 0%Z.
Definition Type_quant (elemTy : ElemKind) (dims : list N)
    (scale : float) (offset : Z) : Ty :=
  mkTy elemTy dims scale offset.

Definition isQuantizedType (T : Ty) : bool :=
  bool_decide (elementType_ T = Int8QTy).

(** Modelled from the spec: [Type::isEqual] is declared in the type header,
    which is not part of the sources at hand; the spec states that equality
    of Types is structural. *)
Definition isEqual (T1 T2 : Ty) : bool := bool_decide (T1 = T2).

(** A [TypeRef] is a pointer to a [Type] object.  The pool [types_] is a
    [std::list<Type>]: its elements never move and are never removed, so a
    pointer into it is identified by the rank at which the element was
    inserted ([PoolRef]).  Any other [Type] object (a local, or an element of
    another Module's pool) is a [ForeignRef] carrying the object's value. *)
Inductive TypeRef :=
  | PoolRef (i : nat)
  | ForeignRef (T : Ty).

#[global] Instance TypeRef_eq_dec : EqDecision TypeRef.
Proof. solve_decision. Defined.

(** Position in the list (front first) of the element inserted at rank [i]:
    [insert(begin(), T)] puts the newest element first. *)
Definition poolGet (types : list Ty) (i : nat) : option Ty :=
  if decide (i < length types)%nat then types !! (length types - 1 - i)%nat
  else None.

(** [*T] for a [TypeRef T]. *)
Definition derefType (types : list Ty) (r : TypeRef) : option Ty :=
  match r with
  | PoolRef i => poolGet types i
  | ForeignRef T => Some T
  end.

(** The loop of [Module::uniqueType(const Type &)]: the first stored type
    equal to [T], scanning from [begin()]; the result is its position. *)
Fixpoint findType (T : Ty) (types : list Ty) : option nat :=
  match types with
  | [] => None
  | tp :: rest =>
      if isEqual T tp then Some 0%nat
      else S <$> findType T rest
  end.

(** [Module::uniqueType(const Type &T)] on the pool: the new pool and the
    returned reference. *)
Definition poolUniqueType (types : list Ty) (T : Ty) : list Ty * TypeRef :=
  match findType T types with
  | Some pos => (types, PoolRef (length types - 1 - pos))
  | None => (T :: types, PoolRef (length types))
  end.

(** ** Nodes, Functions and the Module *)

(** A [Node*]. *)
Definition addr := nat.
Bind Scope nat_scope with addr.

(** The node kinds of the builders modelled here; [VariableNodeKind] is the
    kind [dyn_cast<Variable>] and [isa<Variable>] test for. *)
Inductive Kind :=
  | VariableNodeKind
  | ConvolutionNodeKind
  | FullyConnectedNodeKind
  | ConcatNodeKind
  | BatchedAddNodeKind
  | AddNodeKind | MulNodeKind | SubNodeKind | DivNodeKind
  | MaxNodeKind | MinNodeKind | CmpLTENodeKind.

#[global] Instance Kind_eq_dec : EqDecision Kind.
Proof. solve_decision. Defined.

Inductive VisibilityKind := Public | Private.
Inductive TrainKind := TrainNone | Broadcast | Xavier.

#[global] Instance VisibilityKind_eq_dec : EqDecision VisibilityKind.
Proof. solve_decision. Defined.
#[global] Instance TrainKind_eq_dec : EqDecision TrainKind.
Proof. solve_decision. Defined.

(** [NodeValue]: a producer and one of its result slots. *)
Record NodeValue := mkNodeValue { nv_node : addr; nv_resNo : nat }.

#[global] Instance NodeValue_eq_dec : EqDecision NodeValue.
Proof. solve_decision. Defined.

(** A node object.  Modelled from the spec: the node classes are generated
    (AutoGenNodes) and not part of the sources at hand; by the spec a node
    carries its kind, its name, the types of its result slots, its ordered
    input edges, an optional predicate edge and its scalar attributes.  A
    Variable also carries its visibility and its initialisation policy (the
    initial value itself, a float that only seeds the payload, is left out). *)
Record Node := mkNode {
  kind_ : Kind;
  name_ : string;
  resTypes_ : list TypeRef;
  inputs_ : list NodeValue;
  predicate_ : option NodeValue;
  attrs_ : list N;
  varInfo_ : option (VisibilityKind * TrainKind);
}.

#[global] Instance Node_eq_dec : EqDecision Node.
Proof. solve_decision. Defined.

(** [Function]: its name and [nodes_], in insertion order. *)
Record Function := mkFunction { fname_ : string; nodes_ : list addr }.

#[global] Instance Function_eq_dec : EqDecision Function.
Proof. solve_decision. Defined.

(** [Module], together with the store of node objects its pointers refer
    to. *)
Record Module := mkModule {
  heap_ : list (option Node);
  functions_ : list Function;
  types_ : list Ty;
  vars_ : list addr;
  uniqueIdx_ : N;
}.

Definition set_heap (h : list (option Node)) (M : Module) : Module :=
  mkModule h (functions_ M) (types_ M) (vars_ M) (uniqueIdx_ M).
Definition set_functions (fs : list Function) (M : Module) : Module :=
  mkModule (heap_ M) fs (types_ M) (vars_ M) (uniqueIdx_ M).
Definition set_types (ts : list Ty) (M : Module) : Module :=
  mkModule (heap_ M) (functions_ M) ts (vars_ M) (uniqueIdx_ M).
Definition set_vars (vs : list addr) (M : Module) : Module :=
  mkModule (heap_ M) (functions_ M) (types_ M) vs (uniqueIdx_ M).
Definition set_uniqueIdx (n : N) (M : Module) : Module :=
  mkModule (heap_ M) (functions_ M) (types_ M) (vars_ M) n.

(** Dereferencing a [Node*]: [None] for a dangling pointer. *)
Definition getNode (M : Module) (a : addr) : option Node :=
  mjoin (heap_ M !! a).

(** [new SomeNode(...)]: a fresh object. *)
Definition newNode (n : Node) (M : Module) : addr * Module :=
  (length (heap_ M), set_heap (heap_ M ++ [Some n]) M).

(** [delete N]: the object must be live. *)
Definition deleteNode (a : addr) (M : Module) : option Module :=
  match getNode M a with
  | Some _ => Some (set_heap (<[a := None]> (heap_ M)) M)
  | None => None
  end.

(** Overwriting a live object in place (a setter called on it). *)
Definition storeNode (a : addr) (n : Node) (M : Module) : option Module :=
  match getNode M a with
  | Some _ => Some (set_heap (<[a := Some n]> (heap_ M)) M)
  | None => None
  end.

Definition isaVariable (M : Module) (a : addr) : option bool :=
  n ← getNode M a; Some (bool_decide (kind_ n = VariableNodeKind)).

(** [Module::uniqueType] and its overloads, on the Module. *)
Definition uniqueType (T : Ty) (M : Module) : TypeRef * Module :=
  let '(ts, r) := poolUniqueType (types_ M) T in (r, set_types ts M).

Definition uniqueType_dims (elemTy : ElemKind) (dims : list N) (M : Module)
    : TypeRef * Module :=
  uniqueType (Type_plain elemTy dims) M.

Definition uniqueType_quant (elemTy : ElemKind) (dims : list N)
    (scale : float) (offset : Z) (M : Module) : TypeRef * Module :=
  uniqueType (Type_quant elemTy dims scale offset) M.

Definition uniqueTypeWithNewShape (T : TypeRef) (dims : list N) (M : Module)
    : option (TypeRef * Module) :=
  t ← derefType (types_ M) T;
  if isQuantizedType t then
    Some (uniqueType (Type_quant (elementType_ t) dims (scale_ t) (offset_ t)) M)
  else
    Some (uniqueType (Type_plain (elementType_ t) dims) M).

(** ** Names *)

(** [name.find("__", 0)]: the position of the first occurrence. *)
Fixpoint find_delim (s : string) : option nat :=
  match s with
  | EmptyString => None
  | String _ s' =>
      if String.prefix "__" s then Some 0%nat else S <$> find_delim s'
  end.

(** [std::to_string] of an unsigned counter. *)
Definition to_string (n : N) : string :=
  NilEmpty.string_of_uint (N.to_uint n).

(** The part of [name] that [uniqueName] keeps. *)
Definition stripName (name : string) : string :=
  match find_delim name with
  | Some delimPos => String.substring 0 delimPos name
  | None => name
  end.

(** [Module::uniqueName].  Modelled from the spec: the counter [uniqueIdx_]
    is declared in the Module's header, which is not part of the sources at
    hand; the spec describes it as a monotonic counter, and it is an
    unbounded natural here. *)
Definition uniqueName (name : string) (M : Module) : string * Module :=
  let UniqueName := stripName name ++ "__" ++ to_string (uniqueIdx_ M) in
  (UniqueName, set_uniqueIdx (uniqueIdx_ M + 1) M).

Definition setName (s : string) (n : Node) : Node :=
  mkNode (kind_ n) s (resTypes_ n) (inputs_ n) (predicate_ n) (attrs_ n)
    (varInfo_ n).

(** [Module::assignUniqueName]. *)
Definition assignUniqueName (a : addr) (M : Module) : option Module :=
  n ← getNode M a;
  let '(s, M1) := uniqueName (name_ n) M in
  storeNode a (setName s n) M1.

(** The sequence of names a Module hands out for a sequence of requests. *)
Fixpoint uniqueNames (names : list string) (M : Module)
    : list string * Module :=
  match names with
  | [] => ([], M)
  | s :: rest =>
      let '(u, M1) := uniqueName s M in
      let '(us, M2) := uniqueNames rest M1 in
      (u :: us, M2)
  end.

(** Predicates on names used to state the properties of [uniqueName]:
    decimal digits, and a trailing underscore. *)
Definition is_digit (c : ascii) : bool :=
  (48 <=? N_of_ascii c) && (N_of_ascii c <=? 57).

Fixpoint all_digits (s : string) : bool :=
  match s with
  | EmptyString => true
  | String c s' => is_digit c && all_digits s'
  end.

Fixpoint ends_with_underscore (s : string) : bool :=
  match s with
  | EmptyString => false
  | String c EmptyString => bool_decide (c = "_"%char)
  | String _ s' => ends_with_underscore s'
  end.

(** ** Variables and the node list *)

(** The [Variable] constructor. *)
Definition Variable_new (name : string) (FT : TypeRef)
    (visibility : VisibilityKind) (train : TrainKind) : Node :=
  mkNode VariableNodeKind name [FT] [] None [] (Some (visibility, train)).

(** Modelled from the spec: [Module::addVar] is defined in the Module's
    header, which is not part of the sources at hand; by the spec creating a
    Value assigns it a disambiguated name and registers it. *)
Definition addVar (V : addr) (M : Module) : option (addr * Module) :=
  M1 ← assignUniqueName V M;
  Some (V, set_vars (vars_ M1 ++ [V]) M1).

(** [Module::createVariable(TypeRef, ...)]. *)
Definition createVariable (T : TypeRef) (name : string)
    (visibility : VisibilityKind) (train : TrainKind) (M : Module)
    : option (addr * Module) :=
  t ← derefType (types_ M) T;
  let '(FT, M1) := uniqueType t M in
  let '(V, M2) := newNode (Variable_new name FT visibility train) M1 in
  addVar V M2.

(** [Module::createVariable(ElemKind, dims, ...)]. *)
Definition createVariable_dims (T : ElemKind) (dims : list N) (name : string)
    (visibility : VisibilityKind) (train : TrainKind) (M : Module)
    : option (addr * Module) :=
  let '(FT, M1) := uniqueType_dims T dims M in
  createVariable FT name visibility train M1.

(** [Module::createVariable(ElemKind, dims, scale, offset, ...)]. *)
Definition createVariable_quant (T : ElemKind) (dims : list N)
    (scale : float) (offset : Z) (name : string)
    (visibility : VisibilityKind) (train : TrainKind) (M : Module)
    : option (addr * Module) :=
  let '(FT, M1) := uniqueType_quant T dims scale offset M in
  createVariable FT name visibility train M1.

(** Modelled from the spec: [Function::addNode] is defined in the
    Function's header, which is not part of the sources at hand; by the spec
    it appends the node to the ordered node list and returns it.  [F] is the
    Function the method is called on. *)
Definition addNode (F : nat) (Nd : addr) (M : Module)
    : option (addr * Module) :=
  f ← functions_ M !! F;
  Some (Nd, set_functions
              (<[F := mkFunction (fname_ f) (nodes_ f ++ [Nd])]> (functions_ M))
              M).

(** [Node::getType(resNo)], [NodeValue::getType()] and [dims()]. *)
Definition Node_getType (M : Module) (Nd : addr) (resNo : nat)
    : option TypeRef :=
  n ← getNode M Nd; resTypes_ n !! resNo.

Definition NodeValue_getType (M : Module) (v : NodeValue) : option TypeRef :=
  Node_getType M (nv_node v) (nv_resNo v).

Definition TypeRef_dims (M : Module) (T : TypeRef) : option (list N) :=
  sizes_ <$> derefType (types_ M) T.

Definition Node_dims (M : Module) (Nd : addr) : option (list N) :=
  T ← Node_getType M Nd 0%nat; TypeRef_dims M T.

Definition NodeValue_dims (M : Module) (v : NodeValue) : option (list N) :=
  T ← NodeValue_getType M v; TypeRef_dims M T.

(** The edge [NodeValue(Nd)] to the first result of [Nd]. *)
Definition NodeValue_of (Nd : addr) : NodeValue := mkNodeValue Nd 0.

(** ** Convolution *)

(** Modelled from the spec: [ShapeNHWC] is declared in the type header,
    which is not part of the sources at hand; it reads a shape of rank four
    as (n, h, w, c). *)
Definition ShapeNHWC (dims : list N) : option (N * N * N * N) :=
  match dims with
  | [n; h; w; c] => Some (n, h, w, c)
  | _ => None
  end.

(** Modelled from the spec: [calculateConvOutputDims] is declared in a
    header that is not part of the sources at hand; by the spec the output
    spatial extent is floor((in + 2*pad - kernel) / stride) + 1.  The integer
    division aborts for a zero stride. *)
Definition calculateConvOutputDims (sx sy filterSize stride pad : N)
    : option (N * N) :=
  if decide (stride = 0) then None
  else Some ((sx + pad * 2 - filterSize) / stride + 1,
             (sy + pad * 2 - filterSize) / stride + 1).

(** The [ConvolutionNode] constructor. *)
Definition ConvolutionNode_new (name : string) (OT : TypeRef)
    (input filter bias : NodeValue) (kernel stride pad depth : N) : Node :=
  mkNode ConvolutionNodeKind name [OT] [input; filter; bias] None
    [kernel; stride; pad; depth] None.

(** [Function::createConv(name, input, depth, kernel, stride, pad)]. *)
Definition createConv (F : nat) (name : string) (input : NodeValue)
    (depth kernel stride pad : N) (M : Module) : option (addr * Module) :=
  dims ← NodeValue_dims M input;
  idim ← ShapeNHWC dims;
  let '(n, h, w, c) := idim in
  if bool_decide (kernel ≤ w ∧ kernel ≤ h) then
    outSz ← calculateConvOutputDims h w kernel stride pad;
    let outDims := [n; outSz.1; outSz.2; depth] in
    let filterDim := [depth; kernel; kernel; c] in
    '(filter, M1) ← createVariable_dims FloatTy filterDim "filter" Private
                      Xavier M;
    '(bias, M2) ← createVariable_dims FloatTy [depth] "bias" Private
                    Broadcast M1;
    let '(OT, M3) := uniqueType_dims FloatTy outDims M2 in
    let '(Nd, M4) := newNode (ConvolutionNode_new name OT input
                                (NodeValue_of filter) (NodeValue_of bias)
                                kernel stride pad depth) M3 in
    addNode F Nd M4
  else None.

(** ** Concatenation *)

(** [sameSameShapeExceptDim], on the pointed-to types. *)
Definition sameSameShapeExceptDim (T1 T2 : Ty) (dim : nat) : bool :=
  if negb (bool_decide (elementType_ T1 = elementType_ T2)) then false
  else
    let D1 := sizes_ T1 in
    let D2 := sizes_ T2 in
    if negb (bool_decide (length D1 = length D2)) then false
    else
      forallb (λ i, bool_decide (i = dim) || bool_decide (D1 !! i = D2 !! i))
        (seq 0 (length D1)).

(** [size_t] addition. *)
Definition size_add (a b : N) : N := (a + b) mod 2 ^ 64.

(** The type of the first result of [Nd], dereferenced. *)
Definition Node_type (M : Module) (Nd : addr) : option Ty :=
  T ← Node_getType M Nd 0%nat; derefType (types_ M) T.

(** The [assert] loop of [createConcat], over [inputs[1..]]. *)
Fixpoint concatCheck (M : Module) (T0 : Ty) (rest : list addr) (dim : nat)
    : option unit :=
  match rest with
  | [] => Some tt
  | Inp :: rest' =>
      Ti ← Node_type M Inp;
      if sameSameShapeExceptDim Ti T0 dim then concatCheck M T0 rest' dim
      else None
  end.

(** The loop [shape[dimension] += I->getType()->dims()[dimension]]. *)
Fixpoint concatSum (M : Module) (inputs : list addr) (dim : nat) (acc : N)
    : option N :=
  match inputs with
  | [] => Some acc
  | Inp :: rest =>
      Ti ← Node_type M Inp;
      d ← sizes_ Ti !! dim;
      concatSum M rest dim (size_add acc d)
  end.

(** The [ConcatNode] constructor. *)
Definition ConcatNode_new (name : string) (NT : TypeRef)
    (ops : list NodeValue) (dimension : nat) : Node :=
  mkNode ConcatNodeKind name [NT] ops None [N.of_nat dimension] None.

(** [Function::createConcat(name, inputs, dimension)]. *)
Definition createConcat (F : nat) (name : string) (inputs : list addr)
    (dimension : nat) (M : Module) : option (addr * Module) :=
  I0 ← inputs !! 0%nat;
  T0ref ← Node_getType M I0 0%nat;
  T0 ← derefType (types_ M) T0ref;
  _ ← concatCheck M T0 (drop 1 inputs) dimension;
  let inDim := sizes_ T0 in
  if decide (dimension < length inDim)%nat then
    total ← concatSum M inputs dimension 0;
    let shape := <[dimension := total]> inDim in
    '(NT, M1) ← uniqueTypeWithNewShape T0ref shape M;
    let ops := NodeValue_of <$> inputs in
    let '(Nd, M2) := newNode (ConcatNode_new name NT ops dimension) M1 in
    addNode F Nd M2
  else None.

(** [Function::createConcat(name, inputs, dimension, outTy)]. *)
Definition createConcat_outTy (F : nat) (name : string) (inputs : list addr)
    (dimension : nat) (outTy : TypeRef) (M : Module)
    : option (addr * Module) :=
  let ops := NodeValue_of <$> inputs in
  let '(Nd, M1) := newNode (ConcatNode_new name outTy ops dimension) M in
  addNode F Nd M1.

(** ** Builders that take the result type from the caller or an operand *)

(** The [FullyConnectedNode] constructor. *)
Definition FullyConnectedNode_new (name : string) (OT : TypeRef)
    (input W B : NodeValue) : Node :=
  mkNode FullyConnectedNodeKind name [OT] [input; W; B] None [] None.

(** [Function::createFullyConnected(name, input, W, B, outTy)]. *)
Definition createFullyConnected_outTy (F : nat) (name : string)
    (input : NodeValue) (W B : addr) (outTy : TypeRef) (M : Module)
    : option (addr * Module) :=
  odims ← TypeRef_dims M outTy;
  if bool_decide (length odims = 2%nat) then
    o0 ← odims !! 0%nat;
    idims ← NodeValue_dims M input;
    i0 ← idims !! 0%nat;
    if bool_decide (o0 = i0) then
      let '(Nd, M1) := newNode (FullyConnectedNode_new name outTy input
                                  (NodeValue_of W) (NodeValue_of B)) M in
      addNode F Nd M1
    else None
  else None.

(** The [BatchedAddNode] constructor. *)
Definition BatchedAddNode_new (name : string) (T : TypeRef)
    (batch sample : NodeValue) : Node :=
  mkNode BatchedAddNodeKind name [T] [batch; sample] None [] None.

(** [Function::createBatchedAdd(name, outTy, batch, sample)]. *)
Definition createBatchedAdd_outTy (F : nat) (name : string) (outTy : TypeRef)
    (batch sample : NodeValue) (M : Module) : option (addr * Module) :=
  let '(Nd, M1) := newNode (BatchedAddNode_new name outTy batch sample) M in
  addNode F Nd M1.

(** [Function::createBatchedAdd(name, batch, sample)]. *)
Definition createBatchedAdd (F : nat) (name : string)
    (batch sample : NodeValue) (M : Module) : option (addr * Module) :=
  T ← NodeValue_getType M batch;
  let '(Nd, M1) := newNode (BatchedAddNode_new name T batch sample) M in
  addNode F Nd M1.

(** The node classes [ARITHMETIC_FUN_DEF] is instantiated with. *)
Inductive ArithKind := Add | Mul | Sub | Div | Max | Min | CmpLTE.

Definition ArithKind_kind (k : ArithKind) : Kind :=
  match k with
  | Add => AddNodeKind | Mul => MulNodeKind | Sub => SubNodeKind
  | Div => DivNodeKind | Max => MaxNodeKind | Min => MinNodeKind
  | CmpLTE => CmpLTENodeKind
  end.

(** The constructor [NODE_NAME_##Node(name, T, LHS, RHS)]. *)
Definition ArithNode_new (k : ArithKind) (name : string) (T : TypeRef)
    (LHS RHS : NodeValue) : Node :=
  mkNode (ArithKind_kind k) name [T] [LHS; RHS] None [] None.

(** [ARITHMETIC_FUN_DEF], second function:
    [create##NODE_NAME_(name, T, LHS, RHS)]. *)
Definition createArith_T (k : ArithKind) (F : nat) (name : string)
    (T : TypeRef) (LHS RHS : NodeValue) (M : Module)
    : option (addr * Module) :=
  ldims ← NodeValue_dims M LHS;
  rdims ← NodeValue_dims M RHS;
  if bool_decide (ldims = rdims) then
    let '(Nd, M1) := newNode (ArithNode_new k name T LHS RHS) M in
    addNode F Nd M1
  else None.

(** [ARITHMETIC_FUN_DEF], first function:
    [create##NODE_NAME_(name, LHS, RHS)]. *)
Definition createArith (k : ArithKind) (F : nat) (name : string)
    (LHS RHS : NodeValue) (M : Module) : option (addr * Module) :=
  T ← NodeValue_getType M LHS;
  createArith_T k F name T LHS RHS M.

Definition createAdd := createArith Add.
Definition createMul := createArith Mul.
Definition createSub := createArith Sub.
Definition createDiv := createArith Div.
Definition createMax := createArith Max.
Definition createMin := createArith Min.
Definition createCmpLTE := createArith CmpLTE.

(** ** Erasing *)

(** [std::find(l.begin(), l.end(), x)]: the position of the first
    occurrence, [None] for [end()]. *)
Fixpoint std_find (l : list addr) (x : addr) : option nat :=
  match l with
  | [] => None
  | y :: rest => if decide (y = x) then Some 0%nat else S <$> std_find rest x
  end.

(** A [VariablesList::iterator]: an iterator of the Module's own list
    [vars_], or an iterator of a copy of the list, which is a list object of
    its own and carries its elements; the position is [None] for [end()]. *)
Inductive iterator :=
  | VarsIt (pos : option nat)
  | CopyIt (elems : list addr) (pos : option nat).

(** [Module::eraseVariable(VariablesList::iterator I)].  An iterator of
    another list is not [vars_.end()], so the early return is not taken for
    it; [*I] is undefined at the end of that list, and so is [vars_.erase(I)]
    after the object has been deleted. *)
Definition eraseVariable_it (I : iterator) (M : Module) : option Module :=
  match I with
  | VarsIt None => Some M
  | VarsIt (Some pos) =>
      V ← vars_ M !! pos;
      M1 ← deleteNode V M;
      Some (set_vars (delete pos (vars_ M1)) M1)
  | CopyIt elems pos =>
      p ← pos;
      V ← elems !! p;
      _ ← deleteNode V M;
      None
  end.

(** [Module::eraseVariable(Variable *N)].  [auto vars = getVars();] declares
    a list object of its own, initialised from the Variables of the Module
    ([auto] does not deduce a reference, whatever [getVars] returns); [I] is
    an iterator of this copy. *)
Definition eraseVariable (V : addr) (M : Module) : option Module :=
  let vars := vars_ M in
  let I := CopyIt vars (std_find vars V) in
  eraseVariable_it I M.

(** [Function::eraseNode(NodesList::iterator I)], [I] a valid position. *)
Definition eraseNode_it (F : nat) (pos : nat) (M : Module) : option Module :=
  f ← functions_ M !! F;
  Nd ← nodes_ f !! pos;
  M1 ← deleteNode Nd M;
  Some (set_functions
          (<[F := mkFunction (fname_ f) (delete pos (nodes_ f))]> (functions_ M1))
          M1).

(** [Function::eraseNode(Node *N)]. *)
Definition eraseNode (F : nat) (Nd : addr) (M : Module) : option Module :=
  match isaVariable M Nd with
  | None => None
  | Some true => eraseVariable Nd M
  | Some false =>
      f ← functions_ M !! F;
      match std_find (nodes_ f) Nd with
      | None => None
      | Some pos => eraseNode_it F pos M
      end
  end.

(** ** Functions of a Module *)

(** [Module::getFunction]: the first Function of that name. *)
Fixpoint getFunction_in (fs : list Function) (name : string) : option nat :=
  match fs with
  | [] => None
  | f :: rest =>
      if decide (fname_ f = name) then Some 0%nat
      else S <$> getFunction_in rest name
  end.

Definition getFunction (M : Module) (name : string) : option nat :=
  getFunction_in (functions_ M) name.

Definition hasFunction (M : Module) (name : string) : bool :=
  bool_decide (is_Some (getFunction M name)).

(** [Module::createFunction]. *)
Definition createFunction (name : string) (M : Module)
    : option (nat * Module) :=
  if hasFunction M name then None
  else Some (length (functions_ M),
             set_functions (functions_ M ++ [mkFunction name []]) M).

(** ** Cloning *)

(** Modelled from the spec: [Node::clone] is generated with the node
    classes and not part of the sources at hand; by the spec the clone is a
    distinct instance with equal attributes.  The instance is the object
    [newNode] allocates for the value returned here. *)
Definition Node_clone (n : Node) : Node := n.

(** The first loop of [Function::clone]: copy every node of the Function
    into [newF] and record the pair in [currToNew]. *)
Fixpoint cloneNodes (newF : nat) (nodes : list addr)
    (currToNew : gmap addr addr) (M : Module)
    : option (gmap addr addr * Module) :=
  match nodes with
  | [] => Some (currToNew, M)
  | Nd :: rest =>
      n ← getNode M Nd;
      let '(copy, M1) := newNode (Node_clone n) M in
      '(_, M2) ← addNode newF copy M1;
      cloneNodes newF rest (<[Nd := copy]> currToNew) M2
  end.

(** The body of the inner loop: the new value of one input, or the failed
    [assert]. *)
Definition fixInput (M : Module) (currToNew : gmap addr addr)
    (input : NodeValue) : option NodeValue :=
  match currToNew !! nv_node input with
  | None =>
      match isaVariable M (nv_node input) with
      | Some true => Some input
      | _ => None
      end
  | Some it_second => Some (mkNodeValue it_second (nv_resNo input))
  end.

Definition setInputs (ins : list NodeValue) (n : Node) : Node :=
  mkNode (kind_ n) (name_ n) (resTypes_ n) ins (predicate_ n) (attrs_ n)
    (varInfo_ n).

(** The inner loop, over the inputs of one node of the new Function. *)
Definition fixNode (currToNew : gmap addr addr) (Nd : addr) (M : Module)
    : option Module :=
  n ← getNode M Nd;
  ins ← mapM (fixInput M currToNew) (inputs_ n);
  storeNode Nd (setInputs ins n) M.

(** The second loop of [Function::clone]. *)
Fixpoint fixNodes (currToNew : gmap addr addr) (nodes : list addr)
    (M : Module) : option Module :=
  match nodes with
  | [] => Some M
  | Nd :: rest => M1 ← fixNode currToNew Nd M; fixNodes currToNew rest M1
  end.

(** [Function::clone(newName, map)], called on the Function [F]; [map] is
    [None] for a null pointer and otherwise the external map, returned
    filled. *)
Definition clone (F : nat) (newName : string) (map : option (gmap addr addr))
    (M : Module) : option (nat * option (gmap addr addr) * Module) :=
  '(newF, M1) ← createFunction newName M;
  f ← functions_ M1 !! F;
  '(currToNew, M2) ← cloneNodes newF (nodes_ f) ∅ M1;
  fnew ← functions_ M2 !! newF;
  M3 ← fixNodes currToNew (nodes_ fnew) M2;
  map' ← match map with
         | None => Some None
         | Some m => if decide (m = ∅) then Some (Some (m ∪ currToNew))
                     else None
         end;
  fnew' ← functions_ M3 !! newF;
  f' ← functions_ M3 !! F;
  if decide (length (nodes_ fnew') = length (nodes_ f')) then
    Some (newF, map', M3)
  else None.

(** ** Verification *)

(** The outcome of [verify]: success, or the violation that ended it.
    [NameConflict] carries the two definitions the source prints;
    [BadPointer] is a node list entry that is not a live object. *)
Inductive VerifyResult :=
  | VerifyOk
  | NameConflict (current previous : addr)
  | DanglingInput (Nd : addr) (idx : nat)
  | NodeInvalid (Nd : addr)
  | BadPointer (Nd : addr).

#[global] Instance VerifyResult_eq_dec : EqDecision VerifyResult.
Proof. solve_decision. Defined.

(** One of the two name loops of [Function::verify], over the list [l],
    threading [NameToNode]. *)
Fixpoint checkNames (M : Module) (l : list addr)
    (NameToNode : gmap string addr) : VerifyResult + gmap string addr :=
  match l with
  | [] => inr NameToNode
  | V :: rest =>
      match getNode M V with
      | None => inl (BadPointer V)
      | Some n =>
          match NameToNode !! name_ n with
          | None => checkNames M rest (<[name_ n := V]> NameToNode)
          | Some previous => inl (NameConflict V previous)
          end
      end
  end.

(** The condition asserted for one input. *)
Definition inputResolves (nodes vars : list addr) (input : NodeValue)
    : bool :=
  bool_decide (is_Some (std_find nodes (nv_node input)))
  || bool_decide (is_Some (std_find vars (nv_node input))).

(** The loop over [idx < N->getNumInputs()]. *)
Fixpoint checkNodeInputs (nodes vars : list addr) (Nd : addr) (idx : nat)
    (inputs : list NodeValue) : VerifyResult :=
  match inputs with
  | [] => VerifyOk
  | input :: rest =>
      if inputResolves nodes vars input
      then checkNodeInputs nodes vars Nd (S idx) rest
      else DanglingInput Nd idx
  end.

(** The loop over the nodes that checks their inputs. *)
Fixpoint checkEdges (M : Module) (nodes vars : list addr) (l : list addr)
    : VerifyResult :=
  match l with
  | [] => VerifyOk
  | Nd :: rest =>
      match getNode M Nd with
      | None => BadPointer Nd
      | Some n =>
          match checkNodeInputs nodes vars Nd 0 (inputs_ n) with
          | VerifyOk => checkEdges M nodes vars rest
          | e => e
          end
      end
  end.

(** The last loop: [N->verify()] for every node.  [Node::verify] belongs to
    the generated node classes; its verdict is the parameter [nodeVerify]. *)
Fixpoint checkLocal (nodeVerify : Module → addr → bool) (M : Module)
    (l : list addr) : VerifyResult :=
  match l with
  | [] => VerifyOk
  | Nd :: rest =>
      if nodeVerify M Nd then checkLocal nodeVerify M rest
      else NodeInvalid Nd
  end.

(** [Function::verify]. *)
Definition Function_verify (nodeVerify : Module → addr → bool) (M : Module)
    (f : Function) : VerifyResult :=
  match checkNames M (vars_ M) ∅ with
  | inl e => e
  | inr NameToNode =>
      match checkNames M (nodes_ f) NameToNode with
      | inl e => e
      | inr _ =>
          let vars := vars_ M in
          match checkEdges M (nodes_ f) vars (nodes_ f) with
          | VerifyOk => checkLocal nodeVerify M (nodes_ f)
          | e => e
          end
      end
  end.

(** The loop of [Module::verify]. *)
Fixpoint verifyFunctions (nodeVerify : Module → addr → bool) (M : Module)
    (fs : list Function) : VerifyResult :=
  match fs with
  | [] => VerifyOk
  | f :: rest =>
      match Function_verify nodeVerify M f with
      | VerifyOk => verifyFunctions nodeVerify M rest
      | e => e
      end
  end.

(** [Module::verify]. *)
Definition Module_verify (nodeVerify : Module → addr → bool) (M : Module)
    : VerifyResult :=
  verifyFunctions nodeVerify M (functions_ M).

(** ** Auxiliary notions for the statements *)

(** Every reference into the first pool denotes the same type in the
    second. *)
Definition pool_extends (ts ts' : list Ty) : Prop :=
  ∀ i T, poolGet ts i = Some T → poolGet ts' i = Some T.

(** Agreement of two types on element kind, rank and every dimension but
    [dim]; the size of a type along an axis, and the sum of those sizes. *)
Definition agreeExcept (T1 T2 : Ty) (dim : nat) : Prop :=
  elementType_ T1 = elementType_ T2
  ∧ length (sizes_ T1) = length (sizes_ T2)
  ∧ ∀ i, i ≠ dim → sizes_ T1 !! i = sizes_ T2 !! i.

Definition axisSize (dim : nat) (T : Ty) : N := default 0 (sizes_ T !! dim).

Definition axisTotal (dim : nat) (Ts : list Ty) : N :=
  foldr N.add 0 (axisSize dim <$> Ts).

(** For [verify]: the names of the listed objects (in list order), the
    listed objects being live, and an edge resolving to a node of the
    Function or a Variable of the Module. *)
Definition namesOf (M : Module) (l : list addr) : list (option string) :=
  (λ a, name_ <$> getNode M a) <$> l.

Definition allLive (M : Module) (l : list addr) : Prop :=
  Forall (λ a, is_Some (getNode M a)) l.

Definition resolves (nodes vars : list addr) (input : NodeValue) : Prop :=
  nv_node input ∈ nodes ∨ nv_node input ∈ vars.

Definition inputsResolve (M : Module) (f : Function) : Prop :=
  ∀ Nd n input,
    Nd ∈ nodes_ f → getNode M Nd = Some n → input ∈ inputs_ n →
    resolves (nodes_ f) (vars_ M) input.

Definition predicatesResolve (M : Module) (f : Function) : Prop :=
  ∀ Nd n p,
    Nd ∈ nodes_ f → getNode M Nd = Some n → predicate_ n = Some p →
    resolves (nodes_ f) (vars_ M) p.

(** For [clone]: the map the first loop builds for the node list [l] when
    the copies are allocated from address [h] on; the value the second loop
    gives an input; a Function whose nodes are live operator nodes; a Module
    whose Variables are live Variable objects. *)
Fixpoint cloneMap (l : list addr) (h : nat) (m : gmap addr addr)
    : gmap addr addr :=
  match l with
  | [] => m
  | a :: rest => cloneMap rest (S h) (<[a := h]> m)
  end.

Definition fixedInput (currToNew : gmap addr addr) (input : NodeValue)
    : NodeValue :=
  match currToNew !! nv_node input with
  | Some c => mkNodeValue c (nv_resNo input)
  | None => input
  end.

Definition operatorNodes (M : Module) (f : Function) : Prop :=
  ∀ Nd, Nd ∈ nodes_ f →
        ∃ n, getNode M Nd = Some n ∧ kind_ n ≠ VariableNodeKind.

Definition variablesLive (M : Module) : Prop :=
  ∀ V, V ∈ vars_ M → isaVariable M V = Some true.

(** ** Example states *)

(** A pool holding float[2,3] (stored first) and int8[4]. *)
Definition pool_example : Module :=
  mkModule [] [] [Type_quant Int8QTy [4] 2%Z 1%Z; Type_plain FloatTy [2; 3]]
    [] 0.

(** A Module whose name counter stands at 105. *)
Definition name_example : Module := mkModule [] [] [] [] 105.

(** A Module with one Function, "main", and one Variable of type
    float[1,32,32,3]. *)
Definition conv_example : Module :=
  mkModule
    [Some (Variable_new "input__0" (PoolRef 0) Public TrainNone)]
    [mkFunction "main" []]
    [Type_plain FloatTy [1; 32; 32; 3]]
    [0%nat]
    1.

(** A Module with one Function and two Variables, of types float[4,10]
    and float[4,6]. *)
Definition concat_example : Module :=
  mkModule
    [Some (Variable_new "A__0" (PoolRef 0) Public TrainNone);
     Some (Variable_new "B__1" (PoolRef 1) Public TrainNone)]
    [mkFunction "main" []]
    [Type_plain FloatTy [4; 6]; Type_plain FloatTy [4; 10]]
    [0; 1]%nat
    2.


(** A Module with a Variable "x" and a Function "main" holding one Add
    node, whose two inputs are the Variable and whose predicate edge points
    at an address that is neither a node of the Function nor a Variable. *)
Definition verify_example : Module :=
  mkModule
    [Some (Variable_new "x" (PoolRef 0) Public TrainNone);
     Some (mkNode AddNodeKind "add" [PoolRef 0]
             [mkNodeValue 0 0; mkNodeValue 0 0] (Some (mkNodeValue 5 0))
             [] None)]
    [mkFunction "main" [1%nat]]
    [Type_plain FloatTy [2]]
    [0%nat]
    2.

(** The same Module with the predicate edge pointing at the Variable. *)
Definition closed_example : Module :=
  mkModule
    [Some (Variable_new "x" (PoolRef 0) Public TrainNone);
     Some (mkNode AddNodeKind "add" [PoolRef 0]
             [mkNodeValue 0 0; mkNodeValue 0 0] (Some (mkNodeValue 0 0))
             [] None)]
    [mkFunction "main" [1%nat]]
    [Type_plain FloatTy [2]]
    [0%nat]
    2.

(** The same Module with the second input of the Add node pointing at an
    address that is neither a node of the Function nor a Variable. *)
Definition dangling_example : Module :=
  mkModule
    [Some (Variable_new "x" (PoolRef 0) Public TrainNone);
     Some (mkNode AddNodeKind "add" [PoolRef 0]
             [mkNodeValue 0 0; mkNodeValue 7 0] None [] None)]
    [mkFunction "main" [1%nat]]
    [Type_plain FloatTy [2]]
    [0%nat]
    2.

(** A Module without Functions whose two Variables are both named "x". *)
Definition dup_example : Module :=
  mkModule
    [Some (Variable_new "x" (PoolRef 0) Public TrainNone);
     Some (Variable_new "x" (PoolRef 0) Private TrainNone)]
    []
    [Type_plain FloatTy [2]]
    [0; 1]%nat
    2.

(** A Module with a Variable "x" and a Function "main" computing
    mul(add(x, x), x). *)
Definition clone_example : Module :=
  mkModule
    [Some (Variable_new "x" (PoolRef 0) Public TrainNone);
     Some (mkNode AddNodeKind "add" [PoolRef 0]
             [mkNodeValue 0 0; mkNodeValue 0 0] None [] None);
     Some (mkNode MulNodeKind "mul" [PoolRef 0]
             [mkNodeValue 1 0; mkNodeValue 0 0] None [] None)]
    [mkFunction "main" [1; 2]%nat]
    [Type_plain FloatTy [2]]
    [0%nat]
    3.

(** * Further operations

    The remaining operations of the Module and further node builders.  The
    [Kind] enumerators of the node classes built here come from the generated
    node list, which is not part of the sources at hand: each builder takes
    the kind tag of its node class as its first argument.  Where the source
    writes [input->...] on a [NodeValue] the accessor of the producer node is
    meant, which reads the producer's first result; [input. ...] reads the
    result the edge names. *)

(** ** Lookup of Variables *)

(** The loop of [Module::getVariableByName]: the first Variable of that
    name, [Some None] for the null pointer; reading the name of a Variable
    that is not live aborts. *)
Fixpoint getVariableByName_in (M : Module) (vars : list addr) (name : string)
    : option (option addr) :=
  match vars with
  | [] => Some None
  | V :: rest =>
      n ← getNode M V;
      if decide (name_ n = name) then Some (Some V)
      else getVariableByName_in M rest name
  end.

(** [Module::getVariableByName]. *)
Definition getVariableByName (M : Module) (name : string)
    : option (option addr) :=
  getVariableByName_in M (vars_ M) name.

(** ** Destructors *)

(** The loop of [Function::~Function].  The iterator is advanced before the
    current element is erased, so the loop passes [eraseNode] the elements of
    the node list as it was on entry, in order. *)
Fixpoint eraseNodes (F : nat) (l : list addr) (M : Module) : option Module :=
  match l with
  | [] => Some M
  | cur :: rest => M1 ← eraseNode F cur M; eraseNodes F rest M1
  end.

(** [Function::~Function], for the Function [F]. *)
Definition Function_destroy (F : nat) (M : Module) : option Module :=
  f ← functions_ M !! F;
  eraseNodes F (nodes_ f) M.

(** The second loop of [Module::~Module], over the Variables. *)
Fixpoint eraseVariables (l : list addr) (M : Module) : option Module :=
  match l with
  | [] => Some M
  | cur :: rest => M1 ← eraseVariable cur M; eraseVariables rest M1
  end.

(** The first loop of [Module::~Module]: [delete F] for every Function. *)
Fixpoint deleteFunctions (Fs : list nat) (M : Module) : option Module :=
  match Fs with
  | [] => Some M
  | F :: rest => M1 ← Function_destroy F M; deleteFunctions rest M1
  end.

(** [Module::~Module]. *)
Definition Module_destroy (M : Module) : option Module :=
  M1 ← deleteFunctions (seq 0 (length (functions_ M))) M;
  eraseVariables (vars_ M1) M1.

(** ** Further builders *)

(** [Function::createFullyConnected(name, input, W, B)], with [W] and [B]
    Variables. *)
Definition createFullyConnected (F : nat) (name : string) (input : NodeValue)
    (W B : addr) (M : Module) : option (addr * Module) :=
  T ← NodeValue_getType M input;
  idims ← NodeValue_dims M input;
  i0 ← idims !! 0%nat;
  bdims ← Node_dims M B;
  b0 ← bdims !! 0%nat;
  '(OT, M1) ← uniqueTypeWithNewShape T [i0; b0] M;
  let '(Nd, M2) := newNode (FullyConnectedNode_new name OT input
                              (NodeValue_of W) (NodeValue_of B)) M1 in
  addNode F Nd M2.

(** The loop of [createTranspose]: [shape[i] = dims[shuffle[i]]] for every
    [i] below the rank. *)
Definition transposeShape (dims : list N) (shuffle : list nat)
    : option (list N) :=
  mapM (λ i, s ← shuffle !! i; dims !! s) (seq 0 (length dims)).

(** The [TransposeNode] constructor. *)
Definition TransposeNode_new (TransposeNodeKind : Kind) (name : string)
    (NT : TypeRef) (input : NodeValue) (shuffle : list nat) : Node :=
  mkNode TransposeNodeKind name [NT] [input] None (N.of_nat <$> shuffle) None.

(** [Function::createTranspose]. *)
Definition createTranspose (TransposeNodeKind : Kind) (F : nat)
    (name : string) (input : NodeValue) (shuffle : list nat) (M : Module)
    : option (addr * Module) :=
  dims ← NodeValue_dims M input;
  shape ← transposeShape dims shuffle;
  T ← NodeValue_getType M input;
  '(NT, M1) ← uniqueTypeWithNewShape T shape M;
  let '(Nd, M2) := newNode (TransposeNode_new TransposeNodeKind name NT input
                              shuffle) M1 in
  addNode F Nd M2.

(** The body of the loop of [createSlice] for the axis [i]: the asserts and
    the extent pushed onto [shape]. *)
Definition sliceAxis (dims begin end_ : list N) (i : nat) : option N :=
  begin_i ← begin !! i;
  end_i ← end_ !! i;
  dim_i ← dims !! i;
  if bool_decide (0 ≤ begin_i) && bool_decide (0 < end_i)
     && bool_decide (begin_i < dim_i) && bool_decide (end_i ≤ dim_i)
     && bool_decide (begin_i < end_i)
  then Some (end_i - begin_i)
  else None.

(** The [SliceNode] constructor. *)
Definition SliceNode_new (SliceNodeKind : Kind) (name : string)
    (NT : TypeRef) (input : NodeValue) (begin_v : list N) : Node :=
  mkNode SliceNodeKind name [NT] [input] None begin_v None.

(** [Function::createSlice]. *)
Definition createSlice (SliceNodeKind : Kind) (F : nat) (name : string)
    (input : NodeValue) (begin end_ : list N) (M : Module)
    : option (addr * Module) :=
  dims ← NodeValue_dims M input;
  if bool_decide (length begin = length end_) then
    if bool_decide (length begin = length dims) then
      shape ← mapM (sliceAxis dims begin end_) (seq 0 (length dims));
      T ← NodeValue_getType M input;
      '(NT, M1) ← uniqueTypeWithNewShape T shape M;
      let '(Nd, M2) := newNode (SliceNode_new SliceNodeKind name NT input
                                  begin) M1 in
      addNode F Nd M2
    else None
  else None.

(** The [MatMulNode] constructor. *)
Definition MatMulNode_new (MatMulNodeKind : Kind) (name : string)
    (OT : TypeRef) (lhs rhs : NodeValue) : Node :=
  mkNode MatMulNodeKind name [OT] [lhs; rhs] None [] None.

(** [Function::createMatMul(name, outTy, lhs, rhs)]. *)
Definition createMatMul_outTy (MatMulNodeKind : Kind) (F : nat)
    (name : string) (outTy : TypeRef) (lhs rhs : NodeValue) (M : Module)
    : option (addr * Module) :=
  t ← derefType (types_ M) outTy;
  let '(OT, M1) := uniqueType t M in
  let '(Nd, M2) := newNode (MatMulNode_new MatMulNodeKind name OT lhs rhs)
                     M1 in
  addNode F Nd M2.

(** [Function::createMatMul(name, lhs, rhs)]. *)
Definition createMatMul (MatMulNodeKind : Kind) (F : nat) (name : string)
    (lhs rhs : NodeValue) (M : Module) : option (addr * Module) :=
  LT ← NodeValue_getType M lhs;
  RT ← NodeValue_getType M rhs;
  lt ← derefType (types_ M) LT;
  rt ← derefType (types_ M) RT;
  let LDims := sizes_ lt in
  let RDims := sizes_ rt in
  if bool_decide (elementType_ lt = elementType_ rt) then
    l0 ← LDims !! 0%nat;
    r1 ← RDims !! 1%nat;
    '(ty, M1) ← uniqueTypeWithNewShape LT [l0; r1] M;
    createMatMul_outTy MatMulNodeKind F name ty lhs rhs M1
  else None.

(** The [BatchedReduceAddNode] constructor. *)
Definition BatchedReduceAddNode_new (BatchedReduceAddNodeKind : Kind)
    (name : string) (T : TypeRef) (batch : NodeValue) : Node :=
  mkNode BatchedReduceAddNodeKind name [T] [batch] None [] None.

(** [Function::createBatchedReduceAdd]; [drop_front] asserts that there is
    a first dimension to drop. *)
Definition createBatchedReduceAdd (BatchedReduceAddNodeKind : Kind) (F : nat)
    (name : string) (batch : NodeValue) (M : Module)
    : option (addr * Module) :=
  BT ← NodeValue_getType M batch;
  bt ← derefType (types_ M) BT;
  match sizes_ bt with
  | [] => None
  | _ :: dropped =>
      let RT := Type_plain (elementType_ bt) dropped in
      let '(T, M1) := uniqueType RT M in
      let '(Nd, M2) := newNode (BatchedReduceAddNode_new
                                  BatchedReduceAddNodeKind name T batch) M1 in
      addNode F Nd M2
  end.

(** The [TopKNode] constructor: two results, the values and the indices. *)
Definition TopKNode_new (TopKNodeKind : Kind) (name : string)
    (valuesTy indicesTy : TypeRef) (input : NodeValue) (k : N) : Node :=
  mkNode TopKNodeKind name [valuesTy; indicesTy] [input] None [k] None.

(** [Function::createTopK].  The two [uniqueType] calls are arguments of the
    constructor call, so their order is not fixed by the language;
    [valuesFirst] tells which one is evaluated first.  The element kind of
    the input is read once, before both: interning a type changes neither
    the node nor the types already in the pool. *)
Definition createTopK (TopKNodeKind : Kind) (valuesFirst : bool) (F : nat)
    (name : string) (input : NodeValue) (k : N) (M : Module)
    : option (addr * Module) :=
  inDims ← NodeValue_dims M input;
  back ← last inDims;
  if bool_decide (k ≤ back) then
    let outDims := <[pred (length inDims) := k]> inDims in
    t ← Node_type M (nv_node input);
    let '(valuesTy, indicesTy, M2) :=
      if valuesFirst then
        let '(v, M1) := uniqueType_dims (elementType_ t) outDims M in
        let '(i, M2) := uniqueType_dims IndexTy outDims M1 in
        (v, i, M2)
      else
        let '(i, M1) := uniqueType_dims IndexTy outDims M in
        let '(v, M2) := uniqueType_dims (elementType_ t) outDims M1 in
        (v, i, M2) in
    let '(Nd, M3) := newNode (TopKNode_new TopKNodeKind name valuesTy
                                indicesTy input k) M2 in
    addNode F Nd M3
  else None.

(** The [GatherNode] constructor. *)
Definition GatherNode_new (GatherNodeKind : Kind) (name : string)
    (T : TypeRef) (data indices : NodeValue) : Node :=
  mkNode GatherNodeKind name [T] [data; indices] None [] None.

(** [Function::createGather]. *)
Definition createGather (GatherNodeKind : Kind) (F : nat) (name : string)
    (data indices : NodeValue) (M : Module) : option (addr * Module) :=
  dDims ← NodeValue_dims M data;
  iDims ← NodeValue_dims M indices;
  if bool_decide (0 < length dDims)%nat then
    let outDims := (iDims ++ drop 1 dDims)%list in
    T ← Node_getType M (nv_node data) 0%nat;
    '(NT, M1) ← uniqueTypeWithNewShape T outDims M;
    let '(Nd, M2) := newNode (GatherNode_new GatherNodeKind name NT data
                                indices) M1 in
    addNode F Nd M2
  else None.

(** [NodeValue::getElementType()]. *)
Definition NodeValue_getElementType (M : Module) (v : NodeValue)
    : option ElemKind :=
  T ← NodeValue_getType M v; elementType_ <$> derefType (types_ M) T.

(** The [QuantizeNode] and [DequantizeNode] constructors. *)
Definition QuantizeNode_new (QuantizeNodeKind : Kind) (name : string)
    (outTy : TypeRef) (input : NodeValue) : Node :=
  mkNode QuantizeNodeKind name [outTy] [input] None [] None.

Definition DequantizeNode_new (DequantizeNodeKind : Kind) (name : string)
    (outTy : TypeRef) (input : NodeValue) : Node :=
  mkNode DequantizeNodeKind name [outTy] [input] None [] None.

(** [Function::createQuantize]. *)
Definition createQuantize (QuantizeNodeKind : Kind) (F : nat) (name : string)
    (input : NodeValue) (outTy : TypeRef) (M : Module)
    : option (addr * Module) :=
  ek ← NodeValue_getElementType M input;
  if bool_decide (ek = FloatTy) then
    ot ← derefType (types_ M) outTy;
    if bool_decide (elementType_ ot = Int8QTy) then
      idims ← Node_dims M (nv_node input);
      if bool_decide (idims = sizes_ ot) then
        let '(Nd, M1) := newNode (QuantizeNode_new QuantizeNodeKind name outTy
                                    input) M in
        addNode F Nd M1
      else None
    else None
  else None.

(** [Function::createDequantize]. *)
Definition createDequantize (DequantizeNodeKind : Kind) (F : nat)
    (name : string) (input : NodeValue) (M : Module)
    : option (addr * Module) :=
  ek ← NodeValue_getElementType M input;
  if bool_decide (ek = Int8QTy) then
    idims ← NodeValue_dims M input;
    let '(outTy, M1) := uniqueType (Type_plain FloatTy idims) M in
    let '(Nd, M2) := newNode (DequantizeNode_new DequantizeNodeKind name outTy
                                input) M1 in
    addNode F Nd M2
  else None.

(** The [PoolMaxNode] and [PoolAvgNode] constructors. *)
Definition PoolMaxNode_new (PoolMaxNodeKind : Kind) (name : string)
    (OT : TypeRef) (input : NodeValue) (kernel stride pad : N) : Node :=
  mkNode PoolMaxNodeKind name [OT] [input] None [kernel; stride; pad] None.

Definition PoolAvgNode_new (PoolAvgNodeKind : Kind) (name : string)
    (OT : TypeRef) (input : NodeValue) (kernel stride pad : N) : Node :=
  mkNode PoolAvgNodeKind name [OT] [input] None [kernel; stride; pad] None.

(** [Function::createPoolMax]. *)
Definition createPoolMax (PoolMaxNodeKind : Kind) (F : nat) (name : string)
    (input : NodeValue) (kernel stride pad : N) (M : Module)
    : option (addr * Module) :=
  dims ← NodeValue_dims M input;
  idim ← ShapeNHWC dims;
  let '(n, h, w, c) := idim in
  if bool_decide (kernel ≤ w ∧ kernel ≤ h) then
    outSz ← calculateConvOutputDims h w kernel stride pad;
    T ← Node_getType M (nv_node input) 0%nat;
    '(OT, M1) ← uniqueTypeWithNewShape T [n; outSz.1; outSz.2; c] M;
    let '(Nd, M2) := newNode (PoolMaxNode_new PoolMaxNodeKind name OT input
                                kernel stride pad) M1 in
    addNode F Nd M2
  else None.

(** [Function::createPoolAvg]. *)
Definition createPoolAvg (PoolAvgNodeKind : Kind) (F : nat) (name : string)
    (input : NodeValue) (kernel stride pad : N) (M : Module)
    : option (addr * Module) :=
  dims ← NodeValue_dims M input;
  idim ← ShapeNHWC dims;
  let '(n, h, w, c) := idim in
  if bool_decide (kernel ≤ w ∧ kernel ≤ h) then
    outSz ← calculateConvOutputDims h w kernel stride pad;
    T ← Node_getType M (nv_node input) 0%nat;
    '(OT, M1) ← uniqueTypeWithNewShape T [n; outSz.1; outSz.2; c] M;
    let '(Nd, M2) := newNode (PoolAvgNode_new PoolAvgNodeKind name OT input
                                kernel stride pad) M1 in
    addNode F Nd M2
  else None.

(** ** Auxiliary notions for the further properties *)

(** The names of the Variables are names the counter handed out: each ends
    in the delimiter and the decimal form of a count below the counter. *)
Definition varNamesIssued (M : Module) : Prop :=
  ∀ V, V ∈ vars_ M →
       ∃ n p k, getNode M V = Some n
         ∧ name_ n = p ++ "__" ++ to_string k ∧ k < uniqueIdx_ M.

(** The condition [createSlice] asserts, axis by axis. *)
Definition sliceInRange (dims begin end_ : list N) : Prop :=
  length begin = length end_ ∧ length begin = length dims
  ∧ ∀ i b e d, begin !! i = Some b → end_ !! i = Some e →
               dims !! i = Some d → b < e ∧ e ≤ d.

(** Ownership: every Function lists each of its nodes once, its nodes are
    live operator nodes, and no node is listed by two Functions. *)
Definition functionsOwn (M : Module) : Prop :=
  (∀ F f, functions_ M !! F = Some f → NoDup (nodes_ f) ∧ operatorNodes M f)
  ∧ (∀ F G f g a, F ≠ G → functions_ M !! F = Some f →
       functions_ M !! G = Some g → a ∈ nodes_ f → a ∉ nodes_ g).

(** A Module with one Function and one Variable of the quantized type
    int8[2,3]. *)
Definition quant_example : Module :=
  mkModule
    [Some (Variable_new "q__0" (PoolRef 0) Public TrainNone)]
    [mkFunction "main" []]
    [Type_quant Int8QTy [2; 3] 4%Z 1%Z]
    [0%nat]
    1.

(** A Module with two Functions and nothing else. *)
Definition two_functions_example : Module :=
  mkModule [] [mkFunction "main" []; mkFunction "aux" []] [] [] 0.

(** A Module without Variables whose Function "main" holds two operator
    nodes, the second reading the first. *)
Definition novars_example : Module :=
  mkModule
    [Some (mkNode AddNodeKind "a" [PoolRef 0] [] None [] None);
     Some (mkNode MulNodeKind "b" [PoolRef 0]
             [mkNodeValue 0 0; mkNodeValue 0 0] None [] None)]
    [mkFunction "main" [0; 1]%nat]
    [Type_plain FloatTy [2]]
    []
    2.

(** * Properties *)

(** ** The type pool *)

Section TypePool.
Implicit Types (T : Ty) (types : list Ty).

Lemma findType_Some T types pos :
  findType T types = Some pos → types !! pos = Some T.
Proof.
  revert pos. induction types as [|tp rest IH]; intros pos; simpl; [done|].
  unfold isEqual. case_bool_decide as Heq.
  - intros [= <-]. by rewrite Heq.
  - destruct (findType T rest) as [p|]; simpl; [|done].
    intros [= <-]. simpl. by apply IH.
Qed.

Lemma findType_None T types : findType T types = None → T ∉ types.
Proof.
  induction types as [|tp rest IH]; simpl.
  - intros _. apply not_elem_of_nil.
  - unfold isEqual. case_bool_decide as Heq; [done|].
    destruct (findType T rest); simpl; [done|].
    intros _. apply not_elem_of_cons. split; [done|]. by apply IH.
Qed.

Lemma findType_first T types pos :
  findType T types = Some pos →
  ∀ j, (j < pos)%nat → types !! j ≠ Some T.
Proof.
  revert pos. induction types as [|tp rest IH]; intros pos; simpl; [done|].
  unfold isEqual. case_bool_decide as Heq.
  - intros [= <-] j Hj. lia.
  - destruct (findType T rest) as [p|] eqn:Hf; simpl; [|done].
    intros [= <-] [|j] Hj; simpl.
    + congruence.
    + apply (IH p); [done|lia].
Qed.

Lemma poolGet_Some types i T :
  poolGet types i = Some T ↔
  (i < length types)%nat ∧ types !! (length types - 1 - i)%nat = Some T.
Proof. unfold poolGet. case_decide; split; intros ?; first [done|tauto]. Qed.

Lemma poolGet_elem_of types i T : poolGet types i = Some T → T ∈ types.
Proof.
  intros [_ H]%poolGet_Some. by eapply list_elem_of_lookup_2.
Qed.

Lemma poolGet_cons types T0 i :
  poolGet (T0 :: types) i =
  if decide (i = length types) then Some T0 else poolGet types i.
Proof.
  unfold poolGet. simpl. repeat case_decide; try lia; try done.
  - subst. by replace (length types - 0 - length types)%nat with 0%nat
      by lia.
  - by replace (length types - 0 - i)%nat
      with (S (length types - 1 - i)) by lia.
Qed.

(** References into the pool stay valid when a type is interned. *)
Lemma poolUniqueType_stable types T i T' :
  poolGet types i = Some T' →
  poolGet (poolUniqueType types T).1 i = Some T'.
Proof.
  intros Hi. unfold poolUniqueType.
  destruct (findType T types); simpl; [done|].
  rewrite poolGet_cons. case_decide; [|done].
  apply poolGet_Some in Hi. lia.
Qed.

(** The returned reference points at a stored type equal to the
    candidate. *)
Lemma poolUniqueType_deref types T :
  derefType (poolUniqueType types T).1 (poolUniqueType types T).2 = Some T.
Proof.
  unfold poolUniqueType.
  destruct (findType T types) as [pos|] eqn:Hf; simpl.
  - pose proof (findType_Some _ _ _ Hf) as Hl.
    pose proof (lookup_lt_Some _ _ _ Hl) as Hlt.
    apply poolGet_Some. split; [lia|].
    by replace (length types - 1 - (length types - 1 - pos))%nat
      with pos by lia.
  - rewrite poolGet_cons. by rewrite decide_True.
Qed.

(** A candidate that is already stored leaves the pool as it is. *)
Lemma poolUniqueType_present types T :
  T ∈ types → (poolUniqueType types T).1 = types.
Proof.
  intros Hin. unfold poolUniqueType.
  destruct (findType T types) eqn:Hf; [done|].
  by apply findType_None in Hf.
Qed.

(** In a pool without duplicates the stored instance is found whatever
    its position. *)
Lemma poolUniqueType_same_instance types T i :
  NoDup types → poolGet types i = Some T →
  poolUniqueType types T = (types, PoolRef i).
Proof.
  intros Hnd Hi. unfold poolUniqueType.
  destruct (findType T types) as [pos|] eqn:Hf.
  - apply findType_Some in Hf.
    apply poolGet_Some in Hi as [Hlt Hi].
    pose proof (NoDup_lookup _ _ _ _ Hnd Hf Hi) as ->.
    do 2 f_equal. lia.
  - apply findType_None in Hf. by apply poolGet_elem_of in Hi.
Qed.

Lemma poolUniqueType_NoDup types T :
  NoDup types → NoDup (poolUniqueType types T).1.
Proof.
  intros Hnd. unfold poolUniqueType.
  destruct (findType T types) eqn:Hf; simpl; [done|].
  apply NoDup_cons. split; [|done]. by apply findType_None.
Qed.
Lemma poolUniqueType_PoolRef types T :
  ∃ i, (poolUniqueType types T).2 = PoolRef i.
Proof. unfold poolUniqueType. destruct (findType T types); simpl; eauto. Qed.

(** Interning the same candidate again finds the instance just returned. *)
Lemma poolUniqueType_idem types T :
  poolUniqueType (poolUniqueType types T).1 T = poolUniqueType types T.
Proof.
  unfold poolUniqueType at 2 3.
  destruct (findType T types) as [pos|] eqn:Hf; simpl.
  - unfold poolUniqueType. by rewrite Hf.
  - unfold poolUniqueType. simpl. unfold isEqual.
    rewrite bool_decide_eq_true_2 by done. do 2 f_equal. lia.
Qed.

Lemma set_types_id M : set_types (types_ M) M = M.
Proof. by destruct M. Qed.

Lemma uniqueType_unfold T M :
  uniqueType T M =
  ((poolUniqueType (types_ M) T).2,
   set_types (poolUniqueType (types_ M) T).1 M).
Proof. unfold uniqueType. by destruct (poolUniqueType (types_ M) T). Qed.

(** C3.  [Module::uniqueType] never fails (it is a total function) and
    always returns a reference to a stored instance equal to the candidate.
    When an equal type is already stored the pool is left as it is and a
    stored instance is returned, the very instance [i] when the pool holds
    no duplicates (which interning preserves).  Interning the same type
    again returns the same reference; interning a structurally different
    type returns a different reference, and the first one stays valid. *)
Theorem uniqueType_interns (M : Module) (T : Ty) :
  let r := (uniqueType T M).1 in
  let M1 := (uniqueType T M).2 in
  (∃ i, r = PoolRef i ∧ poolGet (types_ M1) i = Some T)
  ∧ (T ∈ types_ M → M1 = M ∧ derefType (types_ M) r = Some T)
  ∧ (∀ i, NoDup (types_ M) → poolGet (types_ M) i = Some T → r = PoolRef i)
  ∧ uniqueType T M1 = (r, M1)
  ∧ (∀ T2, T2 ≠ T →
       (uniqueType T2 M1).1 ≠ r
       ∧ derefType (types_ (uniqueType T2 M1).2) r = Some T)
  ∧ (∀ i T', poolGet (types_ M) i = Some T' → poolGet (types_ M1) i = Some T')
  ∧ (NoDup (types_ M) → NoDup (types_ M1)).
Proof.
  intros r M1. subst r M1. rewrite !uniqueType_unfold. simpl.
  pose proof (poolUniqueType_deref (types_ M) T) as Hd.
  pose proof (poolUniqueType_idem (types_ M) T) as Hidem.
  destruct (poolUniqueType_PoolRef (types_ M) T) as [i Hi].
  set (ts := (poolUniqueType (types_ M) T).1) in *.
  rewrite Hi in *. simpl in Hd.
  split_and!.
  - by exists i.
  - intros Hin. split.
    + rewrite <- (set_types_id M) at 2. f_equal.
      by apply poolUniqueType_present.
    + subst ts. rewrite poolUniqueType_present in Hd; done.
  - intros j Hnd Hj.
    pose proof (poolUniqueType_same_instance _ _ _ Hnd Hj) as Hs.
    rewrite Hs in Hi. done.
  - rewrite Hidem. simpl. by rewrite Hi.
  - intros T2 Hne. rewrite uniqueType_unfold. simpl. split.
    + intros Heq.
      pose proof (poolUniqueType_deref ts T2) as Hd2.
      rewrite Heq in Hd2. simpl in Hd2.
      pose proof (poolUniqueType_stable ts T2 i T Hd) as Hst.
      congruence.
    + by apply poolUniqueType_stable.
  - intros j T' Hj. subst ts. by apply poolUniqueType_stable.
  - intros Hnd. subst ts. by apply poolUniqueType_NoDup.
Qed.

Lemma uniqueType_interns_witness :
  (uniqueType (Type_plain FloatTy [2; 3]) pool_example).1 = PoolRef 0
  ∧ (uniqueType (Type_plain IndexTy [7])
       (uniqueType (Type_plain FloatTy [2; 3]) pool_example).2).1
    ≠ (uniqueType (Type_plain FloatTy [2; 3]) pool_example).1.
Proof.
  pose proof (uniqueType_interns pool_example (Type_plain FloatTy [2; 3]))
    as (_ & _ & Hsame & _ & Hdiff & _).
  split.
  - apply Hsame; [|reflexivity].
    apply NoDup_cons. split; [|apply NoDup_singleton].
    intros Hin%list_elem_of_singleton. discriminate.
  - apply Hdiff. discriminate.
Defined.

End TypePool.

(** ** Names *)

Lemma prefix_delim_inv s :
  String.prefix "__" s = true ↔ ∃ rest, s = "__" ++ rest.
Proof.
  split.
  - destruct s as [|c [|c' s']]; cbn [String.prefix]; try done.
    + destruct (ascii_dec "_" c); done.
    + destruct (ascii_dec "_" c) as [<-|]; [|done].
      destruct (ascii_dec "_" c') as [<-|]; [|done].
      intros _. by exists s'.
  - intros [rest ->]. simpl.
    destruct (ascii_dec "_" "_"); [|done]. by destruct rest.
Qed.

Lemma stripName_cons c s :
  stripName (String c s) =
  if String.prefix "__" (String c s) then "" else String c (stripName s).
Proof.
  unfold stripName. cbn [find_delim].
  destruct (String.prefix "__" (String c s)); [done|].
  destruct (find_delim s) as [p|]; simpl; [|done]. done.
Qed.

Lemma stripName_nil : stripName "" = "".
Proof. done. Qed.

Lemma stripName_absent s :
  (∀ a b, s ≠ a ++ "__" ++ b) → stripName s = s.
Proof.
  induction s as [|c s IH]; intros Hno; [done|].
  rewrite stripName_cons.
  destruct (String.prefix "__" (String c s)) eqn:Hp.
  - apply prefix_delim_inv in Hp as [rest Hrest].
    by destruct (Hno "" rest).
  - f_equal. apply IH. intros a b ->. by apply (Hno (String c a) b).
Qed.

Lemma stripName_first s a b :
  s = a ++ "__" ++ b →
  (∀ a' b', s = a' ++ "__" ++ b' → (String.length a ≤ String.length a')%nat) →
  stripName s = a.
Proof.
  revert a. induction s as [|c s IH]; intros a Hs Hmin.
  - by destruct a.
  - rewrite stripName_cons.
    destruct (String.prefix "__" (String c s)) eqn:Hp.
    + apply prefix_delim_inv in Hp as [rest Hrest].
      specialize (Hmin "" rest Hrest).
      destruct a; [done|simpl in Hmin; lia].
    + destruct a as [|c' a].
      * assert (String.prefix "__" (String c s) = true) as Hp'
          by (apply prefix_delim_inv; eauto).
        congruence.
      * simpl in Hs. injection Hs as <- Hs. f_equal.
        apply IH; [done|]. intros a' b' Hs'.
        specialize (Hmin (String c a') b'). simpl in Hmin.
        rewrite Hs' in Hmin. specialize (Hmin eq_refl). lia.
Qed.

Lemma all_digits_to_string n : all_digits (to_string n) = true.
Proof.
  unfold to_string. induction (N.to_uint n); simpl; try done.
Qed.

Lemma to_string_inj n m : to_string n = to_string m → n = m.
Proof.
  unfold to_string. intros H.
  assert (N.to_uint n = N.to_uint m) as Hu.
  { pose proof (NilEmpty.usu (N.to_uint n)) as H1.
    pose proof (NilEmpty.usu (N.to_uint m)) as H2.
    rewrite H in H1. congruence. }
  rewrite <- (Unsigned.of_to n), <- (Unsigned.of_to m). by rewrite Hu.
Qed.

Lemma all_digits_no_underscore a b :
  all_digits (a ++ String "_" b) = false.
Proof.
  induction a as [|c a IH]; simpl; [done|].
  rewrite IH. by destruct (is_digit c).
Qed.

Lemma append_nil_l s : "" ++ s = s.
Proof. reflexivity. Qed.
Lemma append_cons c a b : String c a ++ b = String c (a ++ b).
Proof. reflexivity. Qed.

Ltac str_simpl := rewrite ?append_cons, ?append_nil_l.
Tactic Notation "str_simpl" "in" hyp(H) :=
  rewrite ?append_cons, ?append_nil_l in H.

Lemma suffix_digits_inj p1 p2 d1 d2 :
  all_digits d1 = true → all_digits d2 = true →
  p1 ++ "__" ++ d1 = p2 ++ "__" ++ d2 → d1 = d2.
Proof.
  intros H1 H2. revert p2.
  induction p1 as [|c p1 IH]; intros [|k p2]; str_simpl.
  - by intros [= ->].
  - intros [= <- Heq]. destruct p2 as [|k2 p2]; str_simpl in Heq.
    + injection Heq as ->. done.
    + injection Heq as <- ->.
      by rewrite all_digits_no_underscore in H1.
  - intros [= -> Heq]. destruct p1 as [|k2 p1]; str_simpl in Heq.
    + injection Heq as <-. done.
    + injection Heq as -> <-.
      by rewrite all_digits_no_underscore in H2.
  - intros [= _ Heq]. by apply (IH p2).
Qed.

Lemma stripName_no_delim s : find_delim (stripName s) = None.
Proof.
  induction s as [|c s IH]; [done|].
  rewrite stripName_cons.
  destruct (String.prefix "__" (String c s)) eqn:Hp; [done|].
  cbn [find_delim]. rewrite IH.
  destruct (String.prefix "__" (String c (stripName s))) eqn:Hp2; [|done].
  exfalso. apply prefix_delim_inv in Hp2 as [rest Hrest].
  str_simpl in Hrest. injection Hrest as -> Hrest.
  destruct s as [|k s]; [done|].
  rewrite stripName_cons in Hrest.
  destruct (String.prefix "__" (String k s)); [done|].
  injection Hrest as -> _.
  assert (String.prefix "__" (String "_" (String "_" s)) = true) as E
    by (apply prefix_delim_inv; by exists s).
  congruence.
Qed.

(** A bare prefix that does not end in an underscore is recovered from the
    name built on it. *)
Lemma stripName_rebuild p d :
  find_delim p = None → ends_with_underscore p = false →
  stripName (p ++ "__" ++ d) = p.
Proof.
  change ("__" ++ d) with (String "_" (String "_" d)).
  induction p as [|c p IH]; intros Hnd Hend.
  - rewrite append_nil_l, stripName_cons.
    rewrite (proj2 (prefix_delim_inv (String "_" (String "_" d))));
      [done | by exists d].
  - rewrite append_cons, stripName_cons.
    cbn [find_delim] in Hnd.
    destruct (String.prefix "__" (String c p)) eqn:Hp; [done|].
    destruct (find_delim p) eqn:Hfp; [done|].
    destruct (String.prefix "__" (String c (p ++ String "_" (String "_" d))))
      eqn:Hp2.
    + exfalso. apply prefix_delim_inv in Hp2 as [rest Hrest].
      str_simpl in Hrest. injection Hrest as -> Hrest.
      destruct p as [|k p].
      * by vm_compute in Hend.
      * str_simpl in Hrest. injection Hrest as -> _.
        assert (String.prefix "__" (String "_" (String "_" p)) = true) as E
          by (apply prefix_delim_inv; by exists p).
        congruence.
    + f_equal. apply IH; [done|].
      destruct p; [|done]. done.
Qed.

(** The names handed out carry the counter values from the current one
    on. *)
Lemma uniqueNames_shape names M u :
  u ∈ (uniqueNames names M).1 →
  ∃ p k, u = p ++ "__" ++ to_string k ∧ uniqueIdx_ M ≤ k.
Proof.
  revert M. induction names as [|s names IH]; intros M; simpl.
  - by intros ?%elem_of_nil.
  - destruct (uniqueNames names (set_uniqueIdx (uniqueIdx_ M + 1) M))
      as [us M2] eqn:Hrec.
    simpl. intros [->|Hin]%elem_of_cons.
    + exists (stripName s), (uniqueIdx_ M). split; [done|lia].
    + specialize (IH (set_uniqueIdx (uniqueIdx_ M + 1) M)).
      rewrite Hrec in IH. destruct (IH Hin) as (p & k & -> & Hk).
      exists p, k. split; [done|]. simpl in Hk. lia.
Qed.

Lemma uniqueNames_NoDup names M : NoDup (uniqueNames names M).1.
Proof.
  revert M. induction names as [|s names IH]; intros M; simpl.
  - apply NoDup_nil_2.
  - pose proof (uniqueNames_shape names (set_uniqueIdx (uniqueIdx_ M + 1) M))
      as Hshape.
    specialize (IH (set_uniqueIdx (uniqueIdx_ M + 1) M)).
    destruct (uniqueNames names (set_uniqueIdx (uniqueIdx_ M + 1) M))
      as [us M2].
    simpl in *. apply NoDup_cons. split; [|done].
    intros Hin. destruct (Hshape _ Hin) as (p & k & Heq & Hk).
    apply suffix_digits_inj in Heq; try apply all_digits_to_string.
    apply to_string_inj in Heq. lia.
Qed.

Lemma uniqueNames_counter names M :
  uniqueIdx_ (uniqueNames names M).2 = uniqueIdx_ M + N.of_nat (length names).
Proof.
  revert M. induction names as [|s names IH]; intros M; simpl.
  - lia.
  - specialize (IH (set_uniqueIdx (uniqueIdx_ M + 1) M)).
    destruct (uniqueNames names (set_uniqueIdx (uniqueIdx_ M + 1) M)).
    simpl in *. lia.
Qed.

(** C4 (amended).  [Module::uniqueName] returns the part of the requested
    name before the first occurrence of the delimiter (all of it when the
    delimiter does not occur), followed by the delimiter and the decimal
    rendering of the counter, and leaves the counter one higher.  Names
    produced at different counter values differ, so the names of any call
    sequence are pairwise distinct.  Re-disambiguating a produced name gives
    the same bare prefix with the new counter value whenever that bare prefix
    does not end in an underscore. *)
Theorem uniqueName_spec (s : string) (M : Module) :
  uniqueName s M
  = (stripName s ++ "__" ++ to_string (uniqueIdx_ M),
     set_uniqueIdx (uniqueIdx_ M + 1) M)
  ∧ ((∀ a b, s ≠ a ++ "__" ++ b) → stripName s = s)
  ∧ (∀ a b, s = a ++ "__" ++ b →
       (∀ a' b', s = a' ++ "__" ++ b' →
                 (String.length a ≤ String.length a')%nat) →
       stripName s = a)
  ∧ (∀ s' M', uniqueIdx_ M' ≠ uniqueIdx_ M →
       (uniqueName s' M').1 ≠ (uniqueName s M).1)
  ∧ (∀ names, NoDup (uniqueNames names M).1)
  ∧ (ends_with_underscore (stripName s) = false →
     ∀ M', (uniqueName (uniqueName s M).1 M').1
           = stripName s ++ "__" ++ to_string (uniqueIdx_ M')).
Proof.
  split_and!.
  - reflexivity.
  - apply stripName_absent.
  - apply stripName_first.
  - intros s' M' Hne Heq. unfold uniqueName in Heq. simpl in Heq.
    apply suffix_digits_inj in Heq; try apply all_digits_to_string.
    by apply to_string_inj in Heq.
  - intros names. apply uniqueNames_NoDup.
  - intros Hend M'. unfold uniqueName. simpl.
    by rewrite stripName_rebuild by (done || apply stripName_no_delim).
Qed.

Lemma uniqueName_spec_witness :
  (uniqueName "conv__12" name_example).1 = "conv__105"
  ∧ (uniqueName (uniqueName "conv__12" name_example).1
       (uniqueName "conv__12" name_example).2).1
    = "conv__106".
Proof.
  pose proof (uniqueName_spec "conv__12" name_example)
    as (_ & _ & _ & _ & _ & Hstable).
  split; [reflexivity|].
  apply (Hstable eq_refl (uniqueName "conv__12" name_example).2).
Defined.

(** C4, counterexample.  The request "a_" holds no delimiter, so its bare
    prefix is "a_" and the name produced is "a___0"; the first delimiter of
    that name starts one character earlier, and disambiguating it again
    gives "a__1", built on the bare prefix "a". *)
Lemma uniqueName_prefix_unstable :
  stripName "a_" = "a_"
  ∧ uniqueName "a_" (mkModule [] [] [] [] 0)
    = ("a___0", mkModule [] [] [] [] 1)
  ∧ uniqueName "a___0" (mkModule [] [] [] [] 1)
    = ("a__1", mkModule [] [] [] [] 2)
  ∧ (uniqueName "a___0" (mkModule [] [] [] [] 1)).1
    ≠ stripName "a_" ++ "__" ++ to_string 1.
Proof. split_and!; [reflexivity..|discriminate]. Qed.

(** ** The node store *)

Lemma derefType_extends ts ts' r T :
  pool_extends ts ts' → derefType ts r = Some T → derefType ts' r = Some T.
Proof. intros Hext. destruct r; simpl; [apply Hext|done]. Qed.

Lemma pool_extends_refl ts : pool_extends ts ts.
Proof. by intros ??. Qed.

Lemma pool_extends_trans ts1 ts2 ts3 :
  pool_extends ts1 ts2 → pool_extends ts2 ts3 → pool_extends ts1 ts3.
Proof. intros H1 H2 i T Hi. by apply H2, H1. Qed.

Lemma uniqueType_extends T M :
  pool_extends (types_ M) (types_ (uniqueType T M).2).
Proof.
  intros i T' Hi. rewrite uniqueType_unfold. simpl.
  by apply poolUniqueType_stable.
Qed.

Lemma uniqueType_deref T M :
  derefType (types_ (uniqueType T M).2) (uniqueType T M).1 = Some T.
Proof. rewrite uniqueType_unfold. simpl. apply poolUniqueType_deref. Qed.

Lemma getNode_lookup M a n : getNode M a = Some n ↔ heap_ M !! a = Some (Some n).
Proof.
  unfold getNode. destruct (heap_ M !! a) as [[x|]|]; simpl; naive_solver.
Qed.

Lemma getNode_newNode n M :
  getNode (newNode n M).2 (newNode n M).1 = Some n.
Proof.
  apply getNode_lookup. simpl. 
  rewrite lookup_app_r by lia. by rewrite Nat.sub_diag.
Qed.

Lemma getNode_newNode_old n M a x :
  getNode M a = Some x → getNode (newNode n M).2 a = Some x.
Proof.
  rewrite !getNode_lookup. simpl. intros H.
  rewrite lookup_app_l; [done|]. by eapply lookup_lt_Some.
Qed.

Lemma getNode_live_lt M a x : getNode M a = Some x → (a < length (heap_ M))%nat.
Proof. rewrite getNode_lookup. apply lookup_lt_Some. Qed.

Lemma storeNode_live a n M x :
  getNode M a = Some x →
  storeNode a n M = Some (set_heap (<[a := Some n]> (heap_ M)) M).
Proof. intros H. unfold storeNode. by rewrite H. Qed.

Lemma getNode_store a n M b :
  (a < length (heap_ M))%nat →
  getNode (set_heap (<[a := Some n]> (heap_ M)) M) b =
  if decide (a = b) then Some n else getNode M b.
Proof.
  intros Hlt. unfold getNode. simpl. case_decide as Hab.
  - subst. by rewrite list_lookup_insert_eq.
  - by rewrite list_lookup_insert_ne.
Qed.

(** What creating a Variable does to the Module. *)
Lemma createVariable_spec T name vis train M t :
  derefType (types_ M) T = Some t →
  ∃ V M' FT,
    createVariable T name vis train M = Some (V, M')
    ∧ V = length (heap_ M)
    ∧ functions_ M' = functions_ M
    ∧ pool_extends (types_ M) (types_ M')
    ∧ derefType (types_ M') FT = Some t
    ∧ vars_ M' = (vars_ M ++ [V])%list
    ∧ uniqueIdx_ M' = uniqueIdx_ M + 1
    ∧ getNode M' V
      = Some (Variable_new (stripName name ++ "__" ++ to_string (uniqueIdx_ M))
                FT vis train)
    ∧ (∀ a x, getNode M a = Some x → getNode M' a = Some x).
Proof.
  intros Ht. unfold createVariable. rewrite Ht. simpl.
  pose proof (uniqueType_extends t M) as Hext.
  pose proof (uniqueType_deref t M) as Hder.
  destruct (uniqueType t M) as [FT M1] eqn:HU. simpl in *.
  assert (heap_ M1 = heap_ M ∧ functions_ M1 = functions_ M
          ∧ vars_ M1 = vars_ M ∧ uniqueIdx_ M1 = uniqueIdx_ M)
    as (Hh & Hf & Hv & Hu).
  { rewrite uniqueType_unfold in HU. by injection HU as _ <-. }
  unfold newNode, addVar, assignUniqueName, storeNode, getNode. simpl.
  rewrite !lookup_app_r by lia. rewrite !Nat.sub_diag. simpl.
  eexists _, _, FT. split; [reflexivity|]. simpl.
  split_and!; try done.
  - by rewrite Hh.
  - by rewrite Hv, Hh.
  - by rewrite Hu.
  - rewrite Hu.
    rewrite list_lookup_insert_eq; [done|]. rewrite length_app. simpl. lia.
  - intros a x Hax. rewrite <- Hh in Hax.
    assert (a < length (heap_ M1))%nat as Hlt.
    { destruct (heap_ M1 !! a) eqn:E; [by eapply lookup_lt_Some|done]. }
    rewrite list_lookup_insert_ne by lia.
    by rewrite lookup_app_l.
Qed.

Lemma createVariable_dims_spec T dims name vis train M :
  ∃ V M' FT,
    createVariable_dims T dims name vis train M = Some (V, M')
    ∧ V = length (heap_ M)
    ∧ functions_ M' = functions_ M
    ∧ pool_extends (types_ M) (types_ M')
    ∧ derefType (types_ M') FT = Some (Type_plain T dims)
    ∧ vars_ M' = (vars_ M ++ [V])%list
    ∧ uniqueIdx_ M' = uniqueIdx_ M + 1
    ∧ getNode M' V
      = Some (Variable_new (stripName name ++ "__" ++ to_string (uniqueIdx_ M))
                FT vis train)
    ∧ (∀ a x, getNode M a = Some x → getNode M' a = Some x).
Proof.
  unfold createVariable_dims, uniqueType_dims.
  pose proof (uniqueType_extends (Type_plain T dims) M) as Hext.
  pose proof (uniqueType_deref (Type_plain T dims) M) as Hder.
  destruct (uniqueType (Type_plain T dims) M) as [FT0 M1] eqn:HU.
  simpl in *.
  assert (heap_ M1 = heap_ M ∧ functions_ M1 = functions_ M
          ∧ vars_ M1 = vars_ M ∧ uniqueIdx_ M1 = uniqueIdx_ M)
    as (Hh & Hf & Hv & Hu).
  { rewrite uniqueType_unfold in HU. by injection HU as _ <-. }
  destruct (createVariable_spec FT0 name vis train M1 _ Hder)
    as (V & M' & FT & -> & HV & Hf' & Hext' & Hder' & Hv' & Hu' & Hn & Hold).
  exists V, M', FT. split_and!; try congruence.
  - by eapply pool_extends_trans.
  - intros a x Hax. apply Hold. unfold getNode in *. by rewrite Hh.
Qed.

Lemma uniqueType_frame T M :
  heap_ (uniqueType T M).2 = heap_ M
  ∧ functions_ (uniqueType T M).2 = functions_ M
  ∧ vars_ (uniqueType T M).2 = vars_ M
  ∧ uniqueIdx_ (uniqueType T M).2 = uniqueIdx_ M.
Proof. by rewrite uniqueType_unfold. Qed.

(** Appending a freshly allocated node to a Function of the Module. *)
Lemma addNode_newNode F n M f :
  functions_ M !! F = Some f →
  ∃ M', addNode F (newNode n M).1 (newNode n M).2
        = Some (length (heap_ M), M')
    ∧ getNode M' (length (heap_ M)) = Some n
    ∧ types_ M' = types_ M
    ∧ vars_ M' = vars_ M
    ∧ functions_ M' !! F
      = Some (mkFunction (fname_ f) (nodes_ f ++ [length (heap_ M)]))
    ∧ (∀ a x, getNode M a = Some x → getNode M' a = Some x).
Proof.
  intros Hf. unfold addNode. simpl. rewrite Hf. simpl.
  eexists. split; [reflexivity|].
  split_and!; try done.
  - apply (getNode_newNode n M).
  - simpl. rewrite list_lookup_insert_eq; [done|]. by eapply lookup_lt_Some.
  - intros a x Hax. by apply (getNode_newNode_old n M).
Qed.

(** C5.  For an input of shape (n, h, w, c) with h and w at least the
    kernel size (and a stride that can be divided by), [createConv] succeeds
    on a Function of the Module, appends a Convolution node to it, and the
    shape of that node's result is
    (n, floor((h + 2*pad - kernel) / stride) + 1,
        floor((w + 2*pad - kernel) / stride) + 1, depth). *)
Theorem createConv_shape (F : nat) (name : string) (input : NodeValue)
    (depth kernel stride pad : N) (M : Module) (n h w c : N) :
  NodeValue_dims M input = Some [n; h; w; c] →
  kernel ≤ h → kernel ≤ w → stride ≠ 0 →
  is_Some (functions_ M !! F) →
  ∃ Nd M' f',
    createConv F name input depth kernel stride pad M = Some (Nd, M')
    ∧ functions_ M' !! F = Some f'
    ∧ last (nodes_ f') = Some Nd
    ∧ kind_ <$> getNode M' Nd = Some ConvolutionNodeKind
    ∧ Node_dims M' Nd
      = Some [n; (h + 2 * pad - kernel) / stride + 1;
              (w + 2 * pad - kernel) / stride + 1; depth].
Proof.
  intros Hdims Hh Hw Hs [f Hf].
  unfold createConv. rewrite Hdims. simpl.
  rewrite bool_decide_eq_true_2 by done.
  unfold calculateConvOutputDims. rewrite decide_False by done. simpl.
  destruct (createVariable_dims_spec FloatTy [depth; kernel; kernel; c]
              "filter" Private Xavier M)
    as (V1 & M1 & FT1 & -> & _ & Hf1 & _ & _ & _ & _ & _ & _).
  simpl.
  destruct (createVariable_dims_spec FloatTy [depth] "bias" Private
              Broadcast M1)
    as (V2 & M2 & FT2 & -> & _ & Hf2 & _ & _ & _ & _ & _ & _).
  simpl. unfold uniqueType_dims.
  set (outTy := Type_plain FloatTy _).
  pose proof (uniqueType_deref outTy M2) as Hder.
  destruct (uniqueType_frame outTy M2) as (_ & Hf3 & _ & _).
  destruct (uniqueType outTy M2) as [OT M3]. simpl in *.
  set (nd := ConvolutionNode_new _ _ _ _ _ _ _ _ _).
  assert (functions_ M3 !! F = Some f) as Hf' by congruence.
  destruct (addNode_newNode F nd M3 f Hf')
    as (M4 & Hadd & Hget & Ht & _ & Hfn & _).
  simpl in Hadd. rewrite Hadd.
  eexists _, M4, _. split; [reflexivity|]. split; [exact Hfn|].
  split_and!.
  - simpl. apply last_snoc.
  - by rewrite Hget.
  - unfold Node_dims, Node_getType. rewrite Hget. simpl.
    unfold TypeRef_dims. rewrite Ht, Hder. simpl.
    by rewrite !(N.mul_comm 2 pad).
Qed.

Lemma createConv_shape_witness :
  ∃ Nd M' f',
    createConv 0 "conv" (mkNodeValue 0 0) 16 5 1 2 conv_example
    = Some (Nd, M')
    ∧ functions_ M' !! 0%nat = Some f'
    ∧ last (nodes_ f') = Some Nd
    ∧ kind_ <$> getNode M' Nd = Some ConvolutionNodeKind
    ∧ Node_dims M' Nd = Some [1; 32; 32; 16].
Proof.
  apply (createConv_shape 0 "conv" (mkNodeValue 0 0) 16 5 1 2 conv_example
           1 32 32 3).
  - reflexivity.
  - lia.
  - lia.
  - discriminate.
  - eexists. reflexivity.
Defined.

(** ** Concatenation *)

Lemma sameSameShapeExceptDim_spec T1 T2 dim :
  sameSameShapeExceptDim T1 T2 dim = true ↔ agreeExcept T1 T2 dim.
Proof.
  unfold sameSameShapeExceptDim, agreeExcept.
  case_bool_decide as He; simpl;
    [|split; [discriminate|by intros (? & _)]].
  case_bool_decide as Hl; simpl;
    [|split; [discriminate|by intros (_ & ? & _)]].
  rewrite forallb_forall. setoid_rewrite <- list_elem_of_In.
  setoid_rewrite elem_of_seq. split.
  - intros Hall. split_and!; [done..|]. intros i Hi.
    destruct (decide (i < length (sizes_ T1))%nat) as [Hlt|Hge].
    + specialize (Hall i ltac:(lia)).
      apply orb_prop in Hall as [H|H].
      * by apply bool_decide_eq_true in H.
      * by apply bool_decide_eq_true in H.
    + rewrite !lookup_ge_None_2 by lia. done.
  - intros (_ & _ & Hall) i _.
    destruct (decide (i = dim)) as [->|Hne].
    + by rewrite bool_decide_eq_true_2.
    + rewrite (bool_decide_eq_true_2 (_ !! _ = _)); [|by apply Hall].
      by rewrite orb_true_r.
Qed.

Lemma agreeExcept_refl T dim : agreeExcept T T dim.
Proof. by repeat split. Qed.

Lemma concatCheck_spec M T0 rest dim Ts :
  Forall2 (λ Inp T, Node_type M Inp = Some T) rest Ts →
  concatCheck M T0 rest dim = Some tt
  ↔ Forall (λ T, agreeExcept T T0 dim) Ts.
Proof.
  induction 1 as [|Inp T rest Ts HT _ IH]; simpl.
  - split; [constructor|done].
  - rewrite HT. simpl. rewrite Forall_cons, <- IH.
    destruct (sameSameShapeExceptDim T T0 dim) eqn:Hs.
    + apply sameSameShapeExceptDim_spec in Hs.
      split; [by intros ?|by intros [_ ?]].
    + split; [done|]. intros [Ha _].
      apply sameSameShapeExceptDim_spec in Ha. congruence.
Qed.

Lemma concatCheck_None M T0 rest dim Ts :
  Forall2 (λ Inp T, Node_type M Inp = Some T) rest Ts →
  ¬ Forall (λ T, agreeExcept T T0 dim) Ts →
  concatCheck M T0 rest dim = None.
Proof.
  intros HF Hn. destruct (concatCheck M T0 rest dim) as [[]|] eqn:E; [|done].
  by apply (concatCheck_spec _ _ _ _ _ HF) in E.
Qed.

Lemma axisTotal_cons dim T Ts :
  axisTotal dim (T :: Ts) = axisSize dim T + axisTotal dim Ts.
Proof. reflexivity. Qed.

Lemma concatSum_spec M inputs dim acc Ts :
  Forall2 (λ Inp T, Node_type M Inp = Some T) inputs Ts →
  Forall (λ T, (dim < length (sizes_ T))%nat) Ts →
  acc < 2 ^ 64 →
  concatSum M inputs dim acc = Some ((acc + axisTotal dim Ts) mod 2 ^ 64).
Proof.
  intros HF. revert acc.
  induction HF as [|Inp T rest Ts HT _ IH]; intros acc Hlen Hacc; simpl.
  - unfold axisTotal. simpl. rewrite N.add_0_r. by rewrite N.mod_small.
  - rewrite HT. simpl. apply Forall_cons in Hlen as [Hl Hlen].
    destruct (lookup_lt_is_Some_2 _ _ Hl) as [d Hd]. rewrite Hd. simpl.
    rewrite IH; [|done|by apply N.mod_lt].
    f_equal. rewrite axisTotal_cons. unfold size_add, axisSize.
    rewrite Hd. simpl.
    rewrite N.Div0.add_mod_idemp_l. f_equal. lia.
Qed.

Lemma uniqueTypeWithNewShape_spec T dims M t :
  derefType (types_ M) T = Some t →
  ∃ NT M1 t',
    uniqueTypeWithNewShape T dims M = Some (NT, M1)
    ∧ derefType (types_ M1) NT = Some t'
    ∧ sizes_ t' = dims
    ∧ elementType_ t' = elementType_ t
    ∧ (isQuantizedType t = true →
       scale_ t' = scale_ t ∧ offset_ t' = offset_ t)
    ∧ heap_ M1 = heap_ M
    ∧ functions_ M1 = functions_ M
    ∧ vars_ M1 = vars_ M
    ∧ pool_extends (types_ M) (types_ M1).
Proof.
  intros Ht. unfold uniqueTypeWithNewShape. rewrite Ht. simpl.
  destruct (isQuantizedType t) eqn:Hq.
  - set (t' := Type_quant _ _ _ _).
    pose proof (uniqueType_deref t' M) as Hd.
    pose proof (uniqueType_extends t' M) as He.
    destruct (uniqueType_frame t' M) as (Hh & Hf & Hv & _).
    destruct (uniqueType t' M) as [NT M1]. simpl in *.
    by exists NT, M1, t'.
  - set (t' := Type_plain _ _).
    pose proof (uniqueType_deref t' M) as Hd.
    pose proof (uniqueType_extends t' M) as He.
    destruct (uniqueType_frame t' M) as (Hh & Hf & Hv & _).
    destruct (uniqueType t' M) as [NT M1]. simpl in *.
    by exists NT, M1, t'.
Qed.

Lemma Node_type_inv M Nd T :
  Node_type M Nd = Some T →
  ∃ r, Node_getType M Nd 0 = Some r ∧ derefType (types_ M) r = Some T.
Proof.
  unfold Node_type. destruct (Node_getType M Nd 0) as [r|]; simpl; [|done].
  intros H. by exists r.
Qed.

(** C6.  When every input names a live node, [createConcat] is rejected
    unless every input agrees with the first one on element kind, rank and
    every dimension except the concatenation axis.  When they agree (and the
    axis is one of the first input's dimensions) it succeeds on a Function of
    the Module and appends a Concat node whose result type has the first
    input's element kind and the first input's shape with the size along the
    axis replaced by the sum, computed in [size_t], of all inputs' sizes
    along it: the sum itself whenever it fits the machine word. *)
Theorem createConcat_spec (F : nat) (name : string) (inputs : list addr)
    (dimension : nat) (M : Module) (Ts : list Ty) (T0 : Ty) :
  Forall2 (λ Inp T, Node_type M Inp = Some T) inputs Ts →
  Ts !! 0%nat = Some T0 →
  (¬ Forall (λ T, agreeExcept T T0 dimension) Ts →
   createConcat F name inputs dimension M = None)
  ∧ (Forall (λ T, agreeExcept T T0 dimension) Ts →
     (dimension < length (sizes_ T0))%nat →
     is_Some (functions_ M !! F) →
     ∃ Nd M' f' T',
       createConcat F name inputs dimension M = Some (Nd, M')
       ∧ functions_ M' !! F = Some f'
       ∧ last (nodes_ f') = Some Nd
       ∧ kind_ <$> getNode M' Nd = Some ConcatNodeKind
       ∧ Node_type M' Nd = Some T'
       ∧ elementType_ T' = elementType_ T0
       ∧ sizes_ T'
         = <[dimension := axisTotal dimension Ts mod 2 ^ 64]> (sizes_ T0)
       ∧ (axisTotal dimension Ts < 2 ^ 64 →
          sizes_ T' = <[dimension := axisTotal dimension Ts]> (sizes_ T0))).
Proof.
  intros HF H0.
  destruct HF as [|I0 T0' rest Ts' HT0 HF]; [done|].
  simpl in H0. injection H0 as ->.
  destruct (Node_type_inv _ _ _ HT0) as (T0ref & Hg & Hd).
  unfold createConcat. change ((I0 :: rest) !! 0%nat) with (Some I0).
  change (drop 1 (I0 :: rest)) with rest.
  cbn [mbind option_bind]. rewrite Hg. cbn [mbind option_bind].
  rewrite Hd. cbn [mbind option_bind]. split.
  - intros Hn. rewrite (concatCheck_None M T0 rest dimension Ts' HF); [done|].
    intros HA. apply Hn. constructor; [apply agreeExcept_refl|done].
  - intros HA Hdim [f Hf].
    apply Forall_cons in HA as [_ HA'].
    rewrite (proj2 (concatCheck_spec M T0 rest dimension Ts' HF) HA').
    cbn [mbind option_bind].
    rewrite decide_True by done.
    assert (Forall (λ T, (dimension < length (sizes_ T))%nat) (T0 :: Ts'))
      as Hlen.
    { constructor; [done|]. eapply Forall_impl; [exact HA'|].
      intros T (_ & Hl & _). simpl in Hl. lia. }
    assert (Forall2 (λ Inp T, Node_type M Inp = Some T)
              (I0 :: rest) (T0 :: Ts')) as HF0 by (by constructor).
    rewrite (concatSum_spec M (I0 :: rest) dimension 0 (T0 :: Ts')
               HF0 Hlen eq_refl).
    cbn [mbind option_bind]. rewrite N.add_0_l.
    set (total := axisTotal dimension (T0 :: Ts') mod 2 ^ 64).
    destruct (uniqueTypeWithNewShape_spec T0ref
                (<[dimension := total]> (sizes_ T0)) M T0 Hd)
      as (NT & M1 & T' & -> & Hd' & Hs' & He' & _ & _ & Hf1 & _ & _).
    simpl.
    set (nd := ConcatNode_new _ _ _ _).
    assert (functions_ M1 !! F = Some f) as Hf' by congruence.
    destruct (addNode_newNode F nd M1 f Hf')
      as (M2 & Hadd & Hget & Ht & _ & Hfn & _).
    simpl in Hadd. rewrite Hadd.
    eexists _, M2, _, T'. split; [reflexivity|]. split; [exact Hfn|].
    split_and!.
    + simpl. apply last_snoc.
    + by rewrite Hget.
    + unfold Node_type, Node_getType. rewrite Hget. simpl. by rewrite Ht.
    + done.
    + done.
    + intros Hfit. rewrite Hs'. subst total. by rewrite N.mod_small.
Qed.

Lemma createConcat_spec_witness :
  (∃ Nd M' T',
     createConcat 0 "concat" [0; 1]%nat 1 concat_example = Some (Nd, M')
     ∧ Node_type M' Nd = Some T'
     ∧ sizes_ T' = [4; 16])
  ∧ createConcat 0 "concat" [0; 1]%nat 0 concat_example = None.
Proof.
  assert (Forall2 (λ Inp T, Node_type concat_example Inp = Some T)
            [0; 1]%nat
            [Type_plain FloatTy [4; 10]; Type_plain FloatTy [4; 6]]) as HF.
  { repeat constructor. }
  split.
  - destruct (createConcat_spec 0 "concat" [0; 1]%nat 1 concat_example
                _ (Type_plain FloatTy [4; 10]) HF eq_refl) as [_ Hacc].
    destruct Hacc as (Nd & M' & f' & T' & Hc & _ & _ & _ & HT & _ & _ & Hs).
    + repeat constructor; intros [|[|i]] Hi; done.
    + simpl. lia.
    + eexists. reflexivity.
    + exists Nd, M', T'. split_and!; [done..|]. by apply Hs.
  - destruct (createConcat_spec 0 "concat" [0; 1]%nat 0 concat_example
                _ (Type_plain FloatTy [4; 10]) HF eq_refl) as [Hrej _].
    apply Hrej. intros HA.
    apply Forall_cons in HA as [_ HA].
    apply Forall_cons in HA as [(_ & _ & H) _].
    specialize (H 1%nat ltac:(lia)). discriminate.
Defined.

(** ** Builders that take the result type from the caller or an operand *)

(** C10.  For each of the element-wise binary builders (Add, Mul, Sub,
    Div, Max, Min and CmpLTE alike), when the operands are live and their
    shapes are equal, the builder succeeds on a Function of the Module and
    the node it appends has one result, whose type is the very [TypeRef] of
    the left operand; the pool is untouched, so element kind, shape and
    quantization parameters are those of the left operand. *)
Theorem createArith_type (k : ArithKind) (F : nat) (name : string)
    (LHS RHS : NodeValue) (M : Module) (T : TypeRef) (dims : list N) :
  NodeValue_getType M LHS = Some T →
  NodeValue_dims M LHS = Some dims →
  NodeValue_dims M RHS = Some dims →
  is_Some (functions_ M !! F) →
  ∃ Nd M' nd,
    createArith k F name LHS RHS M = Some (Nd, M')
    ∧ getNode M' Nd = Some nd
    ∧ kind_ nd = ArithKind_kind k
    ∧ resTypes_ nd = [T]
    ∧ inputs_ nd = [LHS; RHS]
    ∧ NodeValue_getType M' (NodeValue_of Nd) = Some T
    ∧ types_ M' = types_ M
    ∧ derefType (types_ M') T = derefType (types_ M) T.
Proof.
  intros HT HL HR [f Hf].
  unfold createArith. rewrite HT. cbn [mbind option_bind].
  unfold createArith_T. rewrite HL, HR. cbn [mbind option_bind].
  rewrite bool_decide_eq_true_2 by done.
  set (nd := ArithNode_new k name T LHS RHS).
  destruct (addNode_newNode F nd M f Hf)
    as (M' & Hadd & Hget & Ht & _ & _ & _).
  simpl in Hadd. unfold newNode. rewrite Hadd.
  exists (length (heap_ M)), M', nd. split_and!; try done.
  - unfold NodeValue_getType, Node_getType. simpl. by rewrite Hget.
  - by rewrite Ht.
Qed.

Lemma createArith_type_witness :
  ∃ Nd M',
    createCmpLTE 0 "cmp" (mkNodeValue 0 0) (mkNodeValue 0 0) concat_example
    = Some (Nd, M')
    ∧ NodeValue_getType M' (NodeValue_of Nd) = Some (PoolRef 0)
    ∧ elementType_ <$> derefType (types_ M') (PoolRef 0) = Some FloatTy.
Proof.
  destruct (createArith_type CmpLTE 0 "cmp" (mkNodeValue 0 0)
              (mkNodeValue 0 0) concat_example (PoolRef 0) [4; 10])
    as (Nd & M' & nd & Hc & _ & _ & _ & _ & Hty & _ & Hd).
  - reflexivity.
  - reflexivity.
  - reflexivity.
  - eexists. reflexivity.
  - exists Nd, M'. split_and!; [exact Hc|exact Hty|]. by rewrite Hd.
Defined.

(** The builders that take the result type from the caller append the
    node with that very reference: the type is not interned and the pool is
    left as it is. *)
Lemma outTy_builders_keep_reference (F : nat) (name : string)
    (inputs : list addr) (dimension : nat) (outTy : TypeRef)
    (batch sample : NodeValue) (M : Module) :
  is_Some (functions_ M !! F) →
  (∃ Nd M', createConcat_outTy F name inputs dimension outTy M
            = Some (Nd, M')
      ∧ Node_getType M' Nd 0 = Some outTy ∧ types_ M' = types_ M)
  ∧ (∃ Nd M', createBatchedAdd_outTy F name outTy batch sample M
              = Some (Nd, M')
      ∧ Node_getType M' Nd 0 = Some outTy ∧ types_ M' = types_ M).
Proof.
  intros [f Hf]. split.
  - unfold createConcat_outTy.
    set (nd := ConcatNode_new _ _ _ _).
    destruct (addNode_newNode F nd M f Hf)
      as (M' & Hadd & Hget & Ht & _ & _ & _).
    simpl in Hadd. simpl. rewrite Hadd.
    eexists _, M'. split; [reflexivity|].
    unfold Node_getType. by rewrite Hget.
  - unfold createBatchedAdd_outTy.
    set (nd := BatchedAddNode_new _ _ _ _).
    destruct (addNode_newNode F nd M f Hf)
      as (M' & Hadd & Hget & Ht & _ & _ & _).
    simpl in Hadd. simpl. rewrite Hadd.
    eexists _, M'. split; [reflexivity|].
    unfold Node_getType. by rewrite Hget.
Qed.

(** C7, the code at a failing input.  Concatenating float[4,10] and
    float[4,6] with a caller-supplied result type float[4,16] that lives
    outside the pool: the node carries the foreign reference and the pool
    still holds only the two operand types.  The same happens for
    [createBatchedAdd] and [createFullyConnected] with a caller-supplied
    type. *)
Theorem outTy_not_from_pool :
  let outTy := ForeignRef (Type_plain FloatTy [4; 16]) in
  (∃ Nd M',
     createConcat_outTy 0 "concat" [0; 1]%nat 1 outTy concat_example
     = Some (Nd, M')
     ∧ Node_getType M' Nd 0 = Some outTy
     ∧ types_ M' = types_ concat_example
     ∧ ∀ i, poolGet (types_ M') i ≠ Some (Type_plain FloatTy [4; 16]))
  ∧ (∃ Nd M',
       createBatchedAdd_outTy 0 "badd" outTy (mkNodeValue 0 0)
         (mkNodeValue 1 0) concat_example = Some (Nd, M')
       ∧ Node_getType M' Nd 0 = Some outTy
       ∧ types_ M' = types_ concat_example)
  ∧ (∃ Nd M',
       createFullyConnected_outTy 0 "fc" (mkNodeValue 0 0) 0 1
         (ForeignRef (Type_plain FloatTy [4; 6])) concat_example
       = Some (Nd, M')
       ∧ Node_getType M' Nd 0 = Some (ForeignRef (Type_plain FloatTy [4; 6]))
       ∧ types_ M' = types_ concat_example).
Proof.
  split_and!.
  - eexists _, _. split; [reflexivity|]. split_and!; [reflexivity..|].
    intros [|[|i]]; by vm_compute.
  - eexists _, _. split; [reflexivity|]. by split_and!.
  - eexists _, _. split; [reflexivity|]. by split_and!.
Qed.

(** ** Erasing *)

Lemma std_find_Some l x pos :
  std_find l x = Some pos →
  l !! pos = Some x ∧ ∀ j, (j < pos)%nat → l !! j ≠ Some x.
Proof.
  revert pos. induction l as [|y l IH]; intros pos; simpl; [done|].
  case_decide as Hy.
  - intros [= <-]. subst. split; [done|]. intros j Hj. lia.
  - destruct (std_find l x) as [p|]; simpl; [|done].
    intros [= <-]. destruct (IH p eq_refl) as [Hp Hmin]. split; [done|].
    intros [|j] Hj; simpl; [congruence|]. apply Hmin. lia.
Qed.

Lemma std_find_None l x : std_find l x = None ↔ x ∉ l.
Proof.
  induction l as [|y l IH]; simpl.
  - split; [intros _; apply not_elem_of_nil|done].
  - rewrite not_elem_of_cons. case_decide as Hy.
    + split; [done|]. intros [Hne _]. by subst.
    + destruct (std_find l x); simpl.
      * split; [done|]. intros [_ Hn]. by apply IH in Hn.
      * split; [|done]. intros _. split; [done|]. by apply IH.
Qed.

Lemma std_find_is_Some l x : is_Some (std_find l x) ↔ x ∈ l.
Proof.
  destruct (std_find l x) eqn:E.
  - split; [|by eauto]. intros _. apply std_find_Some in E as [E _].
    by eapply list_elem_of_lookup_2.
  - apply std_find_None in E. split; [by intros []|done].
Qed.

Lemma deleteNode_live a M x :
  getNode M a = Some x →
  deleteNode a M = Some (set_heap (<[a := None]> (heap_ M)) M).
Proof. intros H. unfold deleteNode. by rewrite H. Qed.

Lemma getNode_deleted a M :
  getNode (set_heap (<[a := None]> (heap_ M)) M) a = None.
Proof.
  unfold getNode. simpl.
  destruct (decide (a < length (heap_ M))%nat).
  - by rewrite list_lookup_insert_eq.
  - rewrite lookup_ge_None_2; [done|]. rewrite length_insert. lia.
Qed.

Lemma eraseVariable_undefined V M : eraseVariable V M = None.
Proof.
  unfold eraseVariable, eraseVariable_it. cbn zeta.
  destruct (std_find (vars_ M) V) as [p|]; [|done]. cbn [mbind option_bind].
  destruct (vars_ M !! p) as [W|]; [|done]. cbn [mbind option_bind].
  by destruct (deleteNode W M).
Qed.




(** ** Verification *)

Lemma checkNames_app M l1 l2 m :
  checkNames M (l1 ++ l2)%list m =
  match checkNames M l1 m with
  | inl e => inl e
  | inr m1 => checkNames M l2 m1
  end.
Proof.
  revert m. induction l1 as [|a l1 IH]; intros m; simpl; [done|].
  destruct (getNode M a) as [n|]; [|done].
  destruct (m !! name_ n); [done|]. apply IH.
Qed.

Lemma namesOf_cons M a l :
  namesOf M (a :: l) = (name_ <$> getNode M a) :: namesOf M l.
Proof. reflexivity. Qed.

Lemma allLive_cons M a l :
  allLive M (a :: l) ↔ is_Some (getNode M a) ∧ allLive M l.
Proof. unfold allLive. by rewrite Forall_cons. Qed.

(** The name loops succeed exactly when the listed objects are live, their
    names pairwise distinct, and none of them is in the map already. *)
Lemma checkNames_ok M l m :
  (∃ m', checkNames M l m = inr m') ↔
  allLive M l ∧ NoDup (namesOf M l)
  ∧ ∀ a n, a ∈ l → getNode M a = Some n → m !! name_ n = None.
Proof.
  revert m. induction l as [|a l IH]; intros m.
  - simpl. split; [|by eauto].
    intros _. split_and!; [constructor|constructor|].
    by intros a n ?%elem_of_nil.
  - cbn [checkNames]. rewrite allLive_cons, namesOf_cons, NoDup_cons.
    destruct (getNode M a) as [n|] eqn:Ha.
    + destruct (m !! name_ n) as [prev|] eqn:Hm.
      * split; [by intros [? ?]|]. intros (_ & _ & Hfresh).
        specialize (Hfresh a n (list_elem_of_here _ _) Ha). congruence.
      * rewrite IH. split.
        -- intros (Hlive & Hnd & Hfresh). split_and!; [by eauto|done| |done|].
           ++ simpl. intros Hin. unfold namesOf in Hin.
              apply list_elem_of_fmap in Hin as (b & Hb & Hbin).
              destruct (getNode M b) as [nb|] eqn:Hgb; [|done].
              simpl in Hb. injection Hb as Hb.
              specialize (Hfresh b nb Hbin Hgb). rewrite <- Hb in Hfresh.
              by rewrite lookup_insert_eq in Hfresh.
           ++ intros b nb [->|Hbin]%elem_of_cons Hgb.
              ** congruence.
              ** specialize (Hfresh b nb Hbin Hgb).
                 apply lookup_insert_None in Hfresh. tauto.
        -- intros ((_ & Hlive) & (Hnotin & Hnd) & Hfresh).
           split_and!; [done..|]. intros b nb Hbin Hgb.
           apply lookup_insert_None. split.
           ++ apply (Hfresh b nb); [by apply list_elem_of_further|done].
           ++ intros Heq. apply Hnotin. simpl. unfold namesOf.
              apply list_elem_of_fmap. exists b. rewrite Hgb. simpl.
              split; [by rewrite Heq|done].
    + split; [by intros [? ?]|]. intros ((Hl & _) & _). by destruct Hl.
Qed.

(** A failing name loop reports a listed object that is not live, or two
    definitions of one name: the current one and the one recorded before. *)
Lemma checkNames_conflict M l m e :
  checkNames M l m = inl e →
  (∃ a, e = BadPointer a ∧ a ∈ l ∧ getNode M a = None)
  ∨ (∃ cur prev j nc,
       e = NameConflict cur prev
       ∧ l !! j = Some cur ∧ getNode M cur = Some nc
       ∧ (m !! name_ nc = Some prev
          ∨ ∃ i np, (i < j)%nat ∧ l !! i = Some prev
                    ∧ getNode M prev = Some np ∧ name_ np = name_ nc)).
Proof.
  revert m. induction l as [|a l IH]; intros m; simpl; [done|].
  destruct (getNode M a) as [n|] eqn:Ha.
  - destruct (m !! name_ n) as [prev|] eqn:Hm.
    + intros [= <-]. right. exists a, prev, 0%nat, n. by eauto.
    + intros He. destruct (IH _ He) as [(b & -> & Hb & Hgb)|Hc].
      * left. exists b. split_and!; [done| |done].
        by apply list_elem_of_further.
      * right. destruct Hc as (cur & prev & j & nc & -> & Hj & Hgc & Hprev).
        exists cur, prev, (S j), nc. split_and!; [done..|].
        destruct Hprev as [Hprev|(i & np & Hi & Hli & Hgp & Hnp)].
        -- apply lookup_insert_Some in Hprev as [[Hname <-]|[_ Hprev]].
           ++ right. exists 0%nat, n. split_and!; [lia|done..].
           ++ by left.
        -- right. exists (S i), np. split_and!; [lia|done..].
  - intros [= <-]. left. exists a. split_and!; [done| |done].
    apply list_elem_of_here.
Qed.

Lemma inputResolves_spec nodes vars input :
  inputResolves nodes vars input = true ↔ resolves nodes vars input.
Proof.
  unfold inputResolves, resolves.
  rewrite orb_true_iff, !bool_decide_eq_true, !std_find_is_Some. done.
Qed.

Lemma checkNodeInputs_ok nodes vars Nd idx ins :
  checkNodeInputs nodes vars Nd idx ins = VerifyOk
  ↔ Forall (resolves nodes vars) ins.
Proof.
  revert idx. induction ins as [|input ins IH]; intros idx; simpl.
  - split; [constructor|done].
  - rewrite Forall_cons, <- inputResolves_spec.
    destruct (inputResolves nodes vars input).
    + rewrite IH. tauto.
    + split; [done|]. by intros [? _].
Qed.

Lemma checkNodeInputs_fail nodes vars Nd idx ins e :
  checkNodeInputs nodes vars Nd idx ins = e → e ≠ VerifyOk →
  ∃ k input, e = DanglingInput Nd (idx + k)
    ∧ ins !! k = Some input ∧ ¬ resolves nodes vars input.
Proof.
  revert idx. induction ins as [|input ins IH]; intros idx; simpl.
  - by intros <-.
  - destruct (inputResolves nodes vars input) eqn:Hr.
    + intros He Hne. destruct (IH _ He Hne) as (k & i & -> & Hk & Hn).
      exists (S k), i. split_and!; [f_equal; lia|done..].
    + intros <- _. exists 0%nat, input. split_and!; [f_equal; lia|done|].
      rewrite <- inputResolves_spec. by rewrite Hr.
Qed.

Lemma checkEdges_ok M nodes vars l :
  allLive M l →
  checkEdges M nodes vars l = VerifyOk
  ↔ ∀ Nd n input, Nd ∈ l → getNode M Nd = Some n → input ∈ inputs_ n →
                  resolves nodes vars input.
Proof.
  induction l as [|Nd l IH]; intros Hlive.
  - simpl. split; [|done]. by intros _ Nd n input ?%elem_of_nil.
  - apply allLive_cons in Hlive as [[n Hn] Hlive]. cbn [checkEdges].
    rewrite Hn.
    pose proof (checkNodeInputs_ok nodes vars Nd 0 (inputs_ n)) as Hok.
    destruct (decide (checkNodeInputs nodes vars Nd 0 (inputs_ n) = VerifyOk))
      as [Hc|Hc].
    + rewrite Hc. apply Hok in Hc. rewrite (IH Hlive). split.
      * intros Hall b nb input [->|Hb]%elem_of_cons Hgb Hin.
        -- assert (nb = n) as -> by congruence.
           by eapply Forall_forall in Hc.
        -- by eapply Hall.
      * intros Hall b nb input Hb. apply Hall. by apply list_elem_of_further.
    + split.
      * intros He. destruct (checkNodeInputs nodes vars Nd 0 (inputs_ n));
          congruence.
      * intros Hall. exfalso. apply Hc, Hok.
        apply Forall_forall. intros input Hin.
        apply (Hall Nd n input); [apply list_elem_of_here|done..].
Qed.

Lemma checkEdges_fail M nodes vars l e :
  allLive M l →
  checkEdges M nodes vars l = e → e ≠ VerifyOk →
  ∃ Nd n idx input,
    e = DanglingInput Nd idx ∧ Nd ∈ l ∧ getNode M Nd = Some n
    ∧ inputs_ n !! idx = Some input ∧ ¬ resolves nodes vars input.
Proof.
  induction l as [|Nd l IH]; intros Hlive.
  - simpl. by intros <-.
  - apply allLive_cons in Hlive as [[n Hn] Hlive]. cbn [checkEdges].
    rewrite Hn.
    destruct (checkNodeInputs nodes vars Nd 0 (inputs_ n)) eqn:Hc.
    + intros He Hne. destruct (IH Hlive He Hne)
        as (b & nb & idx & input & -> & Hb & Hgb & Hi & Hr).
      exists b, nb, idx, input. split_and!; [done| |done..].
      by apply list_elem_of_further.
    + intros <- _. by apply checkNodeInputs_fail in Hc as (? & ? & ? & _).
    + intros <- _.
      apply checkNodeInputs_fail in Hc as (k & input & [= -> ->] & Hk & Hr);
        [|done].
      exists Nd, n, k, input. split_and!; [done| |done..].
      apply list_elem_of_here.
    + intros <- _. by apply checkNodeInputs_fail in Hc as (? & ? & ? & _).
    + intros <- _. by apply checkNodeInputs_fail in Hc as (? & ? & ? & _).
Qed.

Lemma checkLocal_ok nodeVerify M l :
  checkLocal nodeVerify M l = VerifyOk
  ↔ Forall (λ Nd, nodeVerify M Nd = true) l.
Proof.
  induction l as [|Nd l IH]; simpl.
  - split; [constructor|done].
  - rewrite Forall_cons. destruct (nodeVerify M Nd).
    + rewrite IH. tauto.
    + split; [done|]. by intros [? _].
Qed.

Lemma checkLocal_result nodeVerify M l :
  checkLocal nodeVerify M l = VerifyOk
  ∨ ∃ Nd, checkLocal nodeVerify M l = NodeInvalid Nd.
Proof.
  induction l as [|Nd l IH]; simpl; [by left|].
  destruct (nodeVerify M Nd); [done|]. right. by exists Nd.
Qed.

Lemma Function_verify_names nodeVerify M f :
  Function_verify nodeVerify M f =
  match checkNames M (vars_ M ++ nodes_ f)%list ∅ with
  | inl e => e
  | inr _ =>
      match checkEdges M (nodes_ f) (vars_ M) (nodes_ f) with
      | VerifyOk => checkLocal nodeVerify M (nodes_ f)
      | e => e
      end
  end.
Proof.
  unfold Function_verify. rewrite checkNames_app.
  by destruct (checkNames M (vars_ M) ∅).
Qed.

Lemma allLive_app M l1 l2 :
  allLive M (l1 ++ l2)%list ↔ allLive M l1 ∧ allLive M l2.
Proof. unfold allLive. by rewrite Forall_app. Qed.

(** C1 (amended).  [Function::verify] succeeds exactly when every listed
    Variable and node is a live object, no name occurs twice across the
    Module's Variables followed by the Function's nodes, every positional
    input of every node of the Function is a node of the Function or a
    Variable of the Module, and every node passes its own [verify].  A name
    collision is reported with both definitions, the current one and the
    earlier one of the same name; when the names are fine, an input that
    resolves to neither list is reported as a violation. *)
Theorem Function_verify_spec (nodeVerify : Module → addr → bool)
    (M : Module) (f : Function) :
  let all := (vars_ M ++ nodes_ f)%list in
  (Function_verify nodeVerify M f = VerifyOk
   ↔ allLive M all ∧ NoDup (namesOf M all) ∧ inputsResolve M f
     ∧ Forall (λ Nd, nodeVerify M Nd = true) (nodes_ f))
  ∧ (∀ cur prev,
       Function_verify nodeVerify M f = NameConflict cur prev →
       ∃ i j nc np,
         (i < j)%nat ∧ all !! i = Some prev ∧ all !! j = Some cur
         ∧ getNode M cur = Some nc ∧ getNode M prev = Some np
         ∧ name_ np = name_ nc)
  ∧ (allLive M all → ¬ NoDup (namesOf M all) →
     ∃ cur prev, Function_verify nodeVerify M f = NameConflict cur prev)
  ∧ (allLive M all → NoDup (namesOf M all) → ¬ inputsResolve M f →
     ∃ Nd n idx input,
       Function_verify nodeVerify M f = DanglingInput Nd idx
       ∧ Nd ∈ nodes_ f ∧ getNode M Nd = Some n
       ∧ inputs_ n !! idx = Some input
       ∧ ¬ resolves (nodes_ f) (vars_ M) input).
Proof.
  intros all. rewrite Function_verify_names. fold all.
  pose proof (checkNames_ok M all ∅) as Hok.
  pose proof (checkNames_conflict M all ∅) as Hconf.
  assert (∀ (l : list addr) a n,
            a ∈ l → getNode M a = Some n →
            (∅ : gmap string addr) !! name_ n = None) as Hempty.
  { intros l a n _ _. apply lookup_empty. }
  destruct (checkNames M all ∅) as [e|m'] eqn:Hcn.
  - assert (¬ (allLive M all ∧ NoDup (namesOf M all))) as Hnot.
    { intros [H1 H2].
      destruct (proj2 Hok (conj H1 (conj H2 (Hempty all)))) as [? ?]. done. }
    split_and!.
    + split.
      * intros ->. destruct (Hconf _ eq_refl) as [(? & ? & _)|(? & ? & ? & ? & ? & _)];
          done.
      * intros (H1 & H2 & _). by destruct Hnot.
    + intros cur prev ->.
      destruct (Hconf _ eq_refl) as [(? & ? & _)|Hc]; [done|].
      destruct Hc as (cur' & prev' & j & nc & [= <- <-] & Hj & Hgc & Hprev).
      destruct Hprev as [Hprev|(i & np & Hi & Hli & Hgp & Hnp)].
      * by rewrite lookup_empty in Hprev.
      * by exists i, j, nc, np.
    + intros Hlive _.
      destruct (Hconf _ eq_refl) as [(a & -> & Ha & Hga)|Hc].
      * unfold allLive in Hlive. rewrite Forall_forall in Hlive.
        destruct (Hlive a Ha) as [? ?]. congruence.
      * destruct Hc as (cur & prev & _ & _ & -> & _). by eauto.
    + intros H1 H2. by destruct Hnot.
  - destruct (proj1 Hok (ex_intro _ m' eq_refl)) as (Hlive & Hnd & _).
    assert (allLive M (nodes_ f)) as Hlive_n.
    { by apply allLive_app in Hlive as [_ ?]. }
    pose proof (checkEdges_ok M (nodes_ f) (vars_ M) (nodes_ f) Hlive_n)
      as Hedges.
    pose proof (checkEdges_fail M (nodes_ f) (vars_ M) (nodes_ f) _
                  Hlive_n eq_refl) as Hfail.
    fold (inputsResolve M f) in Hedges.
    destruct (decide (checkEdges M (nodes_ f) (vars_ M) (nodes_ f) = VerifyOk))
      as [Hce|Hce].
    + pose proof (proj1 Hedges Hce) as Hres. rewrite Hce. split_and!.
      * rewrite checkLocal_ok. tauto.
      * intros cur prev Hl.
        destruct (checkLocal_result nodeVerify M (nodes_ f)) as [?|[? ?]];
          congruence.
      * intros _ Hn. done.
      * intros _ _ Hn. done.
    + destruct (Hfail Hce) as (Nd & n & idx & input & He & Hin & Hg & Hi & Hr).
      rewrite He. split_and!.
      * split; [done|]. intros (_ & _ & Hres & _).
        apply Hedges in Hres. congruence.
      * done.
      * intros _ Hn. done.
      * intros _ _ _. by exists Nd, n, idx, input.
Qed.

Lemma Function_verify_spec_witness :
  ∃ Nd n idx input,
    Function_verify (λ _ _, true) dangling_example (mkFunction "main" [1%nat])
    = DanglingInput Nd idx
    ∧ Nd ∈ [1%nat] ∧ getNode dangling_example Nd = Some n
    ∧ inputs_ n !! idx = Some input
    ∧ ¬ resolves [1%nat] [0%nat] input.
Proof.
  destruct (Function_verify_spec (λ _ _, true) dangling_example
              (mkFunction "main" [1%nat])) as (_ & _ & _ & Hdangling).
  apply Hdangling.
  - repeat constructor; eexists; reflexivity.
  - apply NoDup_cons. split; [|apply NoDup_singleton].
    intros Hin%list_elem_of_singleton. discriminate.
  - intros Hres.
    destruct (Hres 1%nat _ (mkNodeValue 7 0) (list_elem_of_here _ _) eq_refl)
      as [Hin|Hin].
    + apply list_elem_of_further, list_elem_of_here.
    + apply list_elem_of_singleton in Hin. discriminate.
    + apply list_elem_of_singleton in Hin. discriminate.
Defined.

(** C1, counterexample.  With a dangling predicate edge [verify] still
    succeeds: only the positional inputs are looked up.  And with distinct
    names and every input and predicate edge resolved, [verify] fails as
    soon as a node's own [verify] does. *)
Lemma Function_verify_not_only_names_and_edges :
  (Function_verify (λ _ _, true) verify_example (mkFunction "main" [1%nat])
   = VerifyOk
   ∧ ¬ predicatesResolve verify_example (mkFunction "main" [1%nat]))
  ∧ (Function_verify (λ _ _, false) closed_example (mkFunction "main" [1%nat])
     = NodeInvalid 1
     ∧ NoDup (namesOf closed_example [0; 1]%nat)
     ∧ inputsResolve closed_example (mkFunction "main" [1%nat])
     ∧ predicatesResolve closed_example (mkFunction "main" [1%nat])).
Proof.
  split; [split|split_and!].
  - reflexivity.
  - intros Hres.
    destruct (Hres 1%nat _ (mkNodeValue 5 0) (list_elem_of_here _ _) eq_refl
                eq_refl) as [Hin|Hin];
      apply list_elem_of_singleton in Hin; discriminate.
  - reflexivity.
  - apply NoDup_cons. split; [|apply NoDup_singleton].
    intros Hin%list_elem_of_singleton. discriminate.
  - intros Nd n input ->%list_elem_of_singleton [= <-] Hin. right.
    apply list_elem_of_singleton. simpl in Hin.
    apply elem_of_cons in Hin as [->|Hin]; [done|].
    by apply list_elem_of_singleton in Hin as ->.
  - intros Nd n p ->%list_elem_of_singleton [= <-] [= <-]. right.
    by apply list_elem_of_singleton.
Qed.

(** C9.  [Module::verify] succeeds exactly when the [verify] of every
    Function of the Module does, so it succeeds for every Module without
    Functions, whatever its Variables are. *)
Theorem Module_verify_spec (nodeVerify : Module → addr → bool) (M : Module) :
  (Module_verify nodeVerify M = VerifyOk
   ↔ Forall (λ f, Function_verify nodeVerify M f = VerifyOk) (functions_ M))
  ∧ (functions_ M = [] → Module_verify nodeVerify M = VerifyOk).
Proof.
  unfold Module_verify. split.
  - induction (functions_ M) as [|f fs IH]; simpl.
    + split; [constructor|done].
    + rewrite Forall_cons.
      destruct (Function_verify nodeVerify M f) eqn:Hf;
        first [rewrite IH; tauto | split; [done|by intros [? _]]].
  - by intros ->.
Qed.

(** Two Variables named "x" in a Module without Functions: [Module::verify]
    succeeds, while the [verify] of any Function of that Module, even an
    empty one, reports the two definitions. *)
Lemma Module_verify_spec_witness :
  Module_verify (λ _ _, true) dup_example = VerifyOk
  ∧ name_ <$> getNode dup_example 0 = name_ <$> getNode dup_example 1
  ∧ Function_verify (λ _ _, true) dup_example (mkFunction "main" [])
    = NameConflict 1 0.
Proof.
  split_and!.
  - apply (Module_verify_spec (λ _ _, true) dup_example). reflexivity.
  - reflexivity.
  - reflexivity.
Defined.

(** ** Cloning *)

Lemma cloneMap_notin l h m a :
  a ∉ l → cloneMap l h m !! a = m !! a.
Proof.
  revert h m. induction l as [|b l IH]; intros h m Hn; simpl; [done|].
  apply not_elem_of_cons in Hn as [Hne Hn].
  rewrite IH by done. by rewrite lookup_insert_ne.
Qed.

Lemma cloneMap_in l h m i a :
  NoDup l → l !! i = Some a → cloneMap l h m !! a = Some (h + i)%nat.
Proof.
  revert h m i. induction l as [|b l IH]; intros h m i Hnd Hi; [done|].
  apply NoDup_cons in Hnd as [Hb Hnd]. simpl. destruct i as [|i]; simpl in Hi.
  - injection Hi as ->. rewrite cloneMap_notin by done.
    rewrite lookup_insert_eq. f_equal. lia.
  - rewrite (IH _ _ i) by done. f_equal. lia.
Qed.

Lemma cloneMap_dom l h m :
  dom (cloneMap l h m) = list_to_set l ∪ dom m.
Proof.
  revert h m. induction l as [|b l IH]; intros h m; simpl.
  - by rewrite (left_id_L ∅ (∪)).
  - rewrite IH, dom_insert_L.
    rewrite !(assoc_L (∪)). f_equal. apply (comm_L (∪)).
Qed.

Lemma getNode_app_l M ns a x :
  getNode M a = Some x →
  getNode (set_heap (heap_ M ++ ns) M) a = Some x.
Proof.
  rewrite !getNode_lookup. simpl. intros H.
  rewrite lookup_app_l; [done|]. by eapply lookup_lt_Some.
Qed.

(** The first loop of [clone] in closed form: the copies are allocated one
    after the other behind the store and appended to the new Function. *)
Lemma cloneNodes_spec newF l m M ns fnew :
  functions_ M !! newF = Some fnew →
  Forall2 (λ a n, getNode M a = Some n) l ns →
  cloneNodes newF l m M
  = Some (cloneMap l (length (heap_ M)) m,
          mkModule (heap_ M ++ (Some <$> ns))
            (<[newF := mkFunction (fname_ fnew)
                         (nodes_ fnew ++ seq (length (heap_ M)) (length l))]>
               (functions_ M))
            (types_ M) (vars_ M) (uniqueIdx_ M)).
Proof.
  revert ns m M fnew.
  induction l as [|a l IH]; intros ns m M fnew Hf HF.
  - apply Forall2_nil_inv_l in HF as ->.
    simpl. do 2 f_equal. destruct M, fnew; simpl in *.
    rewrite !app_nil_r. f_equal. by rewrite list_insert_id.
  - apply Forall2_cons_inv_l in HF as (n & ns' & Ha & HF & ->).
    cbn [cloneNodes]. rewrite Ha. cbn [mbind option_bind].
    unfold Node_clone, newNode, addNode. simpl. rewrite Hf. simpl.
    set (M2 := set_functions _ _).
    assert (functions_ M2 !! newF
            = Some (mkFunction (fname_ fnew)
                      (nodes_ fnew ++ [length (heap_ M)]))) as Hf2.
    { subst M2. simpl. rewrite list_lookup_insert_eq; [done|].
      by eapply lookup_lt_Some. }
    rewrite (IH ns' (<[a := length (heap_ M)]> m) M2 _ Hf2).
    + f_equal. subst M2. simpl. rewrite length_app. simpl.
      rewrite Nat.add_1_r. f_equal. f_equal.
      * by rewrite <- app_assoc.
      * rewrite list_insert_insert_eq. by rewrite <- app_assoc.
    + eapply Forall2_impl; [exact HF|]. intros b nb Hb.
      subst M2. rewrite getNode_lookup in *. simpl.
      rewrite lookup_app_l; [done|]. by eapply lookup_lt_Some.
Qed.

Lemma fixInput_mapped M cur input c :
  cur !! nv_node input = Some c →
  fixInput M cur input = Some (mkNodeValue c (nv_resNo input)).
Proof. intros H. unfold fixInput. by rewrite H. Qed.

Lemma fixInput_ok M cur input :
  is_Some (cur !! nv_node input)
  ∨ isaVariable M (nv_node input) = Some true →
  fixInput M cur input = Some (fixedInput cur input).
Proof.
  unfold fixInput, fixedInput.
  destruct (cur !! nv_node input) as [c|]; [done|].
  intros [[? ?]| ->]; done.
Qed.

Lemma fixInput_fail M cur input :
  cur !! nv_node input = None →
  isaVariable M (nv_node input) ≠ Some true →
  fixInput M cur input = None.
Proof.
  intros Hc Hv. unfold fixInput. rewrite Hc.
  by destruct (isaVariable M (nv_node input)) as [[]|].
Qed.

Lemma mapM_fixInput_ok M cur ins :
  Forall (λ input, is_Some (cur !! nv_node input)
                   ∨ isaVariable M (nv_node input) = Some true) ins →
  mapM (fixInput M cur) ins = Some (fixedInput cur <$> ins).
Proof.
  intros HF. apply mapM_Some. apply Forall2_fmap_r, Forall_Forall2_diag.
  eapply Forall_impl; [exact HF|]. intros input. apply fixInput_ok.
Qed.

(** What one pass of the inner loop does to the Module. *)
Lemma fixNode_inv cur b M M' :
  fixNode cur b M = Some M' →
  ∃ n ins, getNode M b = Some n
    ∧ mapM (fixInput M cur) (inputs_ n) = Some ins
    ∧ M' = set_heap (<[b := Some (setInputs ins n)]> (heap_ M)) M.
Proof.
  unfold fixNode. destruct (getNode M b) as [n|] eqn:Hn; [|done].
  cbn [mbind option_bind].
  destruct (mapM (fixInput M cur) (inputs_ n)) as [ins|] eqn:Hmap; [|done].
  cbn [mbind option_bind]. rewrite (storeNode_live _ _ _ _ Hn).
  intros [= <-]. by exists n, ins.
Qed.

Lemma isaVariable_store M b n a :
  a ≠ b →
  isaVariable (set_heap (<[b := Some n]> (heap_ M)) M) a = isaVariable M a.
Proof.
  intros Hne. unfold isaVariable, getNode. simpl.
  by rewrite list_lookup_insert_ne.
Qed.

Lemma getNode_store_ne M b n a :
  a ≠ b →
  getNode (set_heap (<[b := Some n]> (heap_ M)) M) a = getNode M a.
Proof.
  intros Hne. unfold getNode. simpl. by rewrite list_lookup_insert_ne.
Qed.

(** The second loop of [clone] over distinct new nodes [bs], all at or
    above [h0], whose inputs are mapped or point at Variables below [h0]:
    every node of [bs] has its inputs rewritten, and nothing else
    changes. *)
Lemma fixNodes_spec cur h0 bs M :
  NoDup bs → Forall (λ b, h0 ≤ b)%nat bs →
  (∀ b, b ∈ bs →
     ∃ n, getNode M b = Some n
       ∧ Forall (λ input,
                   is_Some (cur !! nv_node input)
                   ∨ ((nv_node input < h0)%nat
                      ∧ isaVariable M (nv_node input) = Some true))
           (inputs_ n)) →
  ∃ M', fixNodes cur bs M = Some M'
    ∧ functions_ M' = functions_ M ∧ types_ M' = types_ M
    ∧ vars_ M' = vars_ M ∧ uniqueIdx_ M' = uniqueIdx_ M
    ∧ length (heap_ M') = length (heap_ M)
    ∧ (∀ a, a ∉ bs → heap_ M' !! a = heap_ M !! a)
    ∧ (∀ b n, b ∈ bs → getNode M b = Some n →
         getNode M' b = Some (setInputs (fixedInput cur <$> inputs_ n) n)).
Proof.
  revert M. induction bs as [|b bs IH]; intros M Hnd Hge Hin.
  - exists M. simpl. split_and!; try done. by intros b n ?%elem_of_nil.
  - apply NoDup_cons in Hnd as [Hb Hnd].
    apply Forall_cons in Hge as [Hbge Hge].
    destruct (Hin b (list_elem_of_here _ _)) as (n & Hn & Hins).
    cbn [fixNodes]. unfold fixNode. rewrite Hn. cbn [mbind option_bind].
    rewrite (mapM_fixInput_ok M cur (inputs_ n)).
    2:{ eapply Forall_impl; [exact Hins|]. intros input [?|[_ ?]]; eauto. }
    cbn [mbind option_bind]. rewrite (storeNode_live _ _ _ _ Hn).
    cbn [mbind option_bind].
    set (n' := setInputs (fixedInput cur <$> inputs_ n) n).
    set (M1 := set_heap (<[b := Some n']> (heap_ M)) M).
    destruct (IH M1 Hnd Hge) as (M' & HM' & Hf & Ht & Hv & Hu & Hl & Hout & Hnew).
    { intros b' Hb'. destruct (Hin b' (list_elem_of_further _ _ _ Hb'))
        as (nb & Hnb & Hinsb).
      assert (b' ≠ b) as Hne by (intros ->; done).
      exists nb. split; [subst M1; by rewrite getNode_store_ne|].
      eapply Forall_impl; [exact Hinsb|]. intros input [?|[Hlt Hv]]; [by left|].
      right. split; [done|]. subst M1. rewrite isaVariable_store; [done|lia]. }
    exists M'. split; [done|]. split_and!; try done.
    + rewrite Hl. subst M1. simpl. by rewrite length_insert.
    + intros a Ha. apply not_elem_of_cons in Ha as [Hab Ha].
      rewrite (Hout a Ha). subst M1. simpl. by rewrite list_lookup_insert_ne.
    + intros b' nb [->|Hb']%elem_of_cons Hgb.
      * assert (nb = n) as -> by congruence.
        unfold getNode. etrans; [exact (f_equal mjoin (Hout b Hb))|].
        subst M1. simpl.
        rewrite list_lookup_insert_eq; [done|]. by eapply getNode_live_lt.
      * apply Hnew; [done|]. subst M1. rewrite getNode_store_ne; [done|].
        intros ->. done.
Qed.

Lemma isaVariable_setInputs M b n ins a :
  getNode M b = Some n →
  isaVariable (set_heap (<[b := Some (setInputs ins n)]> (heap_ M)) M) a
  = isaVariable M a.
Proof.
  intros Hn. destruct (decide (a = b)) as [->|Hne].
  - unfold isaVariable. rewrite Hn. unfold getNode. simpl.
    rewrite list_lookup_insert_eq; [done|]. by eapply getNode_live_lt.
  - by apply isaVariable_store.
Qed.

(** The second loop fails as soon as some input of some new node is
    neither mapped nor a Variable. *)
Lemma fixNodes_fail cur bs M b n input :
  NoDup bs →
  b ∈ bs → getNode M b = Some n → input ∈ inputs_ n →
  cur !! nv_node input = None →
  isaVariable M (nv_node input) ≠ Some true →
  fixNodes cur bs M = None.
Proof.
  revert M. induction bs as [|b0 bs IH]; intros M Hnd Hb Hn Hin Hc Hv.
  - by apply elem_of_nil in Hb.
  - apply NoDup_cons in Hnd as [Hb0 Hnd].
    cbn [fixNodes].
    destruct (fixNode cur b0 M) as [M1|] eqn:Hfix; [|done].
    cbn [mbind option_bind].
    apply fixNode_inv in Hfix as (n0 & ins & Hn0 & Hmap & ->).
    apply elem_of_cons in Hb as [->|Hb].
    + assert (n0 = n) as -> by congruence.
      assert (mapM (fixInput M cur) (inputs_ n) = None) as Hnone.
      { apply mapM_None. apply Exists_exists. exists input.
        split; [done|]. by apply fixInput_fail. }
      congruence.
    + apply IH; try done.
      * rewrite getNode_store_ne; [done|]. intros ->. done.
      * by rewrite (isaVariable_setInputs M b0 n0 ins).
Qed.

Lemma fixNodes_frame cur bs M M' :
  fixNodes cur bs M = Some M' → functions_ M' = functions_ M.
Proof.
  revert M. induction bs as [|b bs IH]; intros M; simpl.
  - by intros [= ->].
  - destruct (fixNode cur b M) as [M1|] eqn:Hfix; [|done].
    cbn [mbind option_bind]. intros HM'. rewrite (IH _ HM').
    by apply fixNode_inv in Hfix as (? & ? & _ & _ & ->).
Qed.

Lemma live_contents M l :
  (∀ a, a ∈ l → is_Some (getNode M a)) →
  ∃ ns, Forall2 (λ a n, getNode M a = Some n) l ns.
Proof.
  induction l as [|a l IH]; intros Hl.
  - by exists [].
  - destruct (Hl a (list_elem_of_here _ _)) as [n Hn].
    destruct IH as [ns Hns].
    { intros b Hb. apply Hl. by apply list_elem_of_further. }
    exists (n :: ns). by constructor.
Qed.

Lemma createFunction_fresh name M :
  hasFunction M name = false →
  createFunction name M
  = Some (length (functions_ M),
          set_functions (functions_ M ++ [mkFunction name []]) M).
Proof. intros H. unfold createFunction. by rewrite H. Qed.

(** [clone] as its two loops: for a Function [F] of the Module whose nodes
    are live, and a name that is not taken. *)
Lemma clone_steps F newName map M f ns :
  functions_ M !! F = Some f →
  hasFunction M newName = false →
  Forall2 (λ a n, getNode M a = Some n) (nodes_ f) ns →
  let h0 := length (heap_ M) in
  let newF := length (functions_ M) in
  let cur := cloneMap (nodes_ f) h0 ∅ in
  let M2 := mkModule (heap_ M ++ (Some <$> ns))
              (functions_ M
               ++ [mkFunction newName (seq h0 (length (nodes_ f)))])
              (types_ M) (vars_ M) (uniqueIdx_ M) in
  clone F newName map M
  = (M3 ← fixNodes cur (seq h0 (length (nodes_ f))) M2;
     map' ← match map with
            | None => Some None
            | Some m => if decide (m = ∅) then Some (Some (m ∪ cur))
                        else None
            end;
     Some (newF, map', M3)).
Proof.
  intros Hf Hname HF h0 newF cur M2.
  unfold clone. rewrite (createFunction_fresh _ _ Hname).
  cbn [mbind option_bind].
  set (M1 := set_functions _ M).
  assert (functions_ M1 !! F = Some f) as Hf1.
  { subst M1. simpl. rewrite lookup_app_l; [done|]. by eapply lookup_lt_Some. }
  assert (functions_ M1 !! newF = Some (mkFunction newName [])) as HnewF.
  { subst M1 newF. simpl. rewrite lookup_app_r by lia.
    by rewrite Nat.sub_diag. }
  fold newF. rewrite Hf1. cbn [mbind option_bind].
  rewrite (cloneNodes_spec newF (nodes_ f) ∅ M1 ns _ HnewF HF).
  cbn [mbind option_bind].
  assert (<[newF := mkFunction newName (seq h0 (length (nodes_ f)))]>
            (functions_ M1)
          = (functions_ M
             ++ [mkFunction newName (seq h0 (length (nodes_ f)))])%list)
    as Hins.
  { subst M1 newF. simpl. rewrite insert_app_r_alt by lia.
    by rewrite Nat.sub_diag. }
  change (length (heap_ M1)) with h0. change (heap_ M1) with (heap_ M).
  change (types_ M1) with (types_ M). change (vars_ M1) with (vars_ M).
  change (uniqueIdx_ M1) with (uniqueIdx_ M).
  change (fname_ (mkFunction newName [])) with newName.
  change (nodes_ (mkFunction newName []) ++ seq h0 (length (nodes_ f)))%list
    with (seq h0 (length (nodes_ f))).
  rewrite Hins. fold M2. fold cur.
  assert (functions_ M2 !! newF
          = Some (mkFunction newName (seq h0 (length (nodes_ f))))) as HnewF2.
  { subst M2 newF. simpl. rewrite lookup_app_r by lia.
    by rewrite Nat.sub_diag. }
  assert (functions_ M2 !! F = Some f) as Hf2.
  { subst M2. simpl. rewrite lookup_app_l; [done|]. by eapply lookup_lt_Some. }
  rewrite HnewF2. cbn [mbind option_bind nodes_].
  destruct (fixNodes cur (seq h0 (length (nodes_ f))) M2) as [M3|] eqn:Hfix;
    [|done].
  cbn [mbind option_bind].
  destruct (match map with
            | Some m => if decide (m = ∅) then Some (Some (m ∪ cur)) else None
            | None => Some None
            end) as [map'|]; [|done].
  cbn [mbind option_bind].
  rewrite (fixNodes_frame _ _ _ _ Hfix), HnewF2, Hf2.
  cbn [mbind option_bind nodes_].
  rewrite decide_True; [done|]. apply length_seq.
Qed.

Lemma isaVariable_app M (M2 : Module) a :
  (a < length (heap_ M))%nat →
  (∃ ns, heap_ M2 = heap_ M ++ ns)%list →
  isaVariable M2 a = isaVariable M a.
Proof.
  intros Hlt [ns Hh]. unfold isaVariable, getNode. rewrite Hh.
  by rewrite lookup_app_l.
Qed.

Lemma getNode_appended M (M2 : Module) (ns : list Node) i :
  heap_ M2 = (heap_ M ++ (Some <$> ns))%list →
  getNode M2 (length (heap_ M) + i) = ns !! i.
Proof.
  intros Hh. unfold getNode. rewrite Hh, lookup_app_r by lia.
  replace (length (heap_ M) + i - length (heap_ M))%nat with i by lia.
  rewrite list_lookup_fmap. by destruct (ns !! i).
Qed.

Lemma clone_fails F newName map M f Nd n input :
  functions_ M !! F = Some f →
  NoDup (nodes_ f) →
  operatorNodes M f →
  hasFunction M newName = false →
  Nd ∈ nodes_ f → getNode M Nd = Some n → input ∈ inputs_ n →
  nv_node input ∉ nodes_ f →
  isaVariable M (nv_node input) ≠ Some true →
  clone F newName map M = None.
Proof.
  intros Hf Hnd Hops Hname HNd Hn Hin Hnot Hv.
  destruct (live_contents M (nodes_ f)) as [ns HF].
  { intros a Ha. destruct (Hops a Ha) as (? & ? & _). by eauto. }
  rewrite (clone_steps F newName map M f ns Hf Hname HF).
  apply list_elem_of_lookup in HNd as [i Hi].
  assert (ns !! i = Some n) as Hni.
  { destruct (Forall2_lookup_l _ _ _ _ _ HF Hi) as (n' & Hn' & Hg).
    congruence. }
  erewrite (fixNodes_fail _ _ _ (length (heap_ M) + i) n input);
    [done|..]; try done.
  - apply NoDup_seq.
  - apply elem_of_seq. apply lookup_lt_Some in Hi. lia.
  - by rewrite (getNode_appended M _ ns i).
  - rewrite cloneMap_notin by done. apply lookup_empty.
  - destruct (decide (nv_node input < length (heap_ M))%nat) as [Hlt|Hge].
    + rewrite (isaVariable_app M); [done..|]. by eexists.
    + set (j := (nv_node input - length (heap_ M))%nat).
      replace (nv_node input) with (length (heap_ M) + j)%nat by lia.
      unfold isaVariable. rewrite (getNode_appended M _ ns j); [|done].
      destruct (ns !! j) as [nj|] eqn:Hj; [|done]. simpl.
      destruct (Forall2_lookup_r _ _ _ _ _ HF Hj) as (Ndj & HNdj & Hgj).
      destruct (Hops Ndj (list_elem_of_lookup_2 _ _ _ HNdj))
        as (nj' & Hgj' & Hk).
      assert (nj' = nj) as -> by congruence.
      rewrite bool_decide_eq_false_2 by done. discriminate.
Qed.

(** C2 (amended).  Let [F] be a Function of the Module whose nodes are
    distinct live operator nodes, in a Module whose Variables are live
    Variable objects; let [newName] name no Function of the Module, and let
    the external map be absent or empty.
    If every input of every node of [F] is a node of [F] or a Variable of
    the Module, [clone] succeeds: it adds a Function of that name to the
    Module, with as many nodes as [F]; the i-th new node is a new object
    that equals the i-th node of [F] in everything but its inputs; an input
    that pointed at a node of [F] points at that node's copy, with the same
    result number; an input that pointed at a Variable is unchanged; [F],
    the Variables, the types and all existing objects are untouched; and the
    map sends exactly the nodes of [F] to their copies (no Variable is in
    it).
    If some input of some node of [F] points at something that is neither
    a node of [F] nor a Variable, [clone] fails. *)
Theorem clone_spec (F : nat) (newName : string)
    (map : option (gmap addr addr)) (M : Module) (f : Function) :
  functions_ M !! F = Some f →
  NoDup (nodes_ f) →
  operatorNodes M f →
  variablesLive M →
  hasFunction M newName = false →
  map = None ∨ map = Some ∅ →
  (inputsResolve M f →
   ∃ M' fnew cur,
    clone F newName map M
    = Some (length (functions_ M), (λ _, cur) <$> map, M')
    ∧ functions_ M' !! length (functions_ M) = Some fnew
    ∧ fname_ fnew = newName
    ∧ length (nodes_ fnew) = length (nodes_ f)
    ∧ functions_ M' !! F = Some f
    ∧ vars_ M' = vars_ M ∧ types_ M' = types_ M
    ∧ (∀ a, (a < length (heap_ M))%nat → heap_ M' !! a = heap_ M !! a)
    ∧ dom cur = list_to_set (nodes_ f)
    ∧ (∀ V, V ∈ vars_ M → cur !! V = None)
    ∧ ∀ i Nd n,
        nodes_ f !! i = Some Nd → getNode M Nd = Some n →
        ∃ Nd' n',
          nodes_ fnew !! i = Some Nd' ∧ cur !! Nd = Some Nd'
          ∧ getNode M Nd' = None
          ∧ getNode M' Nd' = Some n'
          ∧ n' = setInputs (inputs_ n') n
          ∧ length (inputs_ n') = length (inputs_ n)
          ∧ ∀ j input,
              inputs_ n !! j = Some input →
              (∀ c, cur !! nv_node input = Some c →
                    inputs_ n' !! j = Some (mkNodeValue c (nv_resNo input)))
              ∧ (nv_node input ∈ vars_ M → inputs_ n' !! j = Some input))
  ∧ (∀ Nd n input,
       Nd ∈ nodes_ f → getNode M Nd = Some n → input ∈ inputs_ n →
       nv_node input ∉ nodes_ f →
       isaVariable M (nv_node input) ≠ Some true →
       clone F newName map M = None).
Proof.
  intros Hf Hnd Hops Hvars Hname Hmap.
  split; [intros Hres|intros Nd n input; by apply clone_fails].
  destruct (live_contents M (nodes_ f)) as [ns HF].
  { intros a Ha. destruct (Hops a Ha) as (? & ? & _). by eauto. }
  rewrite (clone_steps F newName map M f ns Hf Hname HF).
  set (h0 := length (heap_ M)).
  set (k := length (nodes_ f)).
  set (cur := cloneMap (nodes_ f) h0 ∅).
  set (M2 := mkModule _ _ _ _ _).
  assert (dom cur = list_to_set (nodes_ f)) as Hdom.
  { subst cur. rewrite cloneMap_dom, dom_empty_L. apply (right_id_L ∅ (∪)). }
  assert (∀ V, V ∈ vars_ M → cur !! V = None) as HcurV.
  { intros V HV. apply not_elem_of_dom. rewrite Hdom.
    intros HVn%elem_of_list_to_set.
    destruct (Hops V HVn) as (n & Hn & Hk).
    specialize (Hvars V HV). unfold isaVariable in Hvars.
    rewrite Hn in Hvars. simpl in Hvars. injection Hvars as Hvars.
    by apply bool_decide_eq_true in Hvars. }
  assert (∀ i Nd n, nodes_ f !! i = Some Nd → getNode M Nd = Some n →
                    ns !! i = Some n) as Hns.
  { intros i Nd n Hi Hn.
    destruct (Forall2_lookup_l _ _ _ _ _ HF Hi) as (n' & Hn' & Hg).
    congruence. }
  assert (∀ i, getNode M2 (h0 + i) = ns !! i) as Hget2.
  { intros i. apply (getNode_appended M M2 ns i eq_refl). }
  destruct (fixNodes_spec cur h0 (seq h0 k) M2)
    as (M' & -> & Hfun & Hty & Hva & _ & _ & Hout & Hnew).
  { apply NoDup_seq. }
  { apply Forall_forall. intros b Hb%elem_of_seq. lia. }
  { intros b Hb%elem_of_seq.
    assert (∃ i, b = (h0 + i)%nat ∧ (i < k)%nat) as (i & -> & Hik)
      by (exists (b - h0)%nat; lia).
    destruct (lookup_lt_is_Some_2 (nodes_ f) i Hik) as [Nd Hi].
    destruct (Hops Nd (list_elem_of_lookup_2 _ _ _ Hi)) as (n & Hn & _).
    exists n. split.
    { rewrite Hget2. by eapply Hns. }
    apply Forall_forall. intros input Hin.
    destruct (Hres Nd n input (list_elem_of_lookup_2 _ _ _ Hi) Hn Hin)
      as [Hnode|Hvar].
    - left. apply elem_of_dom. rewrite Hdom. by apply elem_of_list_to_set.
    - right. pose proof (Hvars _ Hvar) as Hv.
      assert (nv_node input < h0)%nat as Hlt.
      { unfold isaVariable in Hv.
        destruct (getNode M (nv_node input)) eqn:E; [|done].
        by eapply getNode_live_lt. }
      split; [done|]. rewrite (isaVariable_app M); [done..|]. by eexists. }
  cbn [mbind option_bind].
  assert (match map with
          | Some m => if decide (m = ∅) then Some (Some (m ∪ cur)) else None
          | None => Some None
          end = Some ((λ _, cur) <$> map)) as ->.
  { destruct Hmap as [-> | ->]; [done|].
    rewrite decide_True by done. simpl. by rewrite (left_id_L ∅ (∪)). }
  cbn [mbind option_bind].
  exists M', (mkFunction newName (seq h0 k)), cur.
  split; [done|]. split_and!; try done.
  - rewrite Hfun. subst M2. simpl. rewrite lookup_app_r by lia.
    by rewrite Nat.sub_diag.
  - simpl. apply length_seq.
  - rewrite Hfun. subst M2. simpl. rewrite lookup_app_l; [done|].
    by eapply lookup_lt_Some.
  - intros a Ha. rewrite Hout.
    + subst M2. simpl. by rewrite lookup_app_l.
    + intros Hin%elem_of_seq. lia.
  - intros i Nd n Hi Hn.
    pose proof (lookup_lt_Some _ _ _ Hi) as Hik.
    set (n' := setInputs (fixedInput cur <$> inputs_ n) n).
    exists (h0 + i)%nat, n'. split_and!.
    + simpl. by rewrite lookup_seq_lt.
    + subst cur. by apply cloneMap_in.
    + unfold getNode. rewrite lookup_ge_None_2; [done|]. lia.
    + apply Hnew.
      * apply elem_of_seq. lia.
      * rewrite Hget2. by eapply Hns.
    + by destruct n.
    + simpl. apply length_fmap.
    + intros j input Hj. simpl. rewrite list_lookup_fmap, Hj. simpl.
      unfold fixedInput. split.
      * by intros c ->.
      * intros HV. by rewrite (HcurV _ HV).
Qed.

Lemma clone_spec_witness :
  ∃ M' fnew cur A' B' nB,
    clone 0 "copy" (Some ∅) clone_example = Some (1%nat, Some cur, M')
    ∧ functions_ M' !! 1%nat = Some fnew
    ∧ nodes_ fnew !! 0%nat = Some A'
    ∧ nodes_ fnew !! 1%nat = Some B'
    ∧ cur !! 1%nat = Some A'
    ∧ getNode clone_example A' = None
    ∧ getNode M' B' = Some nB
    ∧ inputs_ nB !! 0%nat = Some (mkNodeValue A' 0)
    ∧ inputs_ nB !! 1%nat = Some (mkNodeValue 0 0).
Proof.
  destruct (clone_spec 0 "copy" (Some ∅) clone_example
              (mkFunction "main" [1; 2]%nat)) as [Hok _].
  - reflexivity.
  - apply NoDup_cons. split; [|apply NoDup_singleton].
    intros Hin%list_elem_of_singleton. discriminate.
  - intros Nd [-> | ->%list_elem_of_singleton]%elem_of_cons;
      (eexists; split; [reflexivity|discriminate]).
  - intros V ->%list_elem_of_singleton. reflexivity.
  - reflexivity.
  - by right.
  - destruct Hok as (M' & fnew & cur & Hc & Hf & _ & _ & _ & _ & _ & _
                     & _ & _ & Hnodes).
    + intros Nd n input [-> | ->%list_elem_of_singleton]%elem_of_cons
        [= <-] Hin; simpl in Hin.
      * right. apply list_elem_of_singleton.
        apply elem_of_cons in Hin as [->|Hin]; [done|].
        by apply list_elem_of_singleton in Hin as ->.
      * apply elem_of_cons in Hin as [->|Hin].
        -- left. apply list_elem_of_here.
        -- apply list_elem_of_singleton in Hin as ->. right.
           apply list_elem_of_here.
    + destruct (Hnodes 0%nat 1%nat _ eq_refl eq_refl)
        as (A' & nA & HiA & HcurA & HnewA & _).
      destruct (Hnodes 1%nat 2%nat _ eq_refl eq_refl)
        as (B' & nB & HiB & _ & _ & HgB & _ & _ & Hins).
      exists M', fnew, cur, A', B', nB.
      split_and!; try done.
      * by apply (Hins 0%nat (mkNodeValue 1 0) eq_refl).
      * apply (Hins 1%nat (mkNodeValue 0 0) eq_refl). apply list_elem_of_here.
Defined.

(** C2, counterexample.  Every input of the Function "main" resolves, yet
    cloning it under its own name fails: [createFunction] rejects a name
    that is taken. *)
Lemma clone_taken_name_fails :
  inputsResolve clone_example (mkFunction "main" [1; 2]%nat)
  ∧ hasFunction clone_example "main" = true
  ∧ clone 0 "main" None clone_example = None
  ∧ clone 0 "main" (Some ∅) clone_example = None.
Proof.
  split_and!; [|reflexivity..].
  intros Nd n input [-> | ->%list_elem_of_singleton]%elem_of_cons
    [= <-] Hin; simpl in Hin.
  - right. apply list_elem_of_singleton.
    apply elem_of_cons in Hin as [->|Hin]; [done|].
    by apply list_elem_of_singleton in Hin as ->.
  - apply elem_of_cons in Hin as [->|Hin].
    + left. apply list_elem_of_here.
    + apply list_elem_of_singleton in Hin as ->. right.
      apply list_elem_of_here.
Qed.

(** * Further properties *)

(** In the examples below the kind tag handed to a builder is an arbitrary
    operator kind of [Kind]; no property depends on it. *)

(** ** Functions of a Module, further properties *)

Lemma getFunction_in_Some fs name F :
  getFunction_in fs name = Some F ↔
  (∃ f, fs !! F = Some f ∧ fname_ f = name)
  ∧ ∀ j g, (j < F)%nat → fs !! j = Some g → fname_ g ≠ name.
Proof.
  revert F. induction fs as [|f fs IH]; intros F; simpl.
  - split; [done|]. intros [(g & Hg & _) _]. done.
  - destruct (decide (fname_ f = name)) as [Hn|Hn].
    + split.
      * intros [= <-]. split; [by exists f|]. intros j g Hj. lia.
      * intros [_ Hfirst]. destruct F as [|F]; [done|].
        exfalso. apply (Hfirst 0%nat f); [lia|done|done].
    + destruct (getFunction_in fs name) as [p|] eqn:Hp; simpl.
      * split.
        -- intros [= <-]. destruct (proj1 (IH p) eq_refl) as [Hex Hfirst].
           split; [done|]. intros [|j] g Hj Hg; simpl in Hg.
           ++ by injection Hg as <-.
           ++ apply (Hfirst j g); [lia|done].
        -- intros [(g & Hg & Hgn) Hfirst]. destruct F as [|F]; simpl in Hg.
           ++ by injection Hg as <-.
           ++ assert (Some p = Some F) as [= ->]; [|done].
              apply IH. split; [by exists g|].
              intros j g' Hj Hg'. apply (Hfirst (S j) g'); [lia|done].
      * split; [done|]. intros [(g & Hg & Hgn) Hfirst].
        destruct F as [|F]; simpl in Hg.
        -- by injection Hg as <-.
        -- assert (@None nat = Some F) as HF; [|done].
           apply IH. split; [by exists g|].
           intros j g' Hj Hg'. apply (Hfirst (S j) g'); [lia|done].
Qed.

Lemma getFunction_in_None fs name :
  getFunction_in fs name = None ↔ ∀ f, f ∈ fs → fname_ f ≠ name.
Proof.
  induction fs as [|f fs IH]; simpl.
  - split; [|done]. intros _ f Hf. by apply elem_of_nil in Hf.
  - destruct (decide (fname_ f = name)) as [Hn|Hn].
    + split; [done|]. intros H. exfalso. apply (H f); [left|done].
    + rewrite fmap_None, IH. split.
      * intros H g [-> | Hg]%elem_of_cons; [done|by apply H].
      * intros H g Hg. apply H. by right.
Qed.

Lemma getFunction_in_app fs gs name :
  getFunction_in (fs ++ gs)%list name =
  match getFunction_in fs name with
  | Some F => Some F
  | None => (λ F, length fs + F)%nat <$> getFunction_in gs name
  end.
Proof.
  induction fs as [|f fs IH]; simpl.
  - by destruct (getFunction_in gs name).
  - destruct (decide (fname_ f = name)); [done|]. rewrite IH.
    destruct (getFunction_in fs name); [done|].
    by destruct (getFunction_in gs name).
Qed.

Lemma hasFunction_true M name :
  hasFunction M name = true ↔ ∃ f, f ∈ functions_ M ∧ fname_ f = name.
Proof.
  unfold hasFunction, getFunction. rewrite bool_decide_eq_true. split.
  - intros [F HF]. apply getFunction_in_Some in HF as [(f & Hf & Hn) _].
    exists f. split; [by eapply list_elem_of_lookup_2|done].
  - intros (f & Hf & Hn).
    destruct (getFunction_in (functions_ M) name) eqn:E; [by eexists|].
    exfalso. by apply (proj1 (getFunction_in_None _ _) E f).
Qed.

Lemma hasFunction_false M name :
  hasFunction M name = false ↔ ∀ f, f ∈ functions_ M → fname_ f ≠ name.
Proof.
  rewrite <- not_true_iff_false, hasFunction_true. split.
  - intros H f Hf Hn. apply H. by exists f.
  - intros H (f & Hf & Hn). by apply (H f).
Qed.

(** X1. [getFunction] returns the first Function of the Module that bears
    the name, and the null pointer exactly when no Function bears it;
    [hasFunction] tells whether some Function bears the name. *)
Theorem getFunction_spec (M : Module) (name : string) :
  (∀ F, getFunction M name = Some F ↔
        (∃ f, functions_ M !! F = Some f ∧ fname_ f = name)
        ∧ ∀ j g, (j < F)%nat → functions_ M !! j = Some g → fname_ g ≠ name)
  ∧ (getFunction M name = None ↔
     ∀ f, f ∈ functions_ M → fname_ f ≠ name)
  ∧ (hasFunction M name = true ↔
     ∃ f, f ∈ functions_ M ∧ fname_ f = name).
Proof.
  split_and!.
  - intros F. apply getFunction_in_Some.
  - apply getFunction_in_None.
  - apply hasFunction_true.
Qed.

(** X2. [createFunction] aborts when the name is taken.  Otherwise it
    appends an empty Function, which [getFunction] then finds under its
    name; the Functions already there keep their positions, lookups of other
    names are unchanged, nodes, types and Variables are untouched, and a
    second [createFunction] of the same name aborts. *)
Theorem createFunction_spec (name : string) (M : Module) :
  (hasFunction M name = true → createFunction name M = None)
  ∧ (hasFunction M name = false →
     ∃ M', createFunction name M = Some (length (functions_ M), M')
       ∧ functions_ M' = (functions_ M ++ [mkFunction name []])%list
       ∧ heap_ M' = heap_ M ∧ types_ M' = types_ M ∧ vars_ M' = vars_ M
       ∧ uniqueIdx_ M' = uniqueIdx_ M
       ∧ getFunction M' name = Some (length (functions_ M))
       ∧ (∀ name', name' ≠ name → getFunction M' name' = getFunction M name')
       ∧ (∀ F f, functions_ M !! F = Some f → functions_ M' !! F = Some f)
       ∧ createFunction name M' = None).
Proof.
  split.
  - intros H. unfold createFunction. by rewrite H.
  - intros H. eexists. split; [by apply createFunction_fresh|].
    cbn [functions_ heap_ types_ vars_ uniqueIdx_ set_functions].
    assert (getFunction_in (functions_ M) name = None) as Hnone.
    { apply getFunction_in_None. by apply hasFunction_false. }
    assert (getFunction
              (set_functions (functions_ M ++ [mkFunction name []]) M) name
            = Some (length (functions_ M))) as Hget.
    { unfold getFunction. cbn [functions_ set_functions].
      rewrite getFunction_in_app, Hnone. simpl.
      rewrite decide_True by done. simpl. f_equal. lia. }
    split_and!; try done.
    + intros name' Hne. unfold getFunction. cbn [functions_ set_functions].
      rewrite getFunction_in_app.
      destruct (getFunction_in (functions_ M) name'); [done|]. simpl.
      by rewrite decide_False by done.
    + intros F f Hf. by apply lookup_app_l_Some.
    + unfold createFunction, hasFunction. rewrite Hget.
      by rewrite bool_decide_true by by eexists.
Qed.

Lemma createFunction_spec_witness :
  ∃ M', createFunction "aux" concat_example = Some (1%nat, M')
    ∧ getFunction M' "aux" = Some 1%nat
    ∧ getFunction M' "main" = Some 0%nat
    ∧ createFunction "aux" M' = None.
Proof.
  destruct (proj2 (createFunction_spec "aux" concat_example) eq_refl)
    as (M' & H1 & _ & _ & _ & _ & _ & H2 & H3 & _ & H4).
  exists M'. split_and!; [exact H1|exact H2| |exact H4].
  rewrite H3 by done. reflexivity.
Defined.

(** X3. In a Module whose Functions have pairwise distinct names,
    [getFunction] of a Function's name returns that very Function, and
    [createFunction] keeps the names pairwise distinct. *)
Theorem function_names_distinct (M : Module) :
  NoDup (fname_ <$> functions_ M) →
  (∀ F f, functions_ M !! F = Some f → getFunction M (fname_ f) = Some F)
  ∧ (∀ name F M', createFunction name M = Some (F, M') →
       NoDup (fname_ <$> functions_ M')).
Proof.
  intros Hnd. split.
  - intros F f Hf. apply getFunction_in_Some. split; [by exists f|].
    intros j g Hj Hg Hn.
    assert (j = F); [|lia].
    eapply NoDup_lookup; [exact Hnd| |].
    + rewrite list_lookup_fmap, Hg. simpl. by rewrite Hn.
    + by rewrite list_lookup_fmap, Hf.
  - intros name F M'. unfold createFunction.
    destruct (hasFunction M name) eqn:Hhas; [done|]. intros [= <- <-].
    cbn [functions_ set_functions]. rewrite fmap_app. simpl.
    apply NoDup_app. split_and!; [done| |apply NoDup_singleton].
    intros x Hx [-> | []%elem_of_nil]%elem_of_cons.
    apply list_elem_of_fmap in Hx as (f & Hfn & Hf).
    by apply (proj1 (hasFunction_false _ _) Hhas f).
Qed.

Lemma function_names_distinct_witness :
  NoDup (fname_ <$> functions_ two_functions_example)
  ∧ getFunction two_functions_example "aux" = Some 1%nat
  ∧ ∃ F M',
      createFunction "copy" two_functions_example = Some (F, M')
      ∧ NoDup (fname_ <$> functions_ M').
Proof.
  assert (NoDup (fname_ <$> functions_ two_functions_example)) as Hnd.
  { apply NoDup_cons. split; [|apply NoDup_singleton].
    intros [H | H]%elem_of_cons; [done|by apply elem_of_nil in H]. }
  destruct (function_names_distinct two_functions_example Hnd) as [Hget Hnew].
  split_and!.
  - exact Hnd.
  - apply (Hget 1%nat (mkFunction "aux" [])). reflexivity.
  - eexists _, _. split; [reflexivity|].
    apply (Hnew "copy" _ _ eq_refl).
Defined.

(** ** Lookup of Variables *)

Lemma getVariableByName_in_found M l name V :
  getVariableByName_in M l name = Some (Some V) →
  ∃ i n, l !! i = Some V ∧ getNode M V = Some n ∧ name_ n = name
    ∧ ∀ j W m, (j < i)%nat → l !! j = Some W → getNode M W = Some m →
               name_ m ≠ name.
Proof.
  induction l as [|W l IH]; [done|]. cbn [getVariableByName_in].
  destruct (getNode M W) as [m|] eqn:Hm; [|done]. cbn [mbind option_bind].
  destruct (decide (name_ m = name)) as [Hn|Hn].
  - intros [= <-]. exists 0%nat, m. split_and!; [done..|]. intros; lia.
  - intros (i & n & Hi & HV & Hname & Hfirst)%IH.
    exists (S i), n. split_and!; [done..|].
    intros [|j] W' m' Hj HW' Hm'; simpl in HW'.
    + injection HW' as <-. congruence.
    + apply (Hfirst j W'); [lia|done..].
Qed.

Lemma getVariableByName_in_null M l name :
  getVariableByName_in M l name = Some None →
  ∀ V n, V ∈ l → getNode M V = Some n → name_ n ≠ name.
Proof.
  induction l as [|W l IH]; cbn [getVariableByName_in].
  - intros _ V n HV. by apply elem_of_nil in HV.
  - destruct (getNode M W) as [m|] eqn:Hm; [|done]. cbn [mbind option_bind].
    destruct (decide (name_ m = name)) as [Hn|Hn]; [done|].
    intros H V n [-> | HV]%elem_of_cons HVn; [congruence|].
    by apply (IH H V).
Qed.

Lemma getVariableByName_in_total M l name :
  allLive M l → is_Some (getVariableByName_in M l name).
Proof.
  induction 1 as [|W l [m Hm] _ IH]; cbn [getVariableByName_in]; [by eexists|].
  rewrite Hm. cbn [mbind option_bind].
  by destruct (decide (name_ m = name)).
Qed.

Lemma getVariableByName_in_dangling M l name :
  getVariableByName_in M l name = None → ¬ allLive M l.
Proof.
  intros H Hl. destruct (getVariableByName_in_total M l name Hl). congruence.
Qed.

Lemma getVariableByName_in_ext M M' l name :
  (∀ a, a ∈ l → getNode M' a = getNode M a) →
  getVariableByName_in M' l name = getVariableByName_in M l name.
Proof.
  induction l as [|W l IH]; intros H; [done|]. cbn [getVariableByName_in].
  rewrite (H W) by left. destruct (getNode M W); [|done].
  cbn [mbind option_bind]. destruct (decide _); [done|].
  apply IH. intros a Ha. apply H. by right.
Qed.

Lemma getVariableByName_in_app M l1 l2 name :
  getVariableByName_in M (l1 ++ l2)%list name =
  match getVariableByName_in M l1 name with
  | Some None => getVariableByName_in M l2 name
  | r => r
  end.
Proof.
  induction l1 as [|W l1 IH]; [simpl; by destruct (getVariableByName_in _ _ _) as [[]|]|].
  cbn [app getVariableByName_in]. destruct (getNode M W); [|done].
  cbn [mbind option_bind]. by destruct (decide _).
Qed.

(** X4. On a Module whose Variables are all live, [getVariableByName]
    returns the first Variable bearing the name, or the null pointer when
    no Variable bears it; it does not abort. *)
Theorem getVariableByName_spec (M : Module) (name : string) :
  allLive M (vars_ M) →
  match getVariableByName M name with
  | Some (Some V) =>
      ∃ i n, vars_ M !! i = Some V ∧ getNode M V = Some n ∧ name_ n = name
        ∧ ∀ j W m, (j < i)%nat → vars_ M !! j = Some W →
                   getNode M W = Some m → name_ m ≠ name
  | Some None =>
      ∀ V n, V ∈ vars_ M → getNode M V = Some n → name_ n ≠ name
  | None => False
  end.
Proof.
  intros Hl. unfold getVariableByName.
  destruct (getVariableByName_in M (vars_ M) name) as [[V|]|] eqn:E.
  - by apply getVariableByName_in_found.
  - by apply getVariableByName_in_null.
  - by apply getVariableByName_in_dangling in E.
Qed.

Lemma getVariableByName_spec_witness :
  ∃ n, getNode concat_example 1 = Some n ∧ name_ n = "B__1".
Proof.
  assert (allLive concat_example (vars_ concat_example)) as Hl.
  { repeat constructor; by eexists. }
  pose proof (getVariableByName_spec concat_example "B__1" Hl) as H.
  change (getVariableByName concat_example "B__1") with (Some (Some 1%nat)) in H.
  destruct H as (i & n & _ & Hn & Hname & _). by exists n.
Defined.

(** X5. When the names of the Variables are names the counter handed out
    ([varNamesIssued]), [createVariable] succeeds, the new Variable is the
    one [getVariableByName] finds under its new name, lookups of every other
    name are unchanged, and the names of the Variables are again names the
    counter handed out. *)
Theorem createVariable_findable (T : TypeRef) (name : string)
    (vis : VisibilityKind) (train : TrainKind) (M : Module) (t : Ty) :
  varNamesIssued M →
  derefType (types_ M) T = Some t →
  ∃ V M' n,
    createVariable T name vis train M = Some (V, M')
    ∧ getNode M' V = Some n
    ∧ getVariableByName M' (name_ n) = Some (Some V)
    ∧ (∀ name', name' ≠ name_ n →
         getVariableByName M' name' = getVariableByName M name')
    ∧ varNamesIssued M'.
Proof.
  intros Hinv Ht.
  destruct (createVariable_spec T name vis train M t Ht)
    as (V & M' & FT & Hcv & HV & Hfs & Hpool & HFT & Hvars & Hidx & Hn & Hold).
  eexists V, M', _. split; [exact Hcv|]. split; [exact Hn|].
  cbn [name_ Variable_new].
  assert (∀ a, a ∈ vars_ M → getNode M' a = getNode M a) as Hagree.
  { intros a Ha. destruct (Hinv a Ha) as (x & _ & _ & Hx & _).
    rewrite Hx. by apply Hold. }
  assert (∀ name', getVariableByName_in M' (vars_ M) name'
                   = getVariableByName M name') as Hsame.
  { intros name'. by apply getVariableByName_in_ext. }
  assert (getVariableByName M
            (stripName name ++ "__" ++ to_string (uniqueIdx_ M)) = Some None)
    as Hnone.
  { unfold getVariableByName.
    destruct (getVariableByName_in M (vars_ M) _) as [[W|]|] eqn:E; [|done|].
    - exfalso. apply getVariableByName_in_found in E
        as (i & m & Hi & Hm & Hname & _).
      destruct (Hinv W (list_elem_of_lookup_2 _ _ _ Hi))
        as (m' & p & k & Hm' & Hname' & Hk).
      assert (m' = m) as -> by congruence. rewrite Hname' in Hname.
      apply suffix_digits_inj in Hname; [|apply all_digits_to_string..].
      apply to_string_inj in Hname. lia.
    - exfalso. apply getVariableByName_in_dangling in E. apply E.
      apply Forall_forall. intros a Ha.
      destruct (Hinv a Ha) as (x & _ & _ & Hx & _). by eexists. }
  split_and!.
  - unfold getVariableByName. rewrite Hvars, getVariableByName_in_app.
    rewrite Hsame, Hnone. cbn [getVariableByName_in]. rewrite Hn.
    cbn [mbind option_bind name_ Variable_new]. by rewrite decide_True.
  - intros name' Hne. unfold getVariableByName at 1.
    rewrite Hvars, getVariableByName_in_app, Hsame.
    destruct (getVariableByName M name') as [[W|]|]; [done| |done].
    cbn [getVariableByName_in]. rewrite Hn.
    cbn [mbind option_bind name_ Variable_new]. by rewrite decide_False.
  - intros W. rewrite Hvars. intros [HW | ->%list_elem_of_singleton]%elem_of_app.
    + destruct (Hinv W HW) as (x & p & k & Hx & Hname & Hk).
      exists x, p, k. split_and!; [by apply Hold|done|lia].
    + eexists _, (stripName name), (uniqueIdx_ M).
      split_and!; [exact Hn|done|lia].
Qed.

Lemma createVariable_findable_witness :
  ∃ V M' n,
    createVariable (PoolRef 0) "C" Public TrainNone concat_example
    = Some (V, M')
    ∧ getNode M' V = Some n
    ∧ getVariableByName M' (name_ n) = Some (Some V).
Proof.
  assert (varNamesIssued concat_example) as Hinv.
  { intros V HV. apply elem_of_cons in HV as [-> | HV].
    - by eexists _, "A", 0.
    - apply elem_of_cons in HV as [-> | HV].
      + by eexists _, "B", 1.
      + by apply elem_of_nil in HV. }
  destruct (createVariable_findable (PoolRef 0) "C" Public TrainNone
              concat_example (Type_plain FloatTy [4; 10]) Hinv eq_refl)
    as (V & M' & n & H1 & H2 & H3 & _).
  by exists V, M', n.
Defined.

(** ** Variables and the type pool *)

Lemma createVariable_dims_type k dims name vis train M V M' :
  createVariable_dims k dims name vis train M = Some (V, M') →
  types_ M' = (poolUniqueType (types_ M) (Type_plain k dims)).1
  ∧ Node_getType M' V 0
    = Some (poolUniqueType (types_ M) (Type_plain k dims)).2
  ∧ V = length (heap_ M)
  ∧ (∀ a x, getNode M a = Some x → Node_getType M' a 0 = Node_getType M a 0).
Proof.
  unfold createVariable_dims, uniqueType_dims.
  set (T := Type_plain k dims).
  pose proof (uniqueType_deref T M) as Hd.
  rewrite uniqueType_unfold in *. cbn [fst snd] in Hd.
  set (M1 := set_types (poolUniqueType (types_ M) T).1 M) in *.
  unfold createVariable. rewrite Hd. cbn [mbind option_bind].
  rewrite uniqueType_unfold.
  change (types_ M1) with (poolUniqueType (types_ M) T).1.
  rewrite poolUniqueType_idem.
  unfold newNode, addVar, assignUniqueName, storeNode, getNode.
  simpl.
  assert (∀ x : option Node,
            (heap_ M ++ [x])%list !! length (heap_ M) = Some x) as Hlk.
  { intros x. rewrite lookup_app_r by lia. by rewrite Nat.sub_diag. }
  rewrite !Hlk. simpl.
  intros [= <- <-]. cbn. split_and!; try done.
  - unfold Node_getType, getNode. cbn.
    rewrite list_lookup_insert_eq by (rewrite length_app; simpl; lia). done.
  - intros a x Hx. unfold Node_getType, getNode in *. cbn.
    assert (a < length (heap_ M))%nat as Hlt.
    { destruct (heap_ M !! a) eqn:E; [by eapply lookup_lt_Some|done]. }
    rewrite list_lookup_insert_ne by lia. by rewrite lookup_app_l.
Qed.

(** X6. Two Variables created one after the other with the same element
    kind and dimensions are distinct objects whose types are the same entry
    of the pool; the second creation adds no type to the pool. *)
Theorem createVariable_shares_type (k : ElemKind) (dims : list N)
    (name1 name2 : string) (vis1 vis2 : VisibilityKind)
    (train1 train2 : TrainKind) (M : Module) :
  ∃ V1 M1 V2 M2 i,
    createVariable_dims k dims name1 vis1 train1 M = Some (V1, M1)
    ∧ createVariable_dims k dims name2 vis2 train2 M1 = Some (V2, M2)
    ∧ V1 ≠ V2
    ∧ Node_getType M2 V1 0 = Some (PoolRef i)
    ∧ Node_getType M2 V2 0 = Some (PoolRef i)
    ∧ poolGet (types_ M2) i = Some (Type_plain k dims)
    ∧ types_ M2 = types_ M1.
Proof.
  destruct (createVariable_dims_spec k dims name1 vis1 train1 M)
    as (V1 & M1 & FT1 & H1 & HV1 & _ & _ & _ & _ & _ & Hn1 & _).
  destruct (createVariable_dims_spec k dims name2 vis2 train2 M1)
    as (V2 & M2 & FT2 & H2 & HV2 & _ & _ & _ & _ & _ & Hn2 & Hold2).
  destruct (createVariable_dims_type _ _ _ _ _ _ _ _ H1)
    as (Ht1 & Hg1 & _ & _).
  destruct (createVariable_dims_type _ _ _ _ _ _ _ _ H2)
    as (Ht2 & Hg2 & _ & Hkeep).
  destruct (poolUniqueType_PoolRef (types_ M) (Type_plain k dims)) as [i Hi].
  assert (poolUniqueType (types_ M1) (Type_plain k dims)
          = (types_ M1, PoolRef i)) as Hidem.
  { rewrite Ht1, poolUniqueType_idem, <- Hi.
    by destruct (poolUniqueType (types_ M) (Type_plain k dims)). }
  rewrite Hidem in Ht2, Hg2. cbn [fst snd] in Ht2, Hg2.
  exists V1, M1, V2, M2, i. split_and!; try done.
  - apply getNode_live_lt in Hn1. lia.
  - rewrite (Hkeep V1 _ Hn1), Hg1. by rewrite Hi.
  - rewrite Ht2.
    pose proof (poolUniqueType_deref (types_ M) (Type_plain k dims)) as Hd.
    rewrite <- Ht1, Hi in Hd. done.
Qed.

(** ** Further builders *)

Lemma mapM_seq_Some {A} (f : nat → option A) n l :
  mapM f (seq 0 n) = Some l ↔
  length l = n ∧ ∀ i, (i < n)%nat → f i = l !! i.
Proof.
  rewrite mapM_Some, Forall2_same_length_lookup, length_seq. split.
  - intros [Hlen H]. split; [done|]. intros i Hi.
    destruct (lookup_lt_is_Some_2 l i) as [y Hy]; [lia|].
    rewrite Hy. apply (H i i y); [|done]. by rewrite lookup_seq_lt.
  - intros [Hlen H]. split; [done|]. intros i x y [-> Hi]%lookup_seq Hy.
    simpl. by rewrite H.
Qed.

Lemma mapM_seq_is_Some {A} (f : nat → option A) n :
  is_Some (mapM f (seq 0 n)) ↔ ∀ i, (i < n)%nat → is_Some (f i).
Proof.
  rewrite mapM_is_Some, Forall_forall. split.
  - intros H i Hi. apply (H i). apply elem_of_seq. lia.
  - intros H i Hi%elem_of_seq. apply H. lia.
Qed.

(** What a builder's last two steps do with a node whose result type was
    made by [uniqueTypeWithNewShape]. *)
Lemma addNode_new_shape F T shape M t f (mk : TypeRef → Node) :
  derefType (types_ M) T = Some t →
  functions_ M !! F = Some f →
  ∃ NT M1 M' t',
    uniqueTypeWithNewShape T shape M = Some (NT, M1)
    ∧ addNode F (newNode (mk NT) M1).1 (newNode (mk NT) M1).2
      = Some (length (heap_ M), M')
    ∧ getNode M' (length (heap_ M)) = Some (mk NT)
    ∧ derefType (types_ M') NT = Some t'
    ∧ sizes_ t' = shape
    ∧ elementType_ t' = elementType_ t
    ∧ (isQuantizedType t = true →
       scale_ t' = scale_ t ∧ offset_ t' = offset_ t)
    ∧ vars_ M' = vars_ M
    ∧ functions_ M' !! F
      = Some (mkFunction (fname_ f) (nodes_ f ++ [length (heap_ M)]))
    ∧ pool_extends (types_ M) (types_ M')
    ∧ (∀ a x, getNode M a = Some x → getNode M' a = Some x).
Proof.
  intros Ht Hf.
  destruct (uniqueTypeWithNewShape_spec T shape M t Ht)
    as (NT & M1 & t' & HU & Hd & Hs & He & Hq & Hh & Hfs & Hv & Hext).
  assert (functions_ M1 !! F = Some f) as Hf1 by by rewrite Hfs.
  destruct (addNode_newNode F (mk NT) M1 f Hf1)
    as (M' & Hadd & Hget & Hty & Hvars & Hfn & Hold).
  rewrite Hh in Hadd, Hget, Hfn.
  exists NT, M1, M', t'. split_and!; try done.
  - by rewrite Hty.
  - congruence.
  - by rewrite Hty.
  - intros a x Hx. apply Hold. unfold getNode in *. by rewrite Hh.
Qed.

Lemma NodeValue_dims_inv M v dims :
  NodeValue_dims M v = Some dims →
  ∃ T t, NodeValue_getType M v = Some T ∧ derefType (types_ M) T = Some t
    ∧ sizes_ t = dims.
Proof.
  unfold NodeValue_dims, TypeRef_dims.
  destruct (NodeValue_getType M v) as [T|]; [|done]. cbn [mbind option_bind].
  destruct (derefType (types_ M) T) as [t|] eqn:Ht; [|done]. simpl.
  intros [= <-]. by exists T, t.
Qed.

Lemma NodeValue_of_type M Nd n T t :
  getNode M Nd = Some n → resTypes_ n !! 0%nat = Some T →
  derefType (types_ M) T = Some t →
  NodeValue_dims M (NodeValue_of Nd) = Some (sizes_ t)
  ∧ NodeValue_getElementType M (NodeValue_of Nd) = Some (elementType_ t).
Proof.
  intros Hn HT Ht.
  unfold NodeValue_dims, NodeValue_getElementType, NodeValue_getType,
    Node_getType, TypeRef_dims. simpl.
  rewrite Hn. cbn [mbind option_bind]. rewrite HT. cbn [mbind option_bind].
  by rewrite Ht.
Qed.

Lemma NodeValue_getElementType_inv M v T t :
  NodeValue_getType M v = Some T → derefType (types_ M) T = Some t →
  NodeValue_getElementType M v = Some (elementType_ t).
Proof.
  intros HT Ht. unfold NodeValue_getElementType. rewrite HT.
  cbn [mbind option_bind]. by rewrite Ht.
Qed.

(** *** createSlice *)

Lemma sliceAxis_Some dims begin end_ i x :
  sliceAxis dims begin end_ i = Some x ↔
  ∃ b e d, begin !! i = Some b ∧ end_ !! i = Some e ∧ dims !! i = Some d
    ∧ b < e ∧ e ≤ d ∧ x = e - b.
Proof.
  unfold sliceAxis.
  destruct (begin !! i) as [b|]; cbn [mbind option_bind];
    [|split; [done|by intros (?&?&?&?&_)]].
  destruct (end_ !! i) as [e|]; cbn [mbind option_bind];
    [|split; [done|by intros (?&?&?&?&?&_)]].
  destruct (dims !! i) as [d|]; cbn [mbind option_bind];
    [|split; [done|by intros (?&?&?&?&?&?&_)]].
  repeat case_bool_decide; simpl; split;
    try (intros [= <-]; exists b, e, d; split_and!; (done || lia));
    try done;
    intros (b' & e' & d' & [= <-] & [= <-] & [= <-] & ? & ? & ->);
    (done || lia).
Qed.

(** X7. For an input of dimensions [dims], [createSlice] succeeds exactly
    when [begin] and [end] have as many entries as [dims] and
    [begin_i < end_i ≤ dims_i] on every axis.  The node it then appends to
    the Function has the input as its only operand, records [begin], and
    its result has the extent [end_i - begin_i] on every axis and the
    element kind of the input. *)
Theorem createSlice_spec (SliceNodeKind : Kind) (F : nat) (name : string)
    (input : NodeValue) (begin end_ : list N) (M : Module)
    (dims : list N) :
  NodeValue_dims M input = Some dims →
  is_Some (functions_ M !! F) →
  (is_Some (createSlice SliceNodeKind F name input begin end_ M)
   ↔ sliceInRange dims begin end_)
  ∧ (sliceInRange dims begin end_ →
     ∃ Nd M' nd f',
       createSlice SliceNodeKind F name input begin end_ M = Some (Nd, M')
       ∧ getNode M' Nd = Some nd
       ∧ kind_ nd = SliceNodeKind
       ∧ inputs_ nd = [input]
       ∧ attrs_ nd = begin
       ∧ functions_ M' !! F = Some f'
       ∧ last (nodes_ f') = Some Nd
       ∧ NodeValue_dims M' (NodeValue_of Nd)
         = Some (zip_with N.sub end_ begin)
       ∧ NodeValue_getElementType M' (NodeValue_of Nd)
         = NodeValue_getElementType M input).
Proof.
  intros Hdims [f Hf].
  destruct (NodeValue_dims_inv _ _ _ Hdims) as (T & t & HT & Ht & Hs).
  assert (is_Some (createSlice SliceNodeKind F name input begin end_ M)
          → sliceInRange dims begin end_) as Hnec.
  { unfold createSlice. rewrite Hdims. cbn [mbind option_bind].
    case_bool_decide as H1; [|by intros [? ?]].
    case_bool_decide as H2; [|by intros [? ?]].
    destruct (mapM _ _) as [shape|] eqn:Hmap; [|by intros [? ?]].
    intros _. split_and!; [done..|].
    intros i b e d Hb He Hd.
    apply mapM_seq_Some in Hmap as [Hlen Hmap].
    assert (i < length dims)%nat as Hi by by eapply lookup_lt_Some.
    destruct (lookup_lt_is_Some_2 shape i) as [x Hx]; [lia|].
    specialize (Hmap i Hi). rewrite Hx in Hmap.
    apply sliceAxis_Some in Hmap as (b' & e' & d' & ? & ? & ? & ? & ? & _).
    split; congruence. }
  assert (sliceInRange dims begin end_ →
          mapM (sliceAxis dims begin end_) (seq 0 (length dims))
          = Some (zip_with N.sub end_ begin)) as Hshape.
  { intros (H1 & H2 & H3). apply mapM_seq_Some. split.
    - rewrite length_zip_with. lia.
    - intros i Hi.
      destruct (lookup_lt_is_Some_2 begin i) as [b Hb]; [lia|].
      destruct (lookup_lt_is_Some_2 end_ i) as [e He]; [lia|].
      destruct (lookup_lt_is_Some_2 dims i) as [d Hd]; [lia|].
      rewrite lookup_zip_with, He. cbn [mbind option_bind]. rewrite Hb.
      cbn [mbind option_bind]. apply sliceAxis_Some.
      exists b, e, d. destruct (H3 i b e d Hb He Hd). done. }
  assert (sliceInRange dims begin end_ →
     ∃ Nd M' nd f',
       createSlice SliceNodeKind F name input begin end_ M = Some (Nd, M')
       ∧ getNode M' Nd = Some nd
       ∧ kind_ nd = SliceNodeKind
       ∧ inputs_ nd = [input]
       ∧ attrs_ nd = begin
       ∧ functions_ M' !! F = Some f'
       ∧ last (nodes_ f') = Some Nd
       ∧ NodeValue_dims M' (NodeValue_of Nd)
         = Some (zip_with N.sub end_ begin)
       ∧ NodeValue_getElementType M' (NodeValue_of Nd)
         = NodeValue_getElementType M input) as Hsuf.
  { intros Hok. pose proof (Hshape Hok) as Hmap.
    destruct Hok as (H1 & H2 & H3).
    destruct (addNode_new_shape F T (zip_with N.sub end_ begin) M t f
                (λ NT, SliceNode_new SliceNodeKind name NT input begin)
                Ht Hf)
      as (NT & M1 & M' & t' & HU & Hadd & Hget & Hd & Hsz & Hel & _ & _
          & Hfn & _ & _).
    unfold createSlice. rewrite Hdims. cbn [mbind option_bind].
    rewrite !bool_decide_eq_true_2 by done. rewrite Hmap.
    cbn [mbind option_bind]. rewrite HT. cbn [mbind option_bind].
    rewrite HU. cbn [mbind option_bind].
    destruct (newNode _ M1) as [Nd M2] eqn:HN. cbn [fst snd] in Hadd.
    rewrite Hadd.
    eexists _, M', _, (mkFunction (fname_ f) (nodes_ f ++ [length (heap_ M)])).
    split; [reflexivity|]. split; [exact Hget|].
    split_and!; try done.
    - cbn [nodes_]. by rewrite last_snoc.
    - destruct (NodeValue_of_type M' _ _ NT t' Hget eq_refl Hd) as [-> _].
      by rewrite Hsz.
    - destruct (NodeValue_of_type M' _ _ NT t' Hget eq_refl Hd) as [_ ->].
      rewrite Hel. symmetry. by apply NodeValue_getElementType_inv with T. }
  split; [|done]. split; [done|].
  intros Hok. destruct (Hsuf Hok) as (Nd & M' & ? & ? & -> & _). by eexists.
Qed.


Lemma createSlice_spec_witness :
  ∃ Nd M',
    createSlice ConcatNodeKind 0 "slice" (mkNodeValue 0 0) [1; 2] [3; 10]
      concat_example = Some (Nd, M')
    ∧ NodeValue_dims M' (NodeValue_of Nd) = Some [2; 8].
Proof.
  assert (sliceInRange [4; 10] [1; 2] [3; 10]) as Hok.
  { split_and!; [done..|]. intros [|[|i]] b e d; simpl; intros; simplify_eq; lia. }
  destruct (proj2 (createSlice_spec ConcatNodeKind 0 "slice" (mkNodeValue 0 0)
                     [1; 2] [3; 10] concat_example [4; 10] eq_refl
                     (mk_is_Some _ _ eq_refl)) Hok)
    as (Nd & M' & nd & f' & H1 & _ & _ & _ & _ & _ & _ & H2 & _).
  by exists Nd, M'.
Defined.

(** *** createTranspose *)

Lemma transposeShape_Some dims shuffle shape :
  transposeShape dims shuffle = Some shape ↔
  length shape = length dims
  ∧ ∀ i, (i < length dims)%nat →
         ∃ s, shuffle !! i = Some s ∧ (s < length dims)%nat
              ∧ shape !! i = dims !! s.
Proof.
  unfold transposeShape. rewrite mapM_seq_Some. split.
  - intros [Hlen H]. split; [done|]. intros i Hi.
    specialize (H i Hi).
    destruct (lookup_lt_is_Some_2 shape i) as [x Hx]; [lia|].
    rewrite Hx in H. destruct (shuffle !! i) as [s|]; [|done].
    cbn [mbind option_bind] in H. exists s. split_and!; [done| |congruence].
    by eapply lookup_lt_Some.
  - intros [Hlen H]. split; [done|]. intros i Hi.
    destruct (H i Hi) as (s & -> & _ & ->). done.
Qed.

Lemma transposeShape_is_Some dims shuffle :
  is_Some (transposeShape dims shuffle) ↔
  ∀ i, (i < length dims)%nat →
       ∃ s, shuffle !! i = Some s ∧ (s < length dims)%nat.
Proof.
  unfold transposeShape. rewrite mapM_seq_is_Some. split.
  - intros H i Hi. destruct (H i Hi) as [x Hx].
    destruct (shuffle !! i) as [s|]; [|done]. cbn [mbind option_bind] in Hx.
    exists s. split; [done|]. by eapply lookup_lt_Some.
  - intros H i Hi. destruct (H i Hi) as (s & -> & Hs).
    cbn [mbind option_bind]. by apply lookup_lt_is_Some_2.
Qed.

Lemma transposeShape_Permutation dims shuffle shape :
  transposeShape dims shuffle = Some shape →
  take (length dims) shuffle ≡ₚ seq 0 (length dims) →
  shape ≡ₚ dims.
Proof.
  intros Hs Hperm. apply transposeShape_Some in Hs as [Hlen Hs].
  assert (Forall2 (λ s d, dims !! s = Some d) (take (length dims) shuffle)
            shape) as HF.
  { apply Forall2_same_length_lookup. split.
    - rewrite (Permutation_length Hperm), length_seq. lia.
    - intros i s d Hi Hd.
      assert (i < length dims)%nat as Hlt.
      { rewrite <- Hlen. by eapply lookup_lt_Some. }
      rewrite lookup_take_lt in Hi by done.
      destruct (Hs i Hlt) as (s' & Hs' & _ & Heq). congruence. }
  destruct (Permutation_Forall2 Hperm HF) as (shape' & Hp & HF').
  rewrite Hp.
  assert (shape' = dims) as ->; [|done].
  apply list_eq_same_length with (length dims).
  - done.
  - by rewrite <- (Forall2_length _ _ _ HF'), length_seq.
  - intros i x y Hi Hx Hy.
    rewrite Forall2_lookup in HF'. specialize (HF' i).
    rewrite lookup_seq_lt, Hx in HF' by done.
    inversion HF' as [? ? Hd|]; subst. simpl in Hd. congruence.
Qed.

(** X8. For an input of rank [r], [createTranspose] succeeds exactly when
    the first [r] entries of [shuffle] exist and are below [r] (they need not
    be distinct, and further entries are not looked at).  Axis [i] of the
    result has the extent of axis [shuffle[i]] of the input; the element
    kind is kept, and when the first [r] entries of [shuffle] are a
    permutation of [0..r-1] the result dimensions are a permutation of the
    input's. *)
Theorem createTranspose_spec (TransposeNodeKind : Kind) (F : nat)
    (name : string) (input : NodeValue) (shuffle : list nat) (M : Module)
    (dims : list N) :
  NodeValue_dims M input = Some dims →
  is_Some (functions_ M !! F) →
  (is_Some (createTranspose TransposeNodeKind F name input shuffle M)
   ↔ ∀ i, (i < length dims)%nat →
          ∃ s, shuffle !! i = Some s ∧ (s < length dims)%nat)
  ∧ (∀ Nd M',
       createTranspose TransposeNodeKind F name input shuffle M
       = Some (Nd, M') →
       ∃ nd shape,
         getNode M' Nd = Some nd
         ∧ kind_ nd = TransposeNodeKind
         ∧ inputs_ nd = [input]
         ∧ NodeValue_dims M' (NodeValue_of Nd) = Some shape
         ∧ length shape = length dims
         ∧ (∀ i s, (i < length dims)%nat → shuffle !! i = Some s →
                   shape !! i = dims !! s)
         ∧ (take (length dims) shuffle ≡ₚ seq 0 (length dims) →
            shape ≡ₚ dims)
         ∧ NodeValue_getElementType M' (NodeValue_of Nd)
           = NodeValue_getElementType M input).
Proof.
  intros Hdims [f Hf].
  destruct (NodeValue_dims_inv _ _ _ Hdims) as (T & t & HT & Ht & Hsz).
  assert (∀ shape, transposeShape dims shuffle = Some shape →
            ∃ M' nd,
              createTranspose TransposeNodeKind F name input shuffle M
              = Some (length (heap_ M), M')
              ∧ getNode M' (length (heap_ M)) = Some nd
              ∧ kind_ nd = TransposeNodeKind
              ∧ inputs_ nd = [input]
              ∧ NodeValue_dims M' (NodeValue_of (length (heap_ M)))
                = Some shape
              ∧ NodeValue_getElementType M' (NodeValue_of (length (heap_ M)))
                = NodeValue_getElementType M input) as Hrun.
  { intros shape Hshape.
    destruct (addNode_new_shape F T shape M t f
                (λ NT, TransposeNode_new TransposeNodeKind name NT input
                         shuffle) Ht Hf)
      as (NT & M1 & M' & t' & HU & Hadd & Hget & Hd & Hs & Hel & _).
    unfold createTranspose. rewrite Hdims. cbn [mbind option_bind].
    rewrite Hshape. cbn [mbind option_bind]. rewrite HT.
    cbn [mbind option_bind]. rewrite HU. cbn [mbind option_bind].
    destruct (newNode _ M1) as [Nd M2] eqn:HN. cbn [fst snd] in Hadd.
    rewrite Hadd. eexists M', _. split; [reflexivity|].
    split; [exact Hget|]. split_and!; try done.
    - destruct (NodeValue_of_type M' _ _ NT t' Hget eq_refl Hd) as [-> _].
      by rewrite Hs.
    - destruct (NodeValue_of_type M' _ _ NT t' Hget eq_refl Hd) as [_ ->].
      rewrite Hel. symmetry. by apply NodeValue_getElementType_inv with T. }
  split.
  - rewrite <- transposeShape_is_Some. split.
    + unfold createTranspose. rewrite Hdims. cbn [mbind option_bind].
      destruct (transposeShape dims shuffle); [by eexists|by intros [? ?]].
    + intros [shape Hshape]. destruct (Hrun shape Hshape) as (M' & ? & -> & _).
      by eexists.
  - intros Nd M' Hc.
    destruct (transposeShape dims shuffle) as [shape|] eqn:Hshape.
    + destruct (Hrun shape eq_refl) as (M'' & nd & Hc' & Hget & Hk & Hin
                                        & Hd & Hel).
      rewrite Hc in Hc'. injection Hc' as -> ->.
      exists nd, shape. split_and!; try done.
      * by apply transposeShape_Some in Hshape as [? _].
      * intros i s Hi His. apply transposeShape_Some in Hshape as [_ H].
        destruct (H i Hi) as (s' & ? & _ & ?). congruence.
      * by apply transposeShape_Permutation.
    + unfold createTranspose in Hc. rewrite Hdims in Hc.
      cbn [mbind option_bind] in Hc. by rewrite Hshape in Hc.
Qed.

Lemma createTranspose_spec_witness :
  ∃ Nd M',
    createTranspose ConcatNodeKind 0 "tr" (mkNodeValue 0 0) [1; 0]%nat
      concat_example = Some (Nd, M')
    ∧ NodeValue_dims M' (NodeValue_of Nd) = Some [10; 4].
Proof.
  destruct (createTranspose ConcatNodeKind 0 "tr" (mkNodeValue 0 0)
              [1; 0]%nat concat_example) as [[Nd M']|] eqn:E;
    [|by vm_compute in E].
  destruct (proj2 (createTranspose_spec ConcatNodeKind 0 "tr"
                     (mkNodeValue 0 0) [1; 0]%nat concat_example [4; 10]
                     eq_refl (mk_is_Some _ _ eq_refl)) Nd M' E)
    as (nd & shape & _ & _ & _ & Hd & Hlen & Hidx & _).
  exists Nd, M'. split; [done|]. rewrite Hd. f_equal.
  destruct shape as [|a [|b [|c shape]]]; try done.
  assert (a = 10) as ->.
  { assert (Some a = Some 10) as [= ->]; [|done].
    apply (Hidx 0%nat 1%nat); [simpl; lia|done]. }
  assert (b = 4) as ->.
  { assert (Some b = Some 4) as [= ->]; [|done].
    apply (Hidx 1%nat 0%nat); [simpl; lia|done]. }
  done.
Defined.

(** What a builder's last two steps do with a node whose result type was
    made by [uniqueType]. *)
Lemma addNode_uniqueType F T M f (mk : TypeRef → Node) :
  functions_ M !! F = Some f →
  ∃ i M',
    (uniqueType T M).1 = PoolRef i
    ∧ addNode F (newNode (mk (PoolRef i)) (uniqueType T M).2).1
        (newNode (mk (PoolRef i)) (uniqueType T M).2).2
      = Some (length (heap_ M), M')
    ∧ getNode M' (length (heap_ M)) = Some (mk (PoolRef i))
    ∧ poolGet (types_ M') i = Some T
    ∧ types_ M' = types_ (uniqueType T M).2
    ∧ (T ∈ types_ M → types_ M' = types_ M)
    ∧ vars_ M' = vars_ M
    ∧ functions_ M' !! F
      = Some (mkFunction (fname_ f) (nodes_ f ++ [length (heap_ M)]))
    ∧ pool_extends (types_ M) (types_ M')
    ∧ (∀ a x, getNode M a = Some x → getNode M' a = Some x).
Proof.
  intros Hf.
  destruct (poolUniqueType_PoolRef (types_ M) T) as [i Hi].
  pose proof (uniqueType_deref T M) as Hd.
  pose proof (uniqueType_extends T M) as Hext.
  destruct (uniqueType_frame T M) as (Hh & Hfs & Hv & _).
  rewrite uniqueType_unfold in *. cbn [fst snd] in *. rewrite Hi in Hd.
  set (M1 := set_types (poolUniqueType (types_ M) T).1 M) in *.
  assert (functions_ M1 !! F = Some f) as Hf1 by done.
  destruct (addNode_newNode F (mk (PoolRef i)) M1 f Hf1)
    as (M' & Hadd & Hget & Hty & Hvars & Hfn & Hold).
  change (heap_ M1) with (heap_ M) in *.
  exists i, M'. rewrite Hi. split_and!; try done.
  - by rewrite Hty.
  - intros HT. rewrite Hty. unfold M1. cbn [types_ set_types].
    by apply poolUniqueType_present.
  - by rewrite Hty.
Qed.

(** *** createMatMul *)

(** X9. [createMatMul] with a caller-supplied result type interns that
    type: the node's result type is a reference into the pool of the Module
    whose value is the supplied type, earlier references stay valid, and the
    pool is unchanged when it already held the type. *)
Theorem createMatMul_outTy_interns (MatMulNodeKind : Kind) (F : nat)
    (name : string) (outTy : TypeRef) (lhs rhs : NodeValue) (M : Module)
    (t : Ty) :
  derefType (types_ M) outTy = Some t →
  is_Some (functions_ M !! F) →
  ∃ Nd M' nd i,
    createMatMul_outTy MatMulNodeKind F name outTy lhs rhs M = Some (Nd, M')
    ∧ getNode M' Nd = Some nd
    ∧ kind_ nd = MatMulNodeKind
    ∧ inputs_ nd = [lhs; rhs]
    ∧ resTypes_ nd = [PoolRef i]
    ∧ poolGet (types_ M') i = Some t
    ∧ pool_extends (types_ M) (types_ M')
    ∧ (t ∈ types_ M → types_ M' = types_ M).
Proof.
  intros Ht [f Hf].
  destruct (addNode_uniqueType F t M f
              (λ OT, MatMulNode_new MatMulNodeKind name OT lhs rhs) Hf)
    as (i & M' & Hi & Hadd & Hget & Hp & _ & Hsame & _ & _ & Hext & _).
  unfold createMatMul_outTy. rewrite Ht. cbn [mbind option_bind].
  destruct (uniqueType t M) as [OT M1] eqn:HU. cbn [fst snd] in *. subst OT.
  destruct (newNode _ M1) as [Nd M2] eqn:HN. cbn [fst snd] in Hadd.
  rewrite Hadd. eexists _, M', _, i. split; [reflexivity|].
  split; [exact Hget|]. by split_and!.
Qed.

Lemma createMatMul_outTy_interns_witness :
  ∃ Nd M' nd i,
    createMatMul_outTy ConcatNodeKind 0 "mm"
      (ForeignRef (Type_plain FloatTy [4; 6])) (mkNodeValue 0 0)
      (mkNodeValue 1 0) concat_example = Some (Nd, M')
    ∧ getNode M' Nd = Some nd
    ∧ resTypes_ nd = [PoolRef i]
    ∧ poolGet (types_ M') i = Some (Type_plain FloatTy [4; 6])
    ∧ types_ M' = types_ concat_example.
Proof.
  destruct (createMatMul_outTy_interns ConcatNodeKind 0 "mm"
              (ForeignRef (Type_plain FloatTy [4; 6])) (mkNodeValue 0 0)
              (mkNodeValue 1 0) concat_example (Type_plain FloatTy [4; 6])
              eq_refl (mk_is_Some _ _ eq_refl))
    as (Nd & M' & nd & i & H1 & H2 & _ & _ & H3 & H4 & _ & H5).
  exists Nd, M', nd, i. split_and!; try done.
  apply H5. apply elem_of_cons. by left.
Defined.

(** X10. [createMatMul] without a result type succeeds exactly when the
    two operands have the same element kind, the left one has at least one
    dimension and the right one at least two; the inner dimensions are not
    compared.  The result type is a pool entry with dimensions
    [[lhs.dims[0]; rhs.dims[1]]], the element kind of the left operand and,
    if that is quantized, its scale and offset. *)
Theorem createMatMul_spec (MatMulNodeKind : Kind) (F : nat) (name : string)
    (lhs rhs : NodeValue) (M : Module) (LT RT : TypeRef) (lt rt : Ty) :
  NodeValue_getType M lhs = Some LT → derefType (types_ M) LT = Some lt →
  NodeValue_getType M rhs = Some RT → derefType (types_ M) RT = Some rt →
  is_Some (functions_ M !! F) →
  (is_Some (createMatMul MatMulNodeKind F name lhs rhs M)
   ↔ elementType_ lt = elementType_ rt
     ∧ (0 < length (sizes_ lt))%nat ∧ (1 < length (sizes_ rt))%nat)
  ∧ (∀ l0 r1,
       elementType_ lt = elementType_ rt →
       sizes_ lt !! 0%nat = Some l0 → sizes_ rt !! 1%nat = Some r1 →
       ∃ Nd M' nd i t',
         createMatMul MatMulNodeKind F name lhs rhs M = Some (Nd, M')
         ∧ getNode M' Nd = Some nd
         ∧ kind_ nd = MatMulNodeKind
         ∧ inputs_ nd = [lhs; rhs]
         ∧ resTypes_ nd = [PoolRef i]
         ∧ poolGet (types_ M') i = Some t'
         ∧ sizes_ t' = [l0; r1]
         ∧ elementType_ t' = elementType_ lt
         ∧ (isQuantizedType lt = true →
            scale_ t' = scale_ lt ∧ offset_ t' = offset_ lt)).
Proof.
  intros HLT Hlt HRT Hrt [f Hf].
  assert (∀ l0 r1,
       elementType_ lt = elementType_ rt →
       sizes_ lt !! 0%nat = Some l0 → sizes_ rt !! 1%nat = Some r1 →
       ∃ Nd M' nd i t',
         createMatMul MatMulNodeKind F name lhs rhs M = Some (Nd, M')
         ∧ getNode M' Nd = Some nd
         ∧ kind_ nd = MatMulNodeKind
         ∧ inputs_ nd = [lhs; rhs]
         ∧ resTypes_ nd = [PoolRef i]
         ∧ poolGet (types_ M') i = Some t'
         ∧ sizes_ t' = [l0; r1]
         ∧ elementType_ t' = elementType_ lt
         ∧ (isQuantizedType lt = true →
            scale_ t' = scale_ lt ∧ offset_ t' = offset_ lt)) as Hsuf.
  { intros l0 r1 Hel Hl0 Hr1.
    destruct (uniqueTypeWithNewShape_spec LT [l0; r1] M lt Hlt)
      as (ty & M1 & t' & HU & Hd & Hs & He & Hq & Hh & Hfs & Hv & Hext).
    assert (functions_ M1 !! F = Some f) as Hf1 by by rewrite Hfs.
    destruct (addNode_uniqueType F t' M1 f
                (λ OT, MatMulNode_new MatMulNodeKind name OT lhs rhs) Hf1)
      as (i & M' & Hi & Hadd & Hget & Hp & _).
    unfold createMatMul. rewrite HLT, HRT. cbn [mbind option_bind].
    rewrite Hlt, Hrt. cbn [mbind option_bind].
    rewrite bool_decide_eq_true_2 by done. rewrite Hl0, Hr1.
    cbn [mbind option_bind]. rewrite HU. cbn [mbind option_bind].
    unfold createMatMul_outTy. rewrite Hd. cbn [mbind option_bind].
    destruct (uniqueType t' M1) as [OT M2] eqn:HU2. cbn [fst snd] in *.
    subst OT. destruct (newNode _ M2) as [Nd M3] eqn:HN.
    cbn [fst snd] in Hadd. rewrite Hadd.
    eexists _, M', _, i, t'. split; [reflexivity|].
    split; [exact Hget|]. by split_and!. }
  split; [|done]. split.
  - unfold createMatMul. rewrite HLT, HRT. cbn [mbind option_bind].
    rewrite Hlt, Hrt. cbn [mbind option_bind].
    case_bool_decide as Hel; [|by intros [? ?]].
    destruct (sizes_ lt !! 0%nat) as [l0|] eqn:Hl0; [|by intros [? ?]].
    cbn [mbind option_bind].
    destruct (sizes_ rt !! 1%nat) as [r1|] eqn:Hr1; [|by intros [? ?]].
    intros _. split_and!; [done|by eapply lookup_lt_Some..].
  - intros (Hel & H0 & H1).
    destruct (lookup_lt_is_Some_2 (sizes_ lt) 0) as [l0 Hl0]; [done|].
    destruct (lookup_lt_is_Some_2 (sizes_ rt) 1) as [r1 Hr1]; [done|].
    destruct (Hsuf l0 r1 Hel Hl0 Hr1) as (Nd & M' & ? & ? & ? & -> & _).
    by eexists.
Qed.

Lemma createMatMul_spec_witness :
  ∃ Nd M' nd i t',
    createMatMul ConcatNodeKind 0 "mm" (mkNodeValue 0 0) (mkNodeValue 1 0)
      concat_example = Some (Nd, M')
    ∧ getNode M' Nd = Some nd
    ∧ resTypes_ nd = [PoolRef i]
    ∧ poolGet (types_ M') i = Some t'
    ∧ sizes_ t' = [4; 6].
Proof.
  destruct (proj2 (createMatMul_spec ConcatNodeKind 0 "mm" (mkNodeValue 0 0)
                     (mkNodeValue 1 0) concat_example (PoolRef 0) (PoolRef 1)
                     (Type_plain FloatTy [4; 10]) (Type_plain FloatTy [4; 6])
                     eq_refl eq_refl eq_refl eq_refl (mk_is_Some _ _ eq_refl))
              4 6 eq_refl eq_refl eq_refl)
    as (Nd & M' & nd & i & t' & H1 & H2 & _ & _ & H3 & H4 & H5 & _).
  by exists Nd, M', nd, i, t'.
Defined.

(** *** createFullyConnected with Variables for the weights and the bias *)

(** X11. [createFullyConnected] with Variables for the weights and the
    bias succeeds exactly when the input and the bias have at least one
    dimension each; the weights are not inspected.  The result has the
    dimensions [[input.dims[0]; B.dims[0]]] and the element kind of the
    input, and the operands are the input, the weights and the bias in this
    order. *)
Theorem createFullyConnected_spec (F : nat) (name : string)
    (input : NodeValue) (W B : addr) (M : Module) (idims bdims : list N) :
  NodeValue_dims M input = Some idims →
  Node_dims M B = Some bdims →
  is_Some (functions_ M !! F) →
  (is_Some (createFullyConnected F name input W B M)
   ↔ idims ≠ [] ∧ bdims ≠ [])
  ∧ (∀ i0 b0,
       idims !! 0%nat = Some i0 → bdims !! 0%nat = Some b0 →
       ∃ Nd M' nd,
         createFullyConnected F name input W B M = Some (Nd, M')
         ∧ getNode M' Nd = Some nd
         ∧ kind_ nd = FullyConnectedNodeKind
         ∧ inputs_ nd = [input; NodeValue_of W; NodeValue_of B]
         ∧ NodeValue_dims M' (NodeValue_of Nd) = Some [i0; b0]
         ∧ NodeValue_getElementType M' (NodeValue_of Nd)
           = NodeValue_getElementType M input).
Proof.
  intros Hidims Hbdims [f Hf].
  destruct (NodeValue_dims_inv _ _ _ Hidims) as (T & t & HT & Ht & Hsz).
  assert (∀ i0 b0,
       idims !! 0%nat = Some i0 → bdims !! 0%nat = Some b0 →
       ∃ Nd M' nd,
         createFullyConnected F name input W B M = Some (Nd, M')
         ∧ getNode M' Nd = Some nd
         ∧ kind_ nd = FullyConnectedNodeKind
         ∧ inputs_ nd = [input; NodeValue_of W; NodeValue_of B]
         ∧ NodeValue_dims M' (NodeValue_of Nd) = Some [i0; b0]
         ∧ NodeValue_getElementType M' (NodeValue_of Nd)
           = NodeValue_getElementType M input) as Hsuf.
  { intros i0 b0 Hi0 Hb0.
    destruct (addNode_new_shape F T [i0; b0] M t f
                (λ OT, FullyConnectedNode_new name OT input (NodeValue_of W)
                         (NodeValue_of B)) Ht Hf)
      as (NT & M1 & M' & t' & HU & Hadd & Hget & Hd & Hs & Hel & _).
    unfold createFullyConnected. rewrite HT. cbn [mbind option_bind].
    rewrite Hidims. cbn [mbind option_bind]. rewrite Hi0.
    cbn [mbind option_bind]. rewrite Hbdims. cbn [mbind option_bind].
    rewrite Hb0. cbn [mbind option_bind]. rewrite HU.
    cbn [mbind option_bind].
    destruct (newNode _ M1) as [Nd M2] eqn:HN. cbn [fst snd] in Hadd.
    rewrite Hadd. eexists _, M', _. split; [reflexivity|].
    split; [exact Hget|]. split_and!; try done.
    - destruct (NodeValue_of_type M' _ _ NT t' Hget eq_refl Hd) as [-> _].
      by rewrite Hs.
    - destruct (NodeValue_of_type M' _ _ NT t' Hget eq_refl Hd) as [_ ->].
      rewrite Hel. symmetry. by apply NodeValue_getElementType_inv with T. }
  split; [|done]. split.
  - unfold createFullyConnected. rewrite HT. cbn [mbind option_bind].
    rewrite Hidims. cbn [mbind option_bind].
    destruct idims as [|i0 idims]; [by intros [? ?]|].
    cbn [mbind option_bind lookup list_lookup]. rewrite Hbdims.
    cbn [mbind option_bind].
    destruct bdims as [|b0 bdims]; [by intros [? ?]|]. done.
  - intros [Hi Hb]. destruct idims as [|i0 idims]; [done|].
    destruct bdims as [|b0 bdims]; [done|].
    destruct (Hsuf i0 b0 eq_refl eq_refl) as (Nd & M' & ? & -> & _).
    by eexists.
Qed.

Lemma createFullyConnected_spec_witness :
  ∃ Nd M',
    createFullyConnected 0 "fc" (mkNodeValue 0 0) 0 1 concat_example
    = Some (Nd, M')
    ∧ NodeValue_dims M' (NodeValue_of Nd) = Some [4; 4].
Proof.
  destruct (proj2 (createFullyConnected_spec 0 "fc" (mkNodeValue 0 0) 0 1
                     concat_example [4; 10] [4; 6] eq_refl eq_refl
                     (mk_is_Some _ _ eq_refl)) 4 4 eq_refl eq_refl)
    as (Nd & M' & nd & H1 & _ & _ & _ & H2 & _).
  by exists Nd, M'.
Defined.

(** *** createBatchedReduceAdd *)

(** X12. For a batch that is not quantized (the result type is built with
    the constructor of non-quantized types), [createBatchedReduceAdd]
    succeeds exactly when the batch has at least one dimension; the result
    type is the pool entry for the element kind of the batch and its
    dimensions without the first. *)
Theorem createBatchedReduceAdd_spec (BatchedReduceAddNodeKind : Kind)
    (F : nat) (name : string) (batch : NodeValue) (M : Module)
    (BT : TypeRef) (bt : Ty) :
  NodeValue_getType M batch = Some BT →
  derefType (types_ M) BT = Some bt →
  isQuantizedType bt = false →
  is_Some (functions_ M !! F) →
  (is_Some (createBatchedReduceAdd BatchedReduceAddNodeKind F name batch M)
   ↔ sizes_ bt ≠ [])
  ∧ (∀ d rest,
       sizes_ bt = d :: rest →
       ∃ Nd M' nd i,
         createBatchedReduceAdd BatchedReduceAddNodeKind F name batch M
         = Some (Nd, M')
         ∧ getNode M' Nd = Some nd
         ∧ kind_ nd = BatchedReduceAddNodeKind
         ∧ inputs_ nd = [batch]
         ∧ resTypes_ nd = [PoolRef i]
         ∧ poolGet (types_ M') i = Some (Type_plain (elementType_ bt) rest)
         ∧ NodeValue_dims M' (NodeValue_of Nd) = Some rest).
Proof.
  intros HBT Hbt _ [f Hf].
  assert (∀ d rest,
       sizes_ bt = d :: rest →
       ∃ Nd M' nd i,
         createBatchedReduceAdd BatchedReduceAddNodeKind F name batch M
         = Some (Nd, M')
         ∧ getNode M' Nd = Some nd
         ∧ kind_ nd = BatchedReduceAddNodeKind
         ∧ inputs_ nd = [batch]
         ∧ resTypes_ nd = [PoolRef i]
         ∧ poolGet (types_ M') i = Some (Type_plain (elementType_ bt) rest)
         ∧ NodeValue_dims M' (NodeValue_of Nd) = Some rest) as Hsuf.
  { intros d rest Hsz.
    destruct (addNode_uniqueType F (Type_plain (elementType_ bt) rest) M f
                (λ T, BatchedReduceAddNode_new BatchedReduceAddNodeKind name
                        T batch) Hf)
      as (i & M' & Hi & Hadd & Hget & Hp & _).
    unfold createBatchedReduceAdd. rewrite HBT. cbn [mbind option_bind].
    rewrite Hbt. cbn [mbind option_bind]. rewrite Hsz.
    destruct (uniqueType _ M) as [OT M1] eqn:HU. cbn [fst snd] in *.
    subst OT. destruct (newNode _ M1) as [Nd M2] eqn:HN.
    cbn [fst snd] in Hadd. rewrite Hadd.
    eexists _, M', _, i. split; [reflexivity|].
    split; [exact Hget|]. split_and!; try done.
    by destruct (NodeValue_of_type M' _ _ (PoolRef i) _ Hget eq_refl Hp)
      as [-> _]. }
  split; [|done]. split.
  - unfold createBatchedReduceAdd. rewrite HBT. cbn [mbind option_bind].
    rewrite Hbt. cbn [mbind option_bind].
    destruct (sizes_ bt); [by intros [? ?]|done].
  - intros Hne. destruct (sizes_ bt) as [|d rest] eqn:Hsz; [done|].
    destruct (Hsuf d rest eq_refl) as (Nd & M' & ? & ? & -> & _).
    by eexists.
Qed.

Lemma createBatchedReduceAdd_spec_witness :
  ∃ Nd M',
    createBatchedReduceAdd ConcatNodeKind 0 "sum" (mkNodeValue 0 0)
      concat_example = Some (Nd, M')
    ∧ NodeValue_dims M' (NodeValue_of Nd) = Some [10].
Proof.
  destruct (proj2 (createBatchedReduceAdd_spec ConcatNodeKind 0 "sum"
                     (mkNodeValue 0 0) concat_example (PoolRef 0)
                     (Type_plain FloatTy [4; 10]) eq_refl eq_refl eq_refl
                     (mk_is_Some _ _ eq_refl)) 4 [10] eq_refl)
    as (Nd & M' & nd & i & H1 & _ & _ & _ & _ & _ & H2).
  by exists Nd, M'.
Defined.

(** *** createQuantize and createDequantize *)

Lemma createDequantize_ok DequantizeNodeKind F name input M T t f :
  NodeValue_getType M input = Some T →
  derefType (types_ M) T = Some t →
  functions_ M !! F = Some f →
  elementType_ t = Int8QTy →
  ∃ Nd M' nd i,
    createDequantize DequantizeNodeKind F name input M = Some (Nd, M')
    ∧ getNode M' Nd = Some nd
    ∧ kind_ nd = DequantizeNodeKind
    ∧ inputs_ nd = [input]
    ∧ resTypes_ nd = [PoolRef i]
    ∧ poolGet (types_ M') i = Some (Type_plain FloatTy (sizes_ t))
    ∧ pool_extends (types_ M) (types_ M')
    ∧ (uniqueType (Type_plain FloatTy (sizes_ t)) M).1 = PoolRef i.
Proof.
  intros HT Ht Hf Hq.
  assert (NodeValue_getElementType M input = Some (elementType_ t)) as Hek.
  { by apply NodeValue_getElementType_inv with T. }
  assert (NodeValue_dims M input = Some (sizes_ t)) as Hdims.
  { unfold NodeValue_dims, TypeRef_dims. rewrite HT. cbn [mbind option_bind].
    by rewrite Ht. }
  destruct (addNode_uniqueType F (Type_plain FloatTy (sizes_ t)) M f
              (λ OT, DequantizeNode_new DequantizeNodeKind name OT input)
              Hf)
    as (i & M' & Hi & Hadd & Hget & Hp & _ & _ & _ & _ & Hext & _).
  unfold createDequantize. rewrite Hek. cbn [mbind option_bind].
  rewrite bool_decide_eq_true_2 by done. rewrite Hdims.
  cbn [mbind option_bind].
  destruct (uniqueType _ M) as [OT M1] eqn:HU. cbn [fst snd] in *.
  subst OT. destruct (newNode _ M1) as [Nd M2] eqn:HN.
  cbn [fst snd] in Hadd. rewrite Hadd.
  eexists _, M', _, i. split; [reflexivity|].
  split; [exact Hget|]. by split_and!.
Qed.

(** X13. [createDequantize] succeeds exactly when the input is of the
    quantized element kind; the result type is the pool entry for the plain
    float type with the dimensions of the input, and earlier references into
    the pool stay valid. *)
Theorem createDequantize_spec (DequantizeNodeKind : Kind) (F : nat)
    (name : string) (input : NodeValue) (M : Module) (T : TypeRef) (t : Ty) :
  NodeValue_getType M input = Some T →
  derefType (types_ M) T = Some t →
  is_Some (functions_ M !! F) →
  (is_Some (createDequantize DequantizeNodeKind F name input M)
   ↔ elementType_ t = Int8QTy)
  ∧ (elementType_ t = Int8QTy →
     ∃ Nd M' nd i,
       createDequantize DequantizeNodeKind F name input M = Some (Nd, M')
       ∧ getNode M' Nd = Some nd
       ∧ kind_ nd = DequantizeNodeKind
       ∧ inputs_ nd = [input]
       ∧ resTypes_ nd = [PoolRef i]
       ∧ poolGet (types_ M') i = Some (Type_plain FloatTy (sizes_ t))
       ∧ pool_extends (types_ M) (types_ M')).
Proof.
  intros HT Ht [f Hf].
  assert (NodeValue_getElementType M input = Some (elementType_ t)) as Hek.
  { by apply NodeValue_getElementType_inv with T. }
  split; [split|].
  - unfold createDequantize. rewrite Hek. cbn [mbind option_bind].
    case_bool_decide; [done|by intros [? ?]].
  - intros Hq.
    destruct (createDequantize_ok DequantizeNodeKind F name input M T t f
                HT Ht Hf Hq) as (Nd & M' & ? & ? & -> & _).
    by eexists.
  - intros Hq.
    destruct (createDequantize_ok DequantizeNodeKind F name input M T t f
                HT Ht Hf Hq)
      as (Nd & M' & nd & i & H1 & H2 & H3 & H4 & H5 & H6 & H7 & _).
    by exists Nd, M', nd, i.
Qed.

Lemma createDequantize_spec_witness :
  ∃ Nd M' nd i,
    createDequantize ConcatNodeKind 0 "deq" (mkNodeValue 0 0) quant_example
    = Some (Nd, M')
    ∧ getNode M' Nd = Some nd
    ∧ resTypes_ nd = [PoolRef i]
    ∧ poolGet (types_ M') i = Some (Type_plain FloatTy [2; 3]).
Proof.
  destruct (proj2 (createDequantize_spec ConcatNodeKind 0 "deq"
                     (mkNodeValue 0 0) quant_example (PoolRef 0)
                     (Type_quant Int8QTy [2; 3] 4%Z 1%Z) eq_refl eq_refl
                     (mk_is_Some _ _ eq_refl)) eq_refl)
    as (Nd & M' & nd & i & H1 & H2 & _ & _ & H3 & H4 & _).
  by exists Nd, M', nd, i.
Defined.

Lemma createQuantize_ok QuantizeNodeKind F name a outTy M n T t ot f :
  getNode M a = Some n → resTypes_ n = [T] →
  derefType (types_ M) T = Some t →
  derefType (types_ M) outTy = Some ot →
  functions_ M !! F = Some f →
  elementType_ t = FloatTy → elementType_ ot = Int8QTy →
  sizes_ t = sizes_ ot →
  ∃ Nd M' nd,
    createQuantize QuantizeNodeKind F name (NodeValue_of a) outTy M
    = Some (Nd, M')
    ∧ getNode M' Nd = Some nd
    ∧ kind_ nd = QuantizeNodeKind
    ∧ inputs_ nd = [NodeValue_of a]
    ∧ resTypes_ nd = [outTy]
    ∧ types_ M' = types_ M
    ∧ is_Some (functions_ M' !! F)
    ∧ (∀ b x, getNode M b = Some x → getNode M' b = Some x).
Proof.
  intros Hn Hres HT Hot Hf H1 H2 H3.
  assert (NodeValue_getType M (NodeValue_of a) = Some T) as HgT.
  { unfold NodeValue_getType, Node_getType. simpl. rewrite Hn.
    cbn [mbind option_bind]. by rewrite Hres. }
  assert (NodeValue_getElementType M (NodeValue_of a)
          = Some (elementType_ t)) as Hek.
  { by apply NodeValue_getElementType_inv with T. }
  assert (Node_dims M a = Some (sizes_ t)) as Hdims.
  { unfold Node_dims, Node_getType, TypeRef_dims. rewrite Hn.
    cbn [mbind option_bind]. rewrite Hres. cbn [mbind option_bind lookup].
    simpl. by rewrite HT. }
  destruct (addNode_newNode F
              (QuantizeNode_new QuantizeNodeKind name outTy
                 (NodeValue_of a)) M f Hf)
    as (M' & Hadd & Hget & Hty & _ & Hfn & Hold).
  unfold createQuantize. rewrite Hek. cbn [mbind option_bind].
  rewrite bool_decide_eq_true_2 by done. rewrite Hot.
  cbn [mbind option_bind]. rewrite bool_decide_eq_true_2 by done.
  change (nv_node (NodeValue_of a)) with a. rewrite Hdims.
  cbn [mbind option_bind]. rewrite bool_decide_eq_true_2 by done.
  destruct (newNode _ M) as [Nd M2] eqn:HN. cbn [fst snd] in Hadd.
  rewrite Hadd. eexists _, M', _. split; [reflexivity|].
  split; [exact Hget|]. by split_and!.
Qed.

(** X14. For an input that is the only result of its producer,
    [createQuantize] succeeds exactly when the input is of float kind, the
    requested type is of the quantized kind and the two have the same
    dimensions.  The node keeps the very reference it was given as its
    result type, and the pool is not touched. *)
Theorem createQuantize_spec (QuantizeNodeKind : Kind) (F : nat)
    (name : string) (a : addr) (outTy : TypeRef) (M : Module) (n : Node)
    (T : TypeRef) (t ot : Ty) :
  getNode M a = Some n → resTypes_ n = [T] →
  derefType (types_ M) T = Some t →
  derefType (types_ M) outTy = Some ot →
  is_Some (functions_ M !! F) →
  (is_Some (createQuantize QuantizeNodeKind F name (NodeValue_of a) outTy M)
   ↔ elementType_ t = FloatTy ∧ elementType_ ot = Int8QTy
     ∧ sizes_ t = sizes_ ot)
  ∧ (elementType_ t = FloatTy → elementType_ ot = Int8QTy →
     sizes_ t = sizes_ ot →
     ∃ Nd M' nd,
       createQuantize QuantizeNodeKind F name (NodeValue_of a) outTy M
       = Some (Nd, M')
       ∧ getNode M' Nd = Some nd
       ∧ kind_ nd = QuantizeNodeKind
       ∧ inputs_ nd = [NodeValue_of a]
       ∧ resTypes_ nd = [outTy]
       ∧ types_ M' = types_ M).
Proof.
  intros Hn Hres HT Hot [f Hf].
  assert (NodeValue_getType M (NodeValue_of a) = Some T) as HgT.
  { unfold NodeValue_getType, Node_getType. simpl. rewrite Hn.
    cbn [mbind option_bind]. by rewrite Hres. }
  assert (NodeValue_getElementType M (NodeValue_of a)
          = Some (elementType_ t)) as Hek.
  { by apply NodeValue_getElementType_inv with T. }
  assert (Node_dims M a = Some (sizes_ t)) as Hdims.
  { unfold Node_dims, Node_getType, TypeRef_dims. rewrite Hn.
    cbn [mbind option_bind]. rewrite Hres. cbn [mbind option_bind lookup].
    simpl. by rewrite HT. }
  split; [split|].
  - unfold createQuantize. rewrite Hek. cbn [mbind option_bind].
    case_bool_decide; [|by intros [? ?]]. rewrite Hot.
    cbn [mbind option_bind]. case_bool_decide; [|by intros [? ?]].
    change (nv_node (NodeValue_of a)) with a. rewrite Hdims.
    cbn [mbind option_bind]. case_bool_decide; [done|by intros [? ?]].
  - intros (H1 & H2 & H3).
    destruct (createQuantize_ok QuantizeNodeKind F name a outTy M n T t ot f
                Hn Hres HT Hot Hf H1 H2 H3) as (Nd & M' & ? & -> & _).
    by eexists.
  - intros H1 H2 H3.
    destruct (createQuantize_ok QuantizeNodeKind F name a outTy M n T t ot f
                Hn Hres HT Hot Hf H1 H2 H3)
      as (Nd & M' & nd & E1 & E2 & E3 & E4 & E5 & E6 & _).
    by exists Nd, M', nd.
Qed.

Lemma createQuantize_spec_witness :
  ∃ Nd M' nd,
    createQuantize ConcatNodeKind 0 "q" (NodeValue_of 0)
      (ForeignRef (Type_quant Int8QTy [4; 10] 2%Z 0%Z)) concat_example
    = Some (Nd, M')
    ∧ getNode M' Nd = Some nd
    ∧ resTypes_ nd = [ForeignRef (Type_quant Int8QTy [4; 10] 2%Z 0%Z)]
    ∧ types_ M' = types_ concat_example.
Proof.
  destruct (proj2 (createQuantize_spec ConcatNodeKind 0 "q" 0
                     (ForeignRef (Type_quant Int8QTy [4; 10] 2%Z 0%Z))
                     concat_example
                     (Variable_new "A__0" (PoolRef 0) Public TrainNone)
                     (PoolRef 0) (Type_plain FloatTy [4; 10])
                     (Type_quant Int8QTy [4; 10] 2%Z 0%Z)
                     eq_refl eq_refl eq_refl eq_refl (mk_is_Some _ _ eq_refl))
              eq_refl eq_refl eq_refl)
    as (Nd & M' & nd & H1 & H2 & _ & _ & H3 & H4).
  by exists Nd, M', nd.
Defined.

(** X15. Quantizing a float value and dequantizing the result gives back
    the type of the value: the result type of the Dequantize node is a pool
    entry equal to the float type the value had, and when that type was
    itself an entry of a duplicate-free pool it is the same entry. *)
Theorem quantize_dequantize_roundtrip
    (QuantizeNodeKind DequantizeNodeKind : Kind) (F : nat)
    (qname dname : string) (a : addr) (outTy : TypeRef) (M : Module)
    (n : Node) (T : TypeRef) (dims : list N) (ot : Ty) :
  getNode M a = Some n → resTypes_ n = [T] →
  derefType (types_ M) T = Some (Type_plain FloatTy dims) →
  derefType (types_ M) outTy = Some ot →
  elementType_ ot = Int8QTy → sizes_ ot = dims →
  is_Some (functions_ M !! F) →
  ∃ Q M1 D M2 i,
    createQuantize QuantizeNodeKind F qname (NodeValue_of a) outTy M
    = Some (Q, M1)
    ∧ createDequantize DequantizeNodeKind F dname (NodeValue_of Q) M1
      = Some (D, M2)
    ∧ Node_getType M2 D 0 = Some (PoolRef i)
    ∧ poolGet (types_ M2) i = Some (Type_plain FloatTy dims)
    ∧ (NoDup (types_ M) → ∀ j, T = PoolRef j → i = j).
Proof.
  intros Hn Hres HT Hot Hq Hsz [f Hf].
  destruct (createQuantize_ok QuantizeNodeKind F qname a outTy M n T
              (Type_plain FloatTy dims) ot f Hn Hres HT Hot Hf eq_refl Hq
              (eq_sym Hsz))
    as (Q & M1 & nq & HQ & HgQ & _ & _ & HrQ & Hty & [f1 Hf1] & Hold).
  assert (NodeValue_getType M1 (NodeValue_of Q) = Some outTy) as HTQ.
  { unfold NodeValue_getType, Node_getType. simpl. rewrite HgQ.
    cbn [mbind option_bind]. by rewrite HrQ. }
  assert (derefType (types_ M1) outTy = Some ot) as Hot1 by by rewrite Hty.
  destruct (createDequantize_ok DequantizeNodeKind F dname (NodeValue_of Q)
              M1 outTy ot f1 HTQ Hot1 Hf1 Hq)
    as (D & M2 & nd & i & HD & HgD & _ & _ & HrD & Hp & _ & Hi).
  exists Q, M1, D, M2, i. split_and!; try done.
  - unfold Node_getType. rewrite HgD. cbn [mbind option_bind].
    by rewrite HrD.
  - by rewrite <- Hsz.
  - intros Hnd j ->. simpl in HT.
    rewrite uniqueType_unfold in Hi. cbn [fst] in Hi. rewrite Hty, Hsz in Hi.
    rewrite (poolUniqueType_same_instance _ _ j Hnd HT) in Hi.
    by injection Hi.
Qed.

Lemma quantize_dequantize_roundtrip_witness :
  ∃ Q M1 D M2,
    createQuantize ConcatNodeKind 0 "q" (NodeValue_of 0)
      (ForeignRef (Type_quant Int8QTy [4; 10] 2%Z 0%Z)) concat_example
    = Some (Q, M1)
    ∧ createDequantize ConcatNodeKind 0 "d" (NodeValue_of Q) M1
      = Some (D, M2)
    ∧ Node_getType M2 D 0 = Some (PoolRef 0).
Proof.
  destruct (quantize_dequantize_roundtrip ConcatNodeKind ConcatNodeKind 0
              "q" "d" 0 (ForeignRef (Type_quant Int8QTy [4; 10] 2%Z 0%Z))
              concat_example
              (Variable_new "A__0" (PoolRef 0) Public TrainNone)
              (PoolRef 0) [4; 10] (Type_quant Int8QTy [4; 10] 2%Z 0%Z)
              eq_refl eq_refl eq_refl eq_refl eq_refl eq_refl
              (mk_is_Some _ _ eq_refl))
    as (Q & M1 & D & M2 & i & H1 & H2 & H3 & _ & H5).
  exists Q, M1, D, M2. split_and!; [done..|].
  rewrite H3. f_equal. f_equal. apply H5; [|done].
  apply NoDup_cons. split.
  - intros [H | H]%elem_of_cons; [done|by apply elem_of_nil in H].
  - apply NoDup_singleton.
Defined.

(** *** createGather *)

(** X16. For data that is the only result of its producer, [createGather]
    succeeds exactly when the data has at least one dimension; the result
    has the dimensions of the indices followed by the dimensions of the
    data without the first, and the element kind of the data. *)
Theorem createGather_spec (GatherNodeKind : Kind) (F : nat) (name : string)
    (a : addr) (indices : NodeValue) (M : Module) (n : Node) (T : TypeRef)
    (t : Ty) (iDims : list N) :
  getNode M a = Some n → resTypes_ n = [T] →
  derefType (types_ M) T = Some t →
  NodeValue_dims M indices = Some iDims →
  is_Some (functions_ M !! F) →
  (is_Some (createGather GatherNodeKind F name (NodeValue_of a) indices M)
   ↔ sizes_ t ≠ [])
  ∧ (sizes_ t ≠ [] →
     ∃ Nd M' nd,
       createGather GatherNodeKind F name (NodeValue_of a) indices M
       = Some (Nd, M')
       ∧ getNode M' Nd = Some nd
       ∧ kind_ nd = GatherNodeKind
       ∧ inputs_ nd = [NodeValue_of a; indices]
       ∧ NodeValue_dims M' (NodeValue_of Nd)
         = Some (iDims ++ drop 1 (sizes_ t))%list
       ∧ NodeValue_getElementType M' (NodeValue_of Nd)
         = Some (elementType_ t)).
Proof.
  intros Hn Hres HT Hidx [f Hf].
  assert (Node_getType M a 0 = Some T) as HgT.
  { unfold Node_getType. rewrite Hn. cbn [mbind option_bind].
    by rewrite Hres. }
  assert (NodeValue_dims M (NodeValue_of a) = Some (sizes_ t)) as Hdims.
  { unfold NodeValue_dims, NodeValue_getType, TypeRef_dims. simpl.
    rewrite HgT. cbn [mbind option_bind]. by rewrite HT. }
  assert (sizes_ t ≠ [] →
     ∃ Nd M' nd,
       createGather GatherNodeKind F name (NodeValue_of a) indices M
       = Some (Nd, M')
       ∧ getNode M' Nd = Some nd
       ∧ kind_ nd = GatherNodeKind
       ∧ inputs_ nd = [NodeValue_of a; indices]
       ∧ NodeValue_dims M' (NodeValue_of Nd)
         = Some (iDims ++ drop 1 (sizes_ t))%list
       ∧ NodeValue_getElementType M' (NodeValue_of Nd)
         = Some (elementType_ t)) as Hsuf.
  { intros Hne.
    destruct (addNode_new_shape F T (iDims ++ drop 1 (sizes_ t))%list M t f
                (λ NT, GatherNode_new GatherNodeKind name NT (NodeValue_of a)
                         indices) HT Hf)
      as (NT & M1 & M' & t' & HU & Hadd & Hget & Hd & Hs & Hel & _).
    unfold createGather. rewrite Hdims. cbn [mbind option_bind].
    rewrite Hidx. cbn [mbind option_bind].
    rewrite bool_decide_eq_true_2 by (destruct (sizes_ t); simpl; [done|lia]).
    change (nv_node (NodeValue_of a)) with a. rewrite HgT.
    cbn [mbind option_bind]. rewrite HU. cbn [mbind option_bind].
    destruct (newNode _ M1) as [Nd M2] eqn:HN. cbn [fst snd] in Hadd.
    rewrite Hadd. eexists _, M', _. split; [reflexivity|].
    split; [exact Hget|]. split_and!; try done.
    - destruct (NodeValue_of_type M' _ _ NT t' Hget eq_refl Hd) as [-> _].
      by rewrite Hs.
    - destruct (NodeValue_of_type M' _ _ NT t' Hget eq_refl Hd) as [_ ->].
      by rewrite Hel. }
  split; [|done]. split.
  - unfold createGather. rewrite Hdims. cbn [mbind option_bind].
    rewrite Hidx. cbn [mbind option_bind].
    case_bool_decide as Hlen; [|by intros [? ?]].
    intros _ Hnil. rewrite Hnil in Hlen. simpl in Hlen. lia.
  - intros Hne. destruct (Hsuf Hne) as (Nd & M' & ? & -> & _). by eexists.
Qed.

Lemma createGather_spec_witness :
  ∃ Nd M',
    createGather ConcatNodeKind 0 "gather" (NodeValue_of 0) (mkNodeValue 1 0)
      concat_example = Some (Nd, M')
    ∧ NodeValue_dims M' (NodeValue_of Nd) = Some [4; 6; 10].
Proof.
  destruct (proj2 (createGather_spec ConcatNodeKind 0 "gather" 0
                     (mkNodeValue 1 0) concat_example
                     (Variable_new "A__0" (PoolRef 0) Public TrainNone)
                     (PoolRef 0) (Type_plain FloatTy [4; 10]) [4; 6]
                     eq_refl eq_refl eq_refl eq_refl (mk_is_Some _ _ eq_refl)))
    as (Nd & M' & nd & H1 & _ & _ & _ & H2 & _); [done|].
  by exists Nd, M'.
Defined.

(** *** createTopK *)

Lemma uniqueType_twice T1 T2 M :
  ∃ i1 i2 M2,
    uniqueType T1 M = (PoolRef i1, (uniqueType T1 M).2)
    ∧ uniqueType T2 (uniqueType T1 M).2 = (PoolRef i2, M2)
    ∧ poolGet (types_ M2) i1 = Some T1
    ∧ poolGet (types_ M2) i2 = Some T2
    ∧ heap_ M2 = heap_ M ∧ functions_ M2 = functions_ M
    ∧ vars_ M2 = vars_ M.
Proof.
  destruct (poolUniqueType_PoolRef (types_ M) T1) as [i1 Hi1].
  pose proof (uniqueType_deref T1 M) as Hd1.
  destruct (uniqueType_frame T1 M) as (Hh1 & Hf1 & Hv1 & _).
  destruct (uniqueType T1 M) as [r1 M1] eqn:HU1.
  rewrite uniqueType_unfold in HU1. injection HU1 as Hr1 HM1.
  rewrite Hi1 in Hr1. subst r1. cbn [fst snd] in *.
  destruct (poolUniqueType_PoolRef (types_ M1) T2) as [i2 Hi2].
  pose proof (uniqueType_deref T2 M1) as Hd2.
  pose proof (uniqueType_extends T2 M1) as Hext.
  destruct (uniqueType_frame T2 M1) as (Hh2 & Hf2 & Hv2 & _).
  destruct (uniqueType T2 M1) as [r2 M2] eqn:HU2.
  rewrite uniqueType_unfold in HU2. injection HU2 as Hr2 HM2.
  rewrite Hi2 in Hr2. subst r2. cbn [fst snd] in *.
  exists i1, i2, M2. split_and!; try done; try congruence.
  by apply Hext.
Qed.

(** X17. For an input that is not quantized and is the only result of its
    producer, [createTopK] succeeds exactly when the input has a last
    dimension and [k] does not exceed it.  In whichever order the two
    result types are interned, the node has two results over the input
    dimensions with the last one replaced by [k]: the values, of the
    element kind of the input, and the indices, of the index kind. *)
Theorem createTopK_spec (TopKNodeKind : Kind) (valuesFirst : bool) (F : nat)
    (name : string) (a : addr) (k : N) (M : Module) (n : Node) (T : TypeRef)
    (t : Ty) :
  getNode M a = Some n → resTypes_ n = [T] →
  derefType (types_ M) T = Some t →
  isQuantizedType t = false →
  is_Some (functions_ M !! F) →
  (is_Some (createTopK TopKNodeKind valuesFirst F name (NodeValue_of a) k M)
   ↔ ∃ back, last (sizes_ t) = Some back ∧ k ≤ back)
  ∧ (∀ back,
       last (sizes_ t) = Some back → k ≤ back →
       let outDims := <[pred (length (sizes_ t)) := k]> (sizes_ t) in
       ∃ Nd M' nd iv ii,
         createTopK TopKNodeKind valuesFirst F name (NodeValue_of a) k M
         = Some (Nd, M')
         ∧ getNode M' Nd = Some nd
         ∧ kind_ nd = TopKNodeKind
         ∧ inputs_ nd = [NodeValue_of a]
         ∧ attrs_ nd = [k]
         ∧ resTypes_ nd = [PoolRef iv; PoolRef ii]
         ∧ poolGet (types_ M') iv
           = Some (Type_plain (elementType_ t) outDims)
         ∧ poolGet (types_ M') ii = Some (Type_plain IndexTy outDims)).
Proof.
  intros Hn Hres HT _ [f Hf].
  assert (Node_getType M a 0 = Some T) as HgT.
  { unfold Node_getType. rewrite Hn. cbn [mbind option_bind].
    by rewrite Hres. }
  assert (NodeValue_dims M (NodeValue_of a) = Some (sizes_ t)) as Hdims.
  { unfold NodeValue_dims, NodeValue_getType, TypeRef_dims. simpl.
    rewrite HgT. cbn [mbind option_bind]. by rewrite HT. }
  assert (Node_type M a = Some t) as Hty.
  { unfold Node_type. rewrite HgT. done. }
  assert (∀ back,
       last (sizes_ t) = Some back → k ≤ back →
       let outDims := <[pred (length (sizes_ t)) := k]> (sizes_ t) in
       ∃ Nd M' nd iv ii,
         createTopK TopKNodeKind valuesFirst F name (NodeValue_of a) k M
         = Some (Nd, M')
         ∧ getNode M' Nd = Some nd
         ∧ kind_ nd = TopKNodeKind
         ∧ inputs_ nd = [NodeValue_of a]
         ∧ attrs_ nd = [k]
         ∧ resTypes_ nd = [PoolRef iv; PoolRef ii]
         ∧ poolGet (types_ M') iv
           = Some (Type_plain (elementType_ t) outDims)
         ∧ poolGet (types_ M') ii = Some (Type_plain IndexTy outDims))
    as Hsuf.
  { intros back Hback Hk outDims.
    unfold createTopK. rewrite Hdims. cbn [mbind option_bind].
    rewrite Hback. cbn [mbind option_bind].
    rewrite bool_decide_eq_true_2 by done.
    change (nv_node (NodeValue_of a)) with a. rewrite Hty.
    cbn [mbind option_bind]. fold outDims. unfold uniqueType_dims.
    destruct valuesFirst.
    - destruct (uniqueType_twice (Type_plain (elementType_ t) outDims)
                  (Type_plain IndexTy outDims) M)
        as (iv & ii & M2 & H1 & H2 & Hpv & Hpi & Hh & Hfs & _).
      rewrite H1, H2.
      assert (functions_ M2 !! F = Some f) as Hf2 by by rewrite Hfs.
      destruct (addNode_newNode F
                  (TopKNode_new TopKNodeKind name (PoolRef iv) (PoolRef ii)
                     (NodeValue_of a) k) M2 f Hf2)
        as (M' & Hadd & Hget & Htys & _).
      destruct (newNode _ M2) as [Nd M3] eqn:HN. cbn [fst snd] in Hadd.
      rewrite Hadd. eexists _, M', _, iv, ii. split; [reflexivity|].
      split; [exact Hget|]. split_and!; try done; by rewrite Htys.
    - destruct (uniqueType_twice (Type_plain IndexTy outDims)
                  (Type_plain (elementType_ t) outDims) M)
        as (ii & iv & M2 & H1 & H2 & Hpi & Hpv & Hh & Hfs & _).
      rewrite H1, H2.
      assert (functions_ M2 !! F = Some f) as Hf2 by by rewrite Hfs.
      destruct (addNode_newNode F
                  (TopKNode_new TopKNodeKind name (PoolRef iv) (PoolRef ii)
                     (NodeValue_of a) k) M2 f Hf2)
        as (M' & Hadd & Hget & Htys & _).
      destruct (newNode _ M2) as [Nd M3] eqn:HN. cbn [fst snd] in Hadd.
      rewrite Hadd. eexists _, M', _, iv, ii. split; [reflexivity|].
      split; [exact Hget|]. split_and!; try done; by rewrite Htys. }
  split; [|done]. split.
  - unfold createTopK. rewrite Hdims. cbn [mbind option_bind].
    destruct (last (sizes_ t)) as [back|]; [|by intros [? ?]].
    cbn [mbind option_bind]. case_bool_decide; [|by intros [? ?]].
    intros _. by exists back.
  - intros (back & Hback & Hk).
    destruct (Hsuf back Hback Hk) as (Nd & M' & ? & ? & ? & -> & _).
    by eexists.
Qed.

Lemma createTopK_spec_witness :
  ∃ Nd M' nd iv ii,
    createTopK ConcatNodeKind false 0 "topk" (NodeValue_of 0) 3
      concat_example = Some (Nd, M')
    ∧ getNode M' Nd = Some nd
    ∧ resTypes_ nd = [PoolRef iv; PoolRef ii]
    ∧ poolGet (types_ M') iv = Some (Type_plain FloatTy [4; 3])
    ∧ poolGet (types_ M') ii = Some (Type_plain IndexTy [4; 3]).
Proof.
  destruct (proj2 (createTopK_spec ConcatNodeKind false 0 "topk" 0 3
                     concat_example
                     (Variable_new "A__0" (PoolRef 0) Public TrainNone)
                     (PoolRef 0) (Type_plain FloatTy [4; 10])
                     eq_refl eq_refl eq_refl eq_refl (mk_is_Some _ _ eq_refl))
              10 eq_refl)
    as (Nd & M' & nd & iv & ii & H1 & H2 & _ & _ & _ & H3 & H4 & H5); [lia|].
  by exists Nd, M', nd, iv, ii.
Defined.

(** ** Verification after a change of the graph *)

Lemma Function_verify_ok nodeVerify M f :
  Function_verify nodeVerify M f = VerifyOk ↔
  allLive M (vars_ M ++ nodes_ f) ∧ NoDup (namesOf M (vars_ M ++ nodes_ f))
  ∧ inputsResolve M f
  ∧ Forall (λ Nd, nodeVerify M Nd = true) (nodes_ f).
Proof.
  rewrite Function_verify_names.
  pose proof (checkNames_ok M (vars_ M ++ nodes_ f) ∅) as Hok.
  destruct (checkNames M (vars_ M ++ nodes_ f) ∅) as [e|m'] eqn:Hcn.
  - split.
    + intros ->.
      destruct (checkNames_conflict _ _ _ _ Hcn)
        as [(? & ? & _)|(? & ? & ? & ? & ? & _)]; done.
    + intros (H1 & H2 & _).
      destruct (proj2 Hok) as [? ?]; [|done].
      split_and!; [done..|]. intros. apply lookup_empty.
  - destruct (proj1 Hok (ex_intro _ m' eq_refl)) as (Hlive & Hnd & _).
    assert (allLive M (nodes_ f)) as Hlive_n.
    { by apply allLive_app in Hlive as [_ ?]. }
    pose proof (checkEdges_ok M (nodes_ f) (vars_ M) (nodes_ f) Hlive_n)
      as Hedges.
    fold (inputsResolve M f) in Hedges.
    destruct (checkEdges M (nodes_ f) (vars_ M) (nodes_ f)) eqn:Hce.
    + rewrite checkLocal_ok. pose proof (proj1 Hedges eq_refl). tauto.
    + split; [done|]. intros (_ & _ & H & _). by apply Hedges in H.
    + split; [done|]. intros (_ & _ & H & _). by apply Hedges in H.
    + split; [done|]. intros (_ & _ & H & _). by apply Hedges in H.
    + split; [done|]. intros (_ & _ & H & _). by apply Hedges in H.
Qed.

Lemma verifyFunctions_ok nodeVerify M fs :
  verifyFunctions nodeVerify M fs = VerifyOk
  ↔ Forall (λ f, Function_verify nodeVerify M f = VerifyOk) fs.
Proof.
  induction fs as [|f fs IH]; simpl.
  - split; [constructor|done].
  - rewrite Forall_cons.
    destruct (Function_verify nodeVerify M f) eqn:Hf;
      first [rewrite IH; tauto | split; [done|by intros [? _]]].
Qed.

Lemma namesOf_NoDup M l : NoDup (namesOf M l) → NoDup l.
Proof. apply NoDup_fmap_1. Qed.

Lemma namesOf_ext M M' l :
  (∀ a, a ∈ l → getNode M' a = getNode M a) → namesOf M' l = namesOf M l.
Proof.
  intros H. unfold namesOf. apply Forall_fmap_ext_1, Forall_forall.
  intros a Ha. by rewrite H.
Qed.

Lemma allLive_ext M M' l :
  (∀ a, a ∈ l → getNode M' a = getNode M a) → allLive M l → allLive M' l.
Proof.
  intros H. unfold allLive. rewrite !Forall_forall.
  intros Hl a Ha. rewrite H by done. by apply Hl.
Qed.

Lemma getNode_delete_ne M a b :
  b ≠ a → getNode (set_heap (<[a := None]> (heap_ M)) M) b = getNode M b.
Proof.
  intros Hne. unfold getNode. cbn [heap_ set_heap].
  by rewrite list_lookup_insert_ne.
Qed.

Lemma elem_of_delete_NoDup (l : list addr) pos a b :
  NoDup l → l !! pos = Some a →
  b ∈ delete pos l ↔ b ∈ l ∧ b ≠ a.
Proof.
  intros Hnd Hpos.
  rewrite <- (take_drop_middle l pos a Hpos) in Hnd at 1.
  rewrite delete_take_drop.
  rewrite <- (take_drop_middle l pos a Hpos) at 3.
  apply NoDup_app in Hnd as (_ & Hdis & Hnd2).
  apply NoDup_cons in Hnd2 as [Hnotin _].
  rewrite !elem_of_app, elem_of_cons. split.
  - intros [Hb|Hb].
    + split; [by left|]. intros ->. apply (Hdis a Hb). by left.
    + split; [by right; right|]. by intros ->.
  - intros [[Hb|[-> |Hb]] Hne]; [by left|done|by right].
Qed.

(** The two ways [eraseNode] succeeds on a registered object. *)
Lemma eraseNode_operator F a M f n :
  functions_ M !! F = Some f → getNode M a = Some n →
  kind_ n ≠ VariableNodeKind → a ∈ nodes_ f →
  ∃ pos,
    std_find (nodes_ f) a = Some pos
    ∧ nodes_ f !! pos = Some a
    ∧ eraseNode F a M
      = Some (set_functions
                (<[F := mkFunction (fname_ f) (delete pos (nodes_ f))]>
                   (functions_ M))
                (set_heap (<[a := None]> (heap_ M)) M)).
Proof.
  intros Hf Hn Hk Ha.
  destruct (proj2 (std_find_is_Some (nodes_ f) a) Ha) as [pos Hpos].
  exists pos. destruct (std_find_Some _ _ _ Hpos) as [Hl _].
  split_and!; [done..|].
  unfold eraseNode, isaVariable. rewrite Hn. cbn [mbind option_bind].
  rewrite bool_decide_eq_false_2 by done. rewrite Hf.
  cbn [mbind option_bind]. rewrite Hpos.
  unfold eraseNode_it. rewrite Hf. cbn [mbind option_bind]. rewrite Hl.
  cbn [mbind option_bind]. rewrite (deleteNode_live _ _ _ Hn). done.
Qed.

Lemma verify_after_delete nodeVerify M f a vars' nodes' fs' :
  Function_verify nodeVerify M f = VerifyOk →
  a ∈ (vars_ M ++ nodes_ f)%list →
  (∀ b, b ∈ vars' ↔ b ∈ vars_ M ∧ b ≠ a) →
  (∀ b, b ∈ nodes' ↔ b ∈ nodes_ f ∧ b ≠ a) →
  (vars' ++ nodes')%list `sublist_of` (vars_ M ++ nodes_ f)%list →
  let M' := mkModule (<[a := None]> (heap_ M)) fs' (types_ M) vars'
              (uniqueIdx_ M) in
  Function_verify nodeVerify M' (mkFunction (fname_ f) nodes') = VerifyOk
  ↔ (∀ b n input, b ∈ nodes_ f → b ≠ a → getNode M b = Some n →
                  input ∈ inputs_ n → nv_node input ≠ a)
    ∧ Forall (λ b, nodeVerify M' b = true) nodes'.
Proof.
  intros Hv Ha Hvars Hnodes Hsub M'.
  apply Function_verify_ok in Hv as (Hlive & Hnd & Hres & _).
  assert (∀ b, b ≠ a → getNode M' b = getNode M b) as Hget.
  { intros b Hb. unfold getNode, M'. cbn [heap_].
    by rewrite list_lookup_insert_ne. }
  assert (∀ b, b ∈ (vars' ++ nodes')%list → getNode M' b = getNode M b)
    as Hget'.
  { intros b [Hb|Hb]%elem_of_app; apply Hget.
    - by apply Hvars in Hb as [_ ?].
    - by apply Hnodes in Hb as [_ ?]. }
  rewrite Function_verify_ok. cbn [vars_ nodes_ M'].
  fold M'. split.
  - intros (_ & _ & Hres' & Hloc). split; [|done].
    intros b n input Hb Hba Hn Hin Heq.
    assert (b ∈ nodes') as Hb' by by apply Hnodes.
    assert (getNode M' b = Some n) as Hn' by by rewrite Hget.
    destruct (Hres' b n input Hb' Hn' Hin) as [H|H]; cbn [nodes_ vars_ M'] in H.
    + apply Hnodes in H as [_ ?]. done.
    + apply Hvars in H as [_ ?]. done.
  - intros [Huse Hloc]. split_and!; [| | |done].
    + apply (allLive_ext M); [done|].
      unfold allLive in *. rewrite Forall_forall in *.
      intros b Hb. apply Hlive.
      apply elem_of_app in Hb as [Hb|Hb]; apply elem_of_app.
      * left. by apply Hvars in Hb as [? _].
      * right. by apply Hnodes in Hb as [? _].
    + rewrite (namesOf_ext M) by done.
      eapply sublist_NoDup; [exact Hnd|]. unfold namesOf.
      by apply fmap_sublist.
    + intros b n input Hb Hn Hin. cbn [nodes_] in Hb.
      apply Hnodes in Hb as [Hb Hba]. rewrite Hget in Hn by done.
      pose proof (Huse b n input Hb Hba Hn Hin) as Hne.
      destruct (Hres b n input Hb Hn Hin) as [H|H].
      * left. cbn [nodes_]. by apply Hnodes.
      * right. cbn [vars_ M']. by apply Hvars.
Qed.

(** X18. Let a Function verify and [a] be one of its nodes, an operator
    node.  Erasing it through [eraseNode] succeeds and frees the object;
    afterwards the Function passes [verify] exactly when no remaining node
    had an operand produced by [a] and the node-local checks still pass.
    [eraseNode] itself never looks for users. *)
Theorem eraseNode_verify (nodeVerify : Module → addr → bool) (F : nat)
    (a : addr) (M : Module) (f : Function) (n : Node) :
  functions_ M !! F = Some f →
  Function_verify nodeVerify M f = VerifyOk →
  a ∈ nodes_ f → getNode M a = Some n → kind_ n ≠ VariableNodeKind →
  ∃ M' f',
    eraseNode F a M = Some M'
    ∧ functions_ M' !! F = Some f'
    ∧ vars_ M' = vars_ M
    ∧ getNode M' a = None
    ∧ (Function_verify nodeVerify M' f' = VerifyOk
       ↔ (∀ b nb input, b ∈ nodes_ f → b ≠ a → getNode M b = Some nb →
                        input ∈ inputs_ nb → nv_node input ≠ a)
         ∧ Forall (λ b, nodeVerify M' b = true) (nodes_ f')).
Proof.
  intros Hf Hv HaN Hn Hk.
  pose proof (proj1 (Function_verify_ok _ _ _) Hv) as (_ & Hnd & _).
  apply namesOf_NoDup in Hnd.
  apply NoDup_app in Hnd as (Hndv & Hdis & Hndn).
  assert (F < length (functions_ M))%nat as HF by by eapply lookup_lt_Some.
  destruct (eraseNode_operator F a M f n Hf Hn Hk HaN)
    as (pos & _ & Hpos & He).
  eexists _, _. split; [exact He|]. cbn [functions_ set_functions].
  split; [by apply list_lookup_insert_eq|].
  split; [done|].
  split; [apply getNode_deleted|].
  apply (verify_after_delete nodeVerify M f a (vars_ M)
           (delete pos (nodes_ f))); try done.
  - apply elem_of_app. by right.
  - intros b. split; [|by intros [? _]].
    intros Hb. split; [done|]. intros ->. by apply (Hdis a).
  - intros b. by apply elem_of_delete_NoDup.
  - apply sublist_app; [done|apply sublist_delete].
Qed.

Lemma eraseNode_verify_witness :
  ∃ M' f',
    eraseNode 0 1 clone_example = Some M'
    ∧ functions_ M' !! 0%nat = Some f'
    ∧ Function_verify (λ _ _, true) M' f' ≠ VerifyOk.
Proof.
  destruct (eraseNode_verify (λ _ _, true) 0 1 clone_example
              (mkFunction "main" [1; 2]%nat)
              (mkNode AddNodeKind "add" [PoolRef 0]
                 [mkNodeValue 0 0; mkNodeValue 0 0] None [] None)
              eq_refl eq_refl)
    as (M' & f' & H1 & H2 & _ & _ & H3); [by left|reflexivity|done|].
  exists M', f'. split_and!; [done..|].
  intros Hok. apply H3 in Hok as [Huse _].
  apply (Huse 2%nat
           (mkNode MulNodeKind "mul" [PoolRef 0]
              [mkNodeValue 1 0; mkNodeValue 0 0] None [] None)
           (mkNodeValue 1 0)); try done.
  - apply elem_of_cons. right. by left.
  - by left.
Defined.

Lemma Function_verify_same nodeVerify M M' f :
  heap_ M' = heap_ M → vars_ M' = vars_ M →
  (∀ a, nodeVerify M' a = nodeVerify M a) →
  Function_verify nodeVerify M' f = VerifyOk
  ↔ Function_verify nodeVerify M f = VerifyOk.
Proof.
  intros Hh Hv Hnv. rewrite !Function_verify_ok.
  assert (∀ a, getNode M' a = getNode M a) as Hg.
  { intros a. unfold getNode. by rewrite Hh. }
  unfold allLive, namesOf, inputsResolve. rewrite Hv.
  setoid_rewrite Hg. by setoid_rewrite Hnv.
Qed.

(** X19. After [createFunction] the Module passes [verify] exactly when
    it passed before and its Variables are live and pairwise distinctly
    named (the node-local verdicts being the same before and after): a
    Module without Functions passes whatever its Variables are named, and
    adding an empty Function brings the check of the Variables in. *)
Theorem createFunction_verify (nodeVerify : Module → addr → bool)
    (name : string) (M : Module) (F : nat) (M' : Module) :
  createFunction name M = Some (F, M') →
  (∀ a, nodeVerify M' a = nodeVerify M a) →
  (Module_verify nodeVerify M' = VerifyOk
   ↔ Module_verify nodeVerify M = VerifyOk
     ∧ allLive M (vars_ M) ∧ NoDup (namesOf M (vars_ M))).
Proof.
  unfold createFunction. destruct (hasFunction M name); [done|].
  intros [= <- <-] Hnv. unfold Module_verify.
  cbn [functions_ set_functions]. rewrite !verifyFunctions_ok, Forall_app.
  rewrite Forall_singleton.
  assert (∀ f, Function_verify nodeVerify
                 (set_functions (functions_ M ++ [mkFunction name []]) M) f
               = VerifyOk
               ↔ Function_verify nodeVerify M f = VerifyOk) as Hsame.
  { intros f. by apply Function_verify_same. }
  rewrite Hsame. rewrite (Function_verify_ok nodeVerify M (mkFunction name [])).
  cbn [nodes_]. rewrite app_nil_r.
  assert (Forall (λ f, Function_verify nodeVerify
                         (set_functions (functions_ M ++ [mkFunction name []])
                            M) f = VerifyOk) (functions_ M)
          ↔ Forall (λ f, Function_verify nodeVerify M f = VerifyOk)
              (functions_ M)) as ->.
  { rewrite !Forall_forall. by setoid_rewrite Hsame. }
  split.
  - intros (H1 & H2 & H3 & _). done.
  - intros (H1 & H2 & H3). split_and!; [done..| |done].
    intros Nd n input HNd. by apply elem_of_nil in HNd.
Qed.

Lemma createFunction_verify_witness :
  Module_verify (λ _ _, true) dup_example = VerifyOk
  ∧ ∃ F M', createFunction "main" dup_example = Some (F, M')
      ∧ Module_verify (λ _ _, true) M' ≠ VerifyOk.
Proof.
  split; [reflexivity|]. eexists _, _. split; [reflexivity|].
  intros Hok.
  apply (createFunction_verify (λ _ _, true) "main" dup_example _ _ eq_refl)
    in Hok as (_ & _ & Hnd); [|done].
  apply NoDup_cons in Hnd as [Hnotin _]. apply Hnotin. by left.
Defined.

(** ** Cloning and verification *)

Lemma clone_run F newName map M f :
  functions_ M !! F = Some f →
  NoDup (nodes_ f) → allLive M (nodes_ f) → variablesLive M →
  inputsResolve M f →
  hasFunction M newName = false →
  map = None ∨ map = Some ∅ →
  let h0 := length (heap_ M) in
  let cur := cloneMap (nodes_ f) h0 ∅ in
  ∃ M',
    clone F newName map M
    = Some (length (functions_ M), (λ _, cur) <$> map, M')
    ∧ functions_ M'
      = (functions_ M
         ++ [mkFunction newName (seq h0 (length (nodes_ f)))])%list
    ∧ vars_ M' = vars_ M
    ∧ (∀ a, (a < h0)%nat → getNode M' a = getNode M a)
    ∧ (∀ i Nd n, nodes_ f !! i = Some Nd → getNode M Nd = Some n →
         getNode M' (h0 + i)
         = Some (setInputs (fixedInput cur <$> inputs_ n) n)).
Proof.
  intros Hf Hnd Hlive Hvars Hres Hname Hmap h0 cur.
  unfold allLive in Hlive. rewrite Forall_forall in Hlive.
  destruct (live_contents M (nodes_ f) Hlive) as [ns HF].
  rewrite (clone_steps F newName map M f ns Hf Hname HF).
  fold h0. fold cur. set (k := length (nodes_ f)).
  set (M2 := mkModule _ _ _ _ _).
  assert (dom cur = list_to_set (nodes_ f)) as Hdom.
  { subst cur. rewrite cloneMap_dom, dom_empty_L. apply (right_id_L ∅ (∪)). }
  assert (∀ i Nd n, nodes_ f !! i = Some Nd → getNode M Nd = Some n →
                    ns !! i = Some n) as Hns.
  { intros i Nd n Hi Hn.
    destruct (Forall2_lookup_l _ _ _ _ _ HF Hi) as (n' & Hn' & Hg).
    congruence. }
  assert (∀ i, getNode M2 (h0 + i) = ns !! i) as Hget2.
  { intros i. apply (getNode_appended M M2 ns i eq_refl). }
  destruct (fixNodes_spec cur h0 (seq h0 k) M2)
    as (M' & -> & Hfun & Hty & Hva & _ & _ & Hout & Hnew).
  { apply NoDup_seq. }
  { apply Forall_forall. intros b Hb%elem_of_seq. lia. }
  { intros b Hb%elem_of_seq.
    assert (∃ i, b = (h0 + i)%nat ∧ (i < k)%nat) as (i & -> & Hik)
      by (exists (b - h0)%nat; lia).
    destruct (lookup_lt_is_Some_2 (nodes_ f) i Hik) as [Nd Hi].
    destruct (Hlive Nd (list_elem_of_lookup_2 _ _ _ Hi)) as [n Hn].
    exists n. split.
    { rewrite Hget2. by eapply Hns. }
    apply Forall_forall. intros input Hin.
    destruct (Hres Nd n input (list_elem_of_lookup_2 _ _ _ Hi) Hn Hin)
      as [Hnode|Hvar].
    - left. apply elem_of_dom. rewrite Hdom. by apply elem_of_list_to_set.
    - right. pose proof (Hvars _ Hvar) as Hv.
      assert (nv_node input < h0)%nat as Hlt.
      { unfold isaVariable in Hv.
        destruct (getNode M (nv_node input)) eqn:E; [|done].
        by eapply getNode_live_lt. }
      split; [done|]. rewrite (isaVariable_app M); [done..|]. by eexists. }
  cbn [mbind option_bind].
  assert (match map with
          | Some m => if decide (m = ∅) then Some (Some (m ∪ cur)) else None
          | None => Some None
          end = Some ((λ _, cur) <$> map)) as ->.
  { destruct Hmap as [-> | ->]; [done|].
    rewrite decide_True by done. simpl. by rewrite (left_id_L ∅ (∪)). }
  cbn [mbind option_bind].
  exists M'. split; [done|]. split_and!; try done.
  - intros a Ha. unfold getNode. rewrite Hout.
    + subst M2. simpl. by rewrite lookup_app_l.
    + intros Hin%elem_of_seq. lia.
  - intros i Nd n Hi Hn.
    pose proof (lookup_lt_Some _ _ _ Hi) as Hik.
    apply Hnew.
    + apply elem_of_seq. lia.
    + rewrite Hget2. by eapply Hns.
Qed.

(** X20. The clone of a Function that verifies passes every structural
    check of [verify]: in a Module whose Variables are live Variables,
    [clone] under a fresh name succeeds, and the new Function verifies
    exactly when the node-local checks of its nodes pass. *)
Theorem clone_verify (nodeVerify : Module → addr → bool) (F : nat)
    (newName : string) (map : option (gmap addr addr)) (M : Module)
    (f : Function) :
  functions_ M !! F = Some f →
  Function_verify nodeVerify M f = VerifyOk →
  variablesLive M →
  hasFunction M newName = false →
  map = None ∨ map = Some ∅ →
  ∃ M' map' fnew,
    clone F newName map M = Some (length (functions_ M), map', M')
    ∧ functions_ M' !! length (functions_ M) = Some fnew
    ∧ (Function_verify nodeVerify M' fnew = VerifyOk
       ↔ Forall (λ b, nodeVerify M' b = true) (nodes_ fnew)).
Proof.
  intros Hf Hv Hvars Hname Hmap.
  apply Function_verify_ok in Hv as (Hlive & Hndn & Hres & _).
  pose proof (namesOf_NoDup _ _ Hndn) as Hnd.
  apply NoDup_app in Hnd as (_ & _ & Hnd).
  apply allLive_app in Hlive as [HliveV HliveN].
  destruct (clone_run F newName map M f Hf Hnd HliveN Hvars Hres Hname Hmap)
    as (M' & Hc & Hfs & Hva & Hold & Hnew).
  set (h0 := length (heap_ M)) in *.
  set (cur := cloneMap (nodes_ f) h0 ∅) in *.
  set (k := length (nodes_ f)) in *.
  exists M', ((λ _, cur) <$> map), (mkFunction newName (seq h0 k)).
  split; [done|]. split.
  { rewrite Hfs, lookup_app_r by lia. by rewrite Nat.sub_diag. }
  rewrite Function_verify_ok. cbn [nodes_]. rewrite Hva.
  assert (∀ a, is_Some (getNode M a) → (a < h0)%nat) as Hlt.
  { intros a [x Hx]. by eapply getNode_live_lt. }
  unfold allLive in HliveV, HliveN. rewrite Forall_forall in HliveV, HliveN.
  assert (namesOf M' (vars_ M) = namesOf M (vars_ M)) as HnV.
  { apply namesOf_ext. intros a Ha. apply Hold, Hlt, HliveV, Ha. }
  assert (namesOf M' (seq h0 k) = namesOf M (nodes_ f)) as HnN.
  { unfold namesOf. apply list_eq_same_length with k.
    - by rewrite length_fmap.
    - by rewrite length_fmap, length_seq.
    - intros i x y Hi. rewrite !list_lookup_fmap, lookup_seq_lt by done.
      destruct (lookup_lt_is_Some_2 (nodes_ f) i Hi) as [Nd HNd].
      rewrite HNd. simpl.
      destruct (HliveN Nd (list_elem_of_lookup_2 _ _ _ HNd)) as [n Hn].
      rewrite (Hnew i Nd n HNd Hn), Hn. simpl. congruence. }
  split; [by intros (_ & _ & _ & ?)|]. intros Hloc.
  split_and!; [| | |done].
  - apply allLive_app. split.
    + apply Forall_forall. intros a Ha. rewrite Hold; [by apply HliveV|].
      by apply Hlt, HliveV.
    + apply Forall_forall. intros b Hb%elem_of_seq.
      assert (∃ i, b = (h0 + i)%nat ∧ (i < k)%nat) as (i & -> & Hik)
        by (exists (b - h0)%nat; lia).
      destruct (lookup_lt_is_Some_2 (nodes_ f) i Hik) as [Nd HNd].
      destruct (HliveN Nd (list_elem_of_lookup_2 _ _ _ HNd)) as [n Hn].
      rewrite (Hnew i Nd n HNd Hn). by eexists.
  - unfold namesOf in *. rewrite fmap_app. rewrite fmap_app in Hndn.
    by rewrite HnV, HnN.
  - intros b n' input' Hb Hn' Hin'. cbn [nodes_] in Hb.
    apply elem_of_seq in Hb.
    assert (∃ i, b = (h0 + i)%nat ∧ (i < k)%nat) as (i & -> & Hik)
      by (exists (b - h0)%nat; lia).
    destruct (lookup_lt_is_Some_2 (nodes_ f) i Hik) as [Nd HNd].
    destruct (HliveN Nd (list_elem_of_lookup_2 _ _ _ HNd)) as [n Hn].
    rewrite (Hnew i Nd n HNd Hn) in Hn'. injection Hn' as <-.
    cbn [inputs_ setInputs] in Hin'.
    apply list_elem_of_fmap in Hin' as (input & -> & Hin).
    unfold resolves, fixedInput. cbn [nodes_ vars_]. rewrite Hva.
    destruct (cur !! nv_node input) as [c|] eqn:Hcur.
    + left. cbn [nv_node].
      assert (nv_node input ∈ nodes_ f) as Hmem.
      { destruct (decide (nv_node input ∈ nodes_ f)) as [?|Hno]; [done|].
        unfold cur in Hcur. rewrite cloneMap_notin in Hcur by done.
        by rewrite lookup_empty in Hcur. }
      apply list_elem_of_lookup in Hmem as [j Hj].
      unfold cur in Hcur. rewrite (cloneMap_in _ _ _ j _ Hnd Hj) in Hcur.
      injection Hcur as <-. apply elem_of_seq.
      apply lookup_lt_Some in Hj. fold k in Hj. lia.
    + destruct (Hres Nd n input (list_elem_of_lookup_2 _ _ _ HNd) Hn Hin)
        as [Hnode|Hvar]; [|by right].
      exfalso. apply list_elem_of_lookup in Hnode as [j Hj].
      unfold cur in Hcur. by rewrite (cloneMap_in _ _ _ j _ Hnd Hj) in Hcur.
Qed.

Lemma clone_verify_witness :
  ∃ M' map' fnew,
    clone 0 "copy" None clone_example = Some (1%nat, map', M')
    ∧ functions_ M' !! 1%nat = Some fnew
    ∧ Function_verify (λ _ _, true) M' fnew = VerifyOk.
Proof.
  assert (variablesLive clone_example) as Hvl.
  { intros b Hb. apply elem_of_cons in Hb as [-> | Hb]; [done|].
    by apply elem_of_nil in Hb. }
  destruct (clone_verify (λ _ _, true) 0 "copy" None clone_example
              (mkFunction "main" [1; 2]%nat) eq_refl eq_refl Hvl eq_refl
              (or_introl eq_refl))
    as (M' & map' & fnew & H1 & H2 & H3).
  exists M', map', fnew. split_and!; [done..|].
  apply H3. by apply Forall_forall.
Defined.

(** ** Destructors *)

Lemma eraseNodes_all F l :
  ∀ M f,
    functions_ M !! F = Some f → nodes_ f = l → NoDup l →
    (∀ a, a ∈ l → ∃ n, getNode M a = Some n ∧ kind_ n ≠ VariableNodeKind) →
    ∃ M',
      eraseNodes F l M = Some M'
      ∧ functions_ M' = <[F := mkFunction (fname_ f) []]> (functions_ M)
      ∧ vars_ M' = vars_ M ∧ types_ M' = types_ M
      ∧ (∀ a, a ∈ l → getNode M' a = None)
      ∧ (∀ a, a ∉ l → getNode M' a = getNode M a).
Proof.
  induction l as [|a rest IH]; intros M f Hf Hl Hnd Hops.
  - exists M. cbn [eraseNodes]. split_and!; try done.
    + destruct f as [fn ns]. cbn [nodes_ fname_] in *. subst ns.
      by rewrite list_insert_id.
    + intros a Ha. by apply elem_of_nil in Ha.
  - apply NoDup_cons in Hnd as [Hnotin Hnd].
    destruct (Hops a) as (n & Hn & Hk); [by left|].
    assert (a ∈ nodes_ f) as Ha by (rewrite Hl; by left).
    destruct (eraseNode_operator F a M f n Hf Hn Hk Ha)
      as (pos & Hfind & _ & He).
    rewrite Hl in Hfind. cbn [std_find] in Hfind.
    rewrite decide_True in Hfind by done. injection Hfind as <-.
    rewrite Hl in He. cbn [delete list_delete] in He.
    cbn [eraseNodes]. rewrite He. cbn [mbind option_bind].
    set (M1 := set_functions _ _).
    assert (F < length (functions_ M))%nat as HF by by eapply lookup_lt_Some.
    destruct (IH M1 (mkFunction (fname_ f) rest))
      as (M' & Hrun & Hfs & Hv & Ht & Hdead & Hkeep); [|done|done| |].
    { unfold M1. cbn [functions_ set_functions].
      by apply list_lookup_insert_eq. }
    { intros b Hb. destruct (Hops b) as (nb & Hnb & Hkb); [by right|].
      exists nb. split; [|done]. unfold M1.
      change (getNode (set_heap (<[a := None]> (heap_ M)) M) b = Some nb).
      rewrite getNode_delete_ne; [done|]. by intros ->. }
    exists M'. split; [done|]. split_and!.
    + rewrite Hfs. unfold M1. cbn [functions_ set_functions fname_].
      by rewrite list_insert_insert_eq.
    + by rewrite Hv.
    + by rewrite Ht.
    + intros b [-> | Hb]%elem_of_cons; [|by apply Hdead].
      rewrite Hkeep by done. apply getNode_deleted.
    + intros b Hb. apply not_elem_of_cons in Hb as [Hba Hb].
      rewrite Hkeep by done.
      change (getNode (set_heap (<[a := None]> (heap_ M)) M) b = getNode M b).
      by apply getNode_delete_ne.
Qed.

Lemma eraseNode_operator_inv F a M M1 n :
  eraseNode F a M = Some M1 → getNode M a = Some n →
  kind_ n ≠ VariableNodeKind →
  heap_ M1 = <[a := None]> (heap_ M).
Proof.
  intros He Hn Hk. unfold eraseNode, isaVariable in He. rewrite Hn in He.
  cbn [mbind option_bind] in He.
  rewrite bool_decide_eq_false_2 in He by done.
  destruct (functions_ M !! F) as [f|] eqn:Hf;
    cbn [mbind option_bind] in He; [|done].
  destruct (std_find (nodes_ f) a) as [pos|] eqn:Hpos; [|done].
  destruct (std_find_Some _ _ _ Hpos) as [Hl _].
  unfold eraseNode_it in He. rewrite Hf in He.
  cbn [mbind option_bind] in He. rewrite Hl in He.
  cbn [mbind option_bind] in He. rewrite (deleteNode_live _ _ _ Hn) in He.
  cbn [mbind option_bind] in He. by injection He as <-.
Qed.

Lemma eraseNodes_inv F l :
  ∀ M M',
    eraseNodes F l M = Some M' →
    (∀ a n, a ∈ l → getNode M a = Some n → kind_ n ≠ VariableNodeKind) →
    NoDup l ∧ ∀ a, a ∈ l → is_Some (getNode M a).
Proof.
  induction l as [|a rest IH]; intros M M' Hrun Hops.
  - split; [constructor|]. intros a Ha. by apply elem_of_nil in Ha.
  - cbn [eraseNodes] in Hrun.
    destruct (eraseNode F a M) as [M1|] eqn:He; [|done].
    cbn [mbind option_bind] in Hrun.
    assert (is_Some (getNode M a)) as [n Hn].
    { unfold eraseNode, isaVariable in He.
      destruct (getNode M a); [by eexists|done]. }
    assert (kind_ n ≠ VariableNodeKind) as Hk.
    { eapply Hops; [by left|done]. }
    pose proof (eraseNode_operator_inv F a M M1 n He Hn Hk) as Hh.
    assert (∀ b, getNode M1 b = if decide (b = a) then None else getNode M b)
      as Hget.
    { intros b. unfold getNode. rewrite Hh. destruct (decide (b = a)) as [->|].
      - apply getNode_deleted.
      - by rewrite list_lookup_insert_ne. }
    destruct (IH M1 M' Hrun) as [Hnd Hlive].
    { intros b nb Hb Hnb. rewrite Hget in Hnb.
      destruct (decide (b = a)); [done|]. eapply Hops; [by right|done]. }
    split.
    + apply NoDup_cons. split; [|done]. intros Ha.
      destruct (Hlive a Ha) as [x Hx]. rewrite Hget in Hx.
      by rewrite decide_True in Hx.
    + intros b [-> | Hb]%elem_of_cons; [by eexists|].
      destruct (Hlive b Hb) as [x Hx]. rewrite Hget in Hx.
      destruct (decide (b = a)); [done|]. by eexists.
Qed.

(** X21. For a Function whose nodes are operator nodes, the destructor
    runs to the end exactly when no node is listed twice; it then frees
    every node of the Function and empties its node list, and leaves every
    other object, the Variables and the type pool as they were. *)
Theorem Function_destroy_spec (F : nat) (M : Module) (f : Function) :
  functions_ M !! F = Some f →
  operatorNodes M f →
  (is_Some (Function_destroy F M) ↔ NoDup (nodes_ f))
  ∧ (NoDup (nodes_ f) →
     ∃ M',
       Function_destroy F M = Some M'
       ∧ functions_ M' = <[F := mkFunction (fname_ f) []]> (functions_ M)
       ∧ vars_ M' = vars_ M ∧ types_ M' = types_ M
       ∧ (∀ a, a ∈ nodes_ f → getNode M' a = None)
       ∧ (∀ a, a ∉ nodes_ f → getNode M' a = getNode M a)).
Proof.
  intros Hf Hops.
  assert (NoDup (nodes_ f) →
     ∃ M',
       Function_destroy F M = Some M'
       ∧ functions_ M' = <[F := mkFunction (fname_ f) []]> (functions_ M)
       ∧ vars_ M' = vars_ M ∧ types_ M' = types_ M
       ∧ (∀ a, a ∈ nodes_ f → getNode M' a = None)
       ∧ (∀ a, a ∉ nodes_ f → getNode M' a = getNode M a)) as Hsuf.
  { intros Hnd. unfold Function_destroy. rewrite Hf. cbn [mbind option_bind].
    by apply eraseNodes_all. }
  split; [|done]. split.
  - intros [M' Hrun]. unfold Function_destroy in Hrun. rewrite Hf in Hrun.
    cbn [mbind option_bind] in Hrun.
    apply eraseNodes_inv in Hrun as [Hnd _]; [done|].
    intros a n Ha Hn. destruct (Hops a Ha) as (n' & Hn' & Hk). congruence.
  - intros Hnd. destruct (Hsuf Hnd) as (M' & -> & _). by eexists.
Qed.

Lemma Function_destroy_spec_witness :
  ∃ M', Function_destroy 0 clone_example = Some M'
    ∧ functions_ M' = [mkFunction "main" []]
    ∧ getNode M' 1 = None ∧ getNode M' 2 = None
    ∧ getNode M' 0 = getNode clone_example 0.
Proof.
  assert (operatorNodes clone_example (mkFunction "main" [1; 2]%nat)) as Hops.
  { intros b Hb. apply elem_of_cons in Hb as [-> | Hb]; [by eexists|].
    apply elem_of_cons in Hb as [-> | Hb]; [by eexists|].
    by apply elem_of_nil in Hb. }
  assert (NoDup [1%nat; 2%nat]) as Hnd.
  { apply NoDup_cons. split; [|apply NoDup_singleton].
    intros [H | H]%elem_of_cons; [done|by apply elem_of_nil in H]. }
  destruct (proj2 (Function_destroy_spec 0 clone_example
                     (mkFunction "main" [1; 2]%nat) eq_refl Hops) Hnd)
    as (M' & H1 & H2 & _ & _ & H3 & H4).
  exists M'. split_and!; [done|done| | |].
  - apply H3. by left.
  - apply H3. apply elem_of_cons. right. by left.
  - apply H4. intros [H | H]%elem_of_cons; [done|].
    apply elem_of_cons in H as [H | H]; [done|by apply elem_of_nil in H].
Defined.

Lemma eraseVariables_defined l M :
  is_Some (eraseVariables l M) ↔ l = [].
Proof.
  destruct l as [|a rest]; cbn [eraseVariables].
  - split; [done|by eexists].
  - rewrite eraseVariable_undefined. cbn [mbind option_bind].
    split; [by intros [? ?]|done].
Qed.

Lemma deleteFunctions_all Fs :
  ∀ M,
    functionsOwn M →
    (∀ F, F ∈ Fs → (F < length (functions_ M))%nat) →
    ∃ M',
      deleteFunctions Fs M = Some M'
      ∧ vars_ M' = vars_ M
      ∧ length (functions_ M') = length (functions_ M)
      ∧ (∀ G g, functions_ M !! G = Some g →
           ∃ g', functions_ M' !! G = Some g' ∧ fname_ g' = fname_ g
             ∧ (G ∈ Fs → nodes_ g' = []) ∧ (G ∉ Fs → g' = g))
      ∧ (∀ a, getNode M a = None → getNode M' a = None)
      ∧ (∀ a F f, F ∈ Fs → functions_ M !! F = Some f → a ∈ nodes_ f →
           getNode M' a = None)
      ∧ (∀ a, (∀ F f, F ∈ Fs → functions_ M !! F = Some f → a ∉ nodes_ f) →
           getNode M' a = getNode M a).
Proof.
  induction Fs as [|F rest IH]; intros M Hown Hlt.
  - exists M. cbn [deleteFunctions]. split_and!; try done.
    + intros G g Hg. exists g. split_and!; try done.
      intros H. by apply elem_of_nil in H.
    + intros a F f HF. by apply elem_of_nil in HF.
  - destruct (lookup_lt_is_Some_2 (functions_ M) F) as [f Hf].
    { apply Hlt. by left. }
    destruct Hown as [Hwf Hdis].
    destruct (Hwf F f Hf) as [Hnd Hops].
    destruct (eraseNodes_all F (nodes_ f) M f Hf eq_refl Hnd Hops)
      as (M1 & Hrun1 & Hfs1 & Hv1 & _ & Hdead1 & Hkeep1).
    assert (F < length (functions_ M))%nat as HF by by eapply lookup_lt_Some.
    assert (∀ G g, functions_ M1 !! G = Some g →
              (G = F ∧ g = mkFunction (fname_ f) [])
              ∨ (G ≠ F ∧ functions_ M !! G = Some g)) as Hcases.
    { intros G g. rewrite Hfs1. destruct (decide (G = F)) as [->|Hne].
      - rewrite list_lookup_insert_eq by done. intros [= <-]. by left.
      - rewrite list_lookup_insert_ne by done. by right. }
    assert (functionsOwn M1) as Hown1.
    { split.
      - intros G g Hg. destruct (Hcases G g Hg) as [[-> ->]|[Hne Hg']].
        + split; [constructor|]. intros a Ha. by apply elem_of_nil in Ha.
        + destruct (Hwf G g Hg') as [Hndg Hopsg]. split; [done|].
          intros a Ha. rewrite Hkeep1; [by apply Hopsg|].
          by apply (Hdis G F g f a).
      - intros G H g h a Hne Hg Hh Ha.
        destruct (Hcases G g Hg) as [[-> ->]|[HneG Hg']].
        { by apply elem_of_nil in Ha. }
        destruct (Hcases H h Hh) as [[-> ->]|[HneH Hh']].
        { apply not_elem_of_nil. }
        by apply (Hdis G H g h a). }
    destruct (IH M1 Hown1)
      as (M' & Hrun & Hv & Hlen & Hfs & Hmono & Hdead & Hkeep).
    { intros G HG. rewrite Hfs1, length_insert. apply Hlt. by right. }
    exists M'. split.
    { cbn [deleteFunctions]. unfold Function_destroy. rewrite Hf.
      cbn [mbind option_bind]. rewrite Hrun1. done. }
    split_and!.
    + by rewrite Hv.
    + by rewrite Hlen, Hfs1, length_insert.
    + intros G g Hg. destruct (decide (G = F)) as [->|Hne].
      * assert (g = f) as -> by congruence.
        destruct (Hfs F (mkFunction (fname_ f) [])) as (g' & Hg' & Hn & He & Hk).
        { rewrite Hfs1. by apply list_lookup_insert_eq. }
        exists g'. split_and!; [done|done| |].
        -- intros _. destruct (decide (F ∈ rest)) as [Hin|Hnin].
           ++ by apply He.
           ++ by rewrite (Hk Hnin).
        -- intros Hnotin. exfalso. apply Hnotin. by left.
      * destruct (Hfs G g) as (g' & Hg' & Hn & He & Hk).
        { rewrite Hfs1. by rewrite list_lookup_insert_ne. }
        exists g'. split_and!; [done|done| |].
        -- intros [-> | Hin]%elem_of_cons; [done|by apply He].
        -- intros Hnotin. apply Hk. intros Hin. apply Hnotin. by right.
    + intros a Ha. apply Hmono. destruct (decide (a ∈ nodes_ f)).
      * by apply Hdead1.
      * by rewrite Hkeep1.
    + intros a G g [-> | HG]%elem_of_cons Hg Ha.
      * assert (g = f) as -> by congruence. apply Hmono. by apply Hdead1.
      * destruct (decide (G = F)) as [->|Hne].
        -- assert (g = f) as -> by congruence. apply Hmono.
           by apply Hdead1.
        -- apply (Hdead a G g); [done| |done].
           rewrite Hfs1. by rewrite list_lookup_insert_ne.
    + intros a Hfree. rewrite Hkeep.
      * apply Hkeep1. apply (Hfree F f); [by left|done].
      * intros G g HG Hg. destruct (Hcases G g Hg) as [[-> ->]|[Hne Hg']].
        -- apply not_elem_of_nil.
        -- apply (Hfree G g); [by right|done].
Qed.

(** X22. When every Function lists each of its nodes once, its nodes are
    live operator nodes and no node is listed by two Functions, the
    destructor of the Module runs to a defined end exactly when the Module
    has no Variables: the loop over the Variables goes through the
    [eraseVariable] overload taking a pointer, which has no defined
    outcome.  Without
    Variables every Function is emptied, every node of a Function is freed,
    and no other object is touched. *)
Theorem Module_destroy_spec (M : Module) :
  functionsOwn M →
  (is_Some (Module_destroy M) ↔ vars_ M = [])
  ∧ (vars_ M = [] →
     ∃ M',
       Module_destroy M = Some M'
       ∧ vars_ M' = []
       ∧ functions_ M' = (λ f, mkFunction (fname_ f) []) <$> functions_ M
       ∧ (∀ a f, f ∈ functions_ M → a ∈ nodes_ f → getNode M' a = None)
       ∧ (∀ a, (∀ f, f ∈ functions_ M → a ∉ nodes_ f) →
               getNode M' a = getNode M a)).
Proof.
  intros Hown.
  destruct (deleteFunctions_all (seq 0 (length (functions_ M))) M Hown)
    as (M1 & Hrun1 & Hv1 & Hlen1 & Hfs1 & _ & Hdead1 & Hkeep1).
  { intros F HF%elem_of_seq. lia. }
  split.
  - unfold Module_destroy. rewrite Hrun1. cbn [mbind option_bind].
    by rewrite eraseVariables_defined, Hv1.
  - intros Hnil. exists M1. split.
    { unfold Module_destroy. rewrite Hrun1. cbn [mbind option_bind].
      by rewrite Hv1, Hnil. }
    split; [by rewrite Hv1|]. split_and!.
    + apply list_eq_same_length with (length (functions_ M)).
      * by rewrite length_fmap.
      * done.
      * intros G g1 g2 HG Hg1 Hg2.
        rewrite list_lookup_fmap in Hg2.
        destruct (functions_ M !! G) as [g|] eqn:Hg; [|done].
        injection Hg2 as <-.
        destruct (Hfs1 G g Hg) as (g' & Hg' & Hn & He & _).
        assert (g1 = g') as -> by congruence.
        destruct g' as [fn ns]. cbn [fname_ nodes_] in *. rewrite <- Hn.
        rewrite He; [done|]. apply elem_of_seq. lia.
    + intros a f Hf Ha. apply list_elem_of_lookup in Hf as [F HF].
      apply (Hdead1 a F f); [|done..]. apply elem_of_seq.
      apply lookup_lt_Some in HF. lia.
    + intros a Hfree. apply Hkeep1. intros F f _ Hf. apply Hfree.
      by eapply list_elem_of_lookup_2.
Qed.

Lemma Module_destroy_spec_witness :
  (∃ M', Module_destroy novars_example = Some M'
     ∧ functions_ M' = [mkFunction "main" []]
     ∧ getNode M' 0 = None ∧ getNode M' 1 = None)
  ∧ Module_destroy clone_example = None.
Proof.
  assert (∀ M a b na nb,
            functions_ M = [mkFunction "main" [a; b]] → a ≠ b →
            getNode M a = Some na → kind_ na ≠ VariableNodeKind →
            getNode M b = Some nb → kind_ nb ≠ VariableNodeKind →
            functionsOwn M) as Hown.
  { intros M a b na nb HM Hab Hna Hka Hnb Hkb. split.
    - intros [|F] f Hf; rewrite HM in Hf; [|done]. injection Hf as <-. split.
      + apply NoDup_cons. split; [|apply NoDup_singleton].
        intros [H | H]%elem_of_cons; [done|by apply elem_of_nil in H].
      + intros c Hc. apply elem_of_cons in Hc as [-> | Hc]; [by eexists|].
        apply elem_of_cons in Hc as [-> | Hc]; [by eexists|].
        by apply elem_of_nil in Hc.
    - intros [|F] [|G] f g c Hne Hf Hg; rewrite HM in Hf, Hg; done. }
  split.
  - destruct (proj2 (Module_destroy_spec novars_example
                       (Hown novars_example 0%nat 1%nat _ _ eq_refl
                          ltac:(lia) eq_refl ltac:(discriminate) eq_refl
                          ltac:(discriminate))) eq_refl)
      as (M' & H1 & _ & H2 & H3 & _).
    exists M'. split_and!; [done|done| |].
    + apply (H3 0%nat (mkFunction "main" [0; 1]%nat)); by left.
    + apply (H3 1%nat (mkFunction "main" [0; 1]%nat)); [by left|].
      apply elem_of_cons. right. by left.
  - pose proof (proj1 (Module_destroy_spec clone_example
                         (Hown clone_example 1%nat 2%nat _ _ eq_refl
                            ltac:(lia) eq_refl ltac:(discriminate) eq_refl
                            ltac:(discriminate)))) as Hiff.
    destruct (Module_destroy clone_example) as [M'|] eqn:E; [|done].
    exfalso. by pose proof (proj1 Hiff (mk_is_Some _ _ eq_refl)).
Defined.

(** *** uniqueTypeWithNewShape *)

(** X23. [uniqueTypeWithNewShape] returns an entry of the pool that has the
    requested dimensions, the element kind of the given type and, for a
    quantized type, its scale and offset.  Nodes, Functions and Variables
    are untouched and earlier references into the pool stay valid; asking
    again, for the given type or for the result itself, returns the same
    entry and leaves the pool as it is. *)
Theorem uniqueTypeWithNewShape_interns (T : TypeRef) (dims : list N)
    (M : Module) (t : Ty) :
  derefType (types_ M) T = Some t →
  ∃ i M1 t',
    uniqueTypeWithNewShape T dims M = Some (PoolRef i, M1)
    ∧ poolGet (types_ M1) i = Some t'
    ∧ sizes_ t' = dims
    ∧ elementType_ t' = elementType_ t
    ∧ (isQuantizedType t = true →
       scale_ t' = scale_ t ∧ offset_ t' = offset_ t)
    ∧ pool_extends (types_ M) (types_ M1)
    ∧ heap_ M1 = heap_ M ∧ functions_ M1 = functions_ M
    ∧ vars_ M1 = vars_ M
    ∧ uniqueTypeWithNewShape T dims M1 = Some (PoolRef i, M1)
    ∧ uniqueTypeWithNewShape (PoolRef i) dims M1 = Some (PoolRef i, M1).
Proof.
  intros Ht.
  destruct (uniqueTypeWithNewShape_spec T dims M t Ht)
    as (NT & M1 & t' & HU & Hd & Hs & He & Hq & Hh & Hfs & Hv & Hext).
  assert (∃ T', uniqueType T' M = (NT, M1)
                ∧ T' = (if isQuantizedType t
                        then Type_quant (elementType_ t) dims (scale_ t)
                               (offset_ t)
                        else Type_plain (elementType_ t) dims))
    as (T' & HT' & HTeq).
  { unfold uniqueTypeWithNewShape in HU. rewrite Ht in HU.
    cbn [mbind option_bind] in HU.
    destruct (isQuantizedType t); injection HU as HU; by eexists. }
  destruct (poolUniqueType_PoolRef (types_ M) T') as [i Hi].
  pose proof (uniqueType_deref T' M) as Hd'.
  rewrite uniqueType_unfold in HT'. injection HT' as HNT HM1.
  rewrite Hi in HNT. subst NT. simpl in Hd.
  rewrite uniqueType_unfold in Hd'. cbn [fst snd] in Hd'.
  rewrite Hi, HM1 in Hd'. simpl in Hd'.
  assert (t' = T') as -> by congruence.
  assert (uniqueType T' M1 = (PoolRef i, M1)) as Hidem.
  { rewrite uniqueType_unfold. rewrite <- HM1 at 1 2. cbn [types_ set_types].
    rewrite poolUniqueType_idem, Hi. f_equal. rewrite <- HM1.
    by destruct M. }
  assert (isQuantizedType T' = isQuantizedType t) as Hqq.
  { unfold isQuantizedType. by rewrite He. }
  exists i, M1, T'. split_and!; try done.
  - unfold uniqueTypeWithNewShape.
    rewrite (derefType_extends _ _ _ _ Hext Ht). cbn [mbind option_bind].
    destruct (isQuantizedType t); rewrite <- HTeq; by rewrite Hidem.
  - unfold uniqueTypeWithNewShape. cbn [derefType]. rewrite Hd.
    cbn [mbind option_bind]. rewrite Hqq.
    destruct (isQuantizedType t) eqn:Eq.
    + destruct (Hq eq_refl) as [-> ->]. rewrite He, <- HTeq. by rewrite Hidem.
    + rewrite He, <- HTeq. by rewrite Hidem.
Qed.

Lemma uniqueTypeWithNewShape_interns_witness :
  ∃ i M1,
    uniqueTypeWithNewShape (PoolRef 1) [7] pool_example
    = Some (PoolRef i, M1)
    ∧ poolGet (types_ M1) i = Some (Type_quant Int8QTy [7] 2%Z 1%Z).
Proof.
  destruct (uniqueTypeWithNewShape_interns (PoolRef 1) [7] pool_example
              (Type_quant Int8QTy [4] 2%Z 1%Z) eq_refl)
    as (i & M1 & t' & H1 & H2 & H3 & H4 & H5 & _).
  exists i, M1. split; [done|]. rewrite H2. f_equal.
  destruct t' as [k d s o]. simpl in *.
  destruct (H5 eq_refl) as [-> ->]. by subst.
Defined.

(** *** createPoolMax and createPoolAvg *)

(** X24. For an input that is the only result of its producer and has
    the dimensions (n, h, w, c), with the kernel no larger than h and w and
    a stride that is not zero, [createPoolMax] and [createPoolAvg] succeed;
    the result has the dimensions
    (n, (h + 2 pad - kernel) / stride + 1, (w + 2 pad - kernel) / stride + 1,
    c) and the element kind of the input, and the node records kernel,
    stride and pad. *)
Theorem createPool_shape (PoolMaxNodeKind PoolAvgNodeKind : Kind) (F : nat)
    (name : string) (a : addr) (kernel stride pad : N) (M : Module)
    (nd : Node) (T : TypeRef) (t : Ty) (n h w c : N) :
  getNode M a = Some nd → resTypes_ nd = [T] →
  derefType (types_ M) T = Some t → sizes_ t = [n; h; w; c] →
  kernel ≤ h → kernel ≤ w → stride ≠ 0 →
  is_Some (functions_ M !! F) →
  let out := [n; (h + 2 * pad - kernel) / stride + 1;
              (w + 2 * pad - kernel) / stride + 1; c] in
  (∃ Nd M' nd',
     createPoolMax PoolMaxNodeKind F name (NodeValue_of a) kernel stride pad M
     = Some (Nd, M')
     ∧ getNode M' Nd = Some nd'
     ∧ kind_ nd' = PoolMaxNodeKind
     ∧ inputs_ nd' = [NodeValue_of a]
     ∧ attrs_ nd' = [kernel; stride; pad]
     ∧ NodeValue_dims M' (NodeValue_of Nd) = Some out
     ∧ NodeValue_getElementType M' (NodeValue_of Nd)
       = Some (elementType_ t))
  ∧ (∃ Nd M' nd',
       createPoolAvg PoolAvgNodeKind F name (NodeValue_of a) kernel stride pad
         M = Some (Nd, M')
       ∧ getNode M' Nd = Some nd'
       ∧ kind_ nd' = PoolAvgNodeKind
       ∧ inputs_ nd' = [NodeValue_of a]
       ∧ attrs_ nd' = [kernel; stride; pad]
       ∧ NodeValue_dims M' (NodeValue_of Nd) = Some out
       ∧ NodeValue_getElementType M' (NodeValue_of Nd)
         = Some (elementType_ t)).
Proof.
  intros Hn Hres HT Hsz Hkh Hkw Hstride [f Hf] out.
  assert (Node_getType M a 0 = Some T) as HgT.
  { unfold Node_getType. rewrite Hn. cbn [mbind option_bind].
    by rewrite Hres. }
  assert (NodeValue_dims M (NodeValue_of a) = Some [n; h; w; c]) as Hdims.
  { unfold NodeValue_dims, NodeValue_getType, TypeRef_dims. simpl.
    rewrite HgT. cbn [mbind option_bind]. rewrite HT. simpl.
    by rewrite Hsz. }
  assert (calculateConvOutputDims h w kernel stride pad
          = Some ((h + 2 * pad - kernel) / stride + 1,
                  (w + 2 * pad - kernel) / stride + 1)) as Hout.
  { unfold calculateConvOutputDims. rewrite decide_False by done.
    by rewrite (N.mul_comm pad 2). }
  split.
  - destruct (addNode_new_shape F T out M t f
                (λ OT, PoolMaxNode_new PoolMaxNodeKind name OT
                         (NodeValue_of a) kernel stride pad) HT Hf)
      as (NT & M1 & M' & t' & HU & Hadd & Hget & Hd & Hs & Hel & _).
    unfold createPoolMax. rewrite Hdims. cbn [mbind option_bind ShapeNHWC].
    rewrite bool_decide_eq_true_2 by done. rewrite Hout.
    cbn [mbind option_bind fst snd].
    change (nv_node (NodeValue_of a)) with a. rewrite HgT.
    cbn [mbind option_bind]. fold out. rewrite HU. cbn [mbind option_bind].
    destruct (newNode _ M1) as [Nd M2] eqn:HN. cbn [fst snd] in Hadd.
    rewrite Hadd. eexists _, M', _. split; [reflexivity|].
    split; [exact Hget|]. split_and!; try done.
    + destruct (NodeValue_of_type M' _ _ NT t' Hget eq_refl Hd) as [-> _].
      by rewrite Hs.
    + destruct (NodeValue_of_type M' _ _ NT t' Hget eq_refl Hd) as [_ ->].
      by rewrite Hel.
  - destruct (addNode_new_shape F T out M t f
                (λ OT, PoolAvgNode_new PoolAvgNodeKind name OT
                         (NodeValue_of a) kernel stride pad) HT Hf)
      as (NT & M1 & M' & t' & HU & Hadd & Hget & Hd & Hs & Hel & _).
    unfold createPoolAvg. rewrite Hdims. cbn [mbind option_bind ShapeNHWC].
    rewrite bool_decide_eq_true_2 by done. rewrite Hout.
    cbn [mbind option_bind fst snd].
    change (nv_node (NodeValue_of a)) with a. rewrite HgT.
    cbn [mbind option_bind]. fold out. rewrite HU. cbn [mbind option_bind].
    destruct (newNode _ M1) as [Nd M2] eqn:HN. cbn [fst snd] in Hadd.
    rewrite Hadd. eexists _, M', _. split; [reflexivity|].
    split; [exact Hget|]. split_and!; try done.
    + destruct (NodeValue_of_type M' _ _ NT t' Hget eq_refl Hd) as [-> _].
      by rewrite Hs.
    + destruct (NodeValue_of_type M' _ _ NT t' Hget eq_refl Hd) as [_ ->].
      by rewrite Hel.
Qed.

Lemma createPool_shape_witness :
  ∃ Nd M',
    createPoolMax ConcatNodeKind 0 "pool" (NodeValue_of 0) 2 2 0 conv_example
    = Some (Nd, M')
    ∧ NodeValue_dims M' (NodeValue_of Nd) = Some [1; 16; 16; 3].
Proof.
  destruct (createPool_shape ConcatNodeKind ConcatNodeKind 0 "pool" 0 2 2 0
              conv_example
              (Variable_new "input__0" (PoolRef 0) Public TrainNone)
              (PoolRef 0) (Type_plain FloatTy [1; 32; 32; 3]) 1 32 32 3
              eq_refl eq_refl eq_refl eq_refl)
    as [(Nd & M' & nd' & H1 & _ & _ & _ & _ & H2 & _) _];
    [lia|lia|lia|by eexists|].
  by exists Nd, M'.
Defined.
